(** * Scheduling assistant: the task store, the orderings and the greedy scheduler

    A shallow embedding of [Scheduling_Assistant_Project.py] (classes [Task]
    and [TaskManager]) and the properties of its engine.

    - Python integers are [Z].
    - A [datetime] is the number of microseconds since [datetime.min]
      (0001-01-01 00:00); the representable range ends at [datetime.max].
      A [timedelta] is a signed number of microseconds.
    - A raised exception is the [Err] outcome of the [result] monad; the
      shell installs no handler around the engine, so an exception ends the
      session.
    - [self.tasks] is a Python list of [(priority, deadline, task)] tuples,
      modelled as [list entry] in list order.
    - The methods are programs of a state-and-error monad over the manager.
      For [get_upcoming_tasks] there is a second model, on list objects in
      a heap, that follows which list [merge_sort] and [merge] write.
    - [total_seconds()] returns a float; the division behind it is modelled
      with its rounding. *)

From Stdlib Require Import String.
From Stdlib Require Import List ZArith Lia Bool Permutation Sorted.
From Stdlib Require Import Arith PeanoNat.
From Equations Require Import Equations.
Import ListNotations.

Open Scope Z_scope.

(** ** Exceptions *)

Inductive exn : Type :=
| TypeError
| OverflowError
| IndexError.

Inductive result (A : Type) : Type :=
| Ok (a : A)
| Err (e : exn).
Arguments Ok {A} a.
Arguments Err {A} e.

Definition bind {A B : Type} (m : result A) (k : A -> result B) : result B :=
  match m with
  | Ok a => k a
  | Err e => Err e
  end.

Notation "x <- m ;; k" := (bind m (fun x => k))
  (at level 61, m at next level, right associativity).

Definition returns {A : Type} (m : result A) : Prop :=
  exists a, m = Ok a.

(** ** datetime and timedelta *)

Definition datetime : Type := Z.
Definition timedelta : Type := Z.

Definition US_PER_MINUTE : Z := 60000000.
Definition US_PER_HOUR : Z := 3600000000.
Definition US_PER_DAY : Z := 86400000000.

(** [datetime.max - datetime.min], in microseconds. *)
Definition DATETIME_MAX : Z := 315537897599999999.

(** [timedelta] stores at most 999999999 days in magnitude. *)
Definition TIMEDELTA_MAX_DAYS : Z := 999999999.

Definition valid_datetime (t : datetime) : Prop := 0 <= t <= DATETIME_MAX.

Definition valid_datetimeb (t : datetime) : bool :=
  (0 <=? t) && (t <=? DATETIME_MAX).

(** [timedelta(minutes=m)] for an integer [m]: the normalised day count must
    fit, otherwise OverflowError. *)
Definition timedelta_minutes (m : Z) : result timedelta :=
  let us := m * US_PER_MINUTE in
  let days := us / US_PER_DAY in
  if (- TIMEDELTA_MAX_DAYS <=? days) && (days <=? TIMEDELTA_MAX_DAYS)
  then Ok us else Err OverflowError.

(** [timedelta(hours=i)]. *)
Definition timedelta_hours (i : Z) : result timedelta :=
  let us := i * US_PER_HOUR in
  let days := us / US_PER_DAY in
  if (- TIMEDELTA_MAX_DAYS <=? days) && (days <=? TIMEDELTA_MAX_DAYS)
  then Ok us else Err OverflowError.

(** [datetime + timedelta]: OverflowError when the sum is not a datetime. *)
Definition datetime_add (t : datetime) (d : timedelta) : result datetime :=
  let r := t + d in
  if valid_datetimeb r then Ok r else Err OverflowError.

(** ** Floats

    [timedelta.total_seconds()] is the true division of the microseconds (a
    Python integer) by 10**6: the double nearest to the exact quotient, ties
    to even.  A finite double is given by a mantissa and an exponent,
    [(m, e)] for [m * 2^e]. *)

Definition float : Type := (Z * Z)%type.

(** The integer nearest to [a / b], ties to even ([b > 0]). *)
Definition round_half_even (a b : Z) : Z :=
  let q := a / b in
  let r := a mod b in
  if 2 * r <? b then q
  else if b <? 2 * r then q + 1
  else if Z.even q then q else q + 1.

(** [a / b] on two integers, [a >= 0] and [b > 0]: the exponent [e] is the
    one that puts [a / (b * 2^e)] in [2^52, 2^53), the mantissa is that
    quotient rounded. *)
Definition int_true_divide (a b : Z) : float :=
  if a =? 0 then (0, 0)
  else
    let e0 := Z.log2 a - Z.log2 b - 52 in
    let reaches (e : Z) : bool :=
      if 0 <=? e then b * 2 ^ e * 2 ^ 52 <=? a
      else b * 2 ^ 52 <=? a * 2 ^ (- e) in
    let e := if reaches e0 then e0 else e0 - 1 in
    let m :=
      if 0 <=? e then round_half_even a (b * 2 ^ e)
      else round_half_even (a * 2 ^ (- e)) b in
    (m, e).

(** [int(x // w)] for a double [x >= 0] below 2^53 and an integer [w > 0]:
    [x - fmod(x, w)] and its quotient by [w] are integers below 2^53, so
    the float operations are exact and the result is the floor of [x / w]. *)
Definition float_floordiv_int (x : float) (w : Z) : Z :=
  let '(m, e) := x in
  if 0 <=? e then (m * 2 ^ e) / w else m / (w * 2 ^ (- e)).

(** [td.total_seconds()] for a non-negative [td]. *)
Definition total_seconds (td : timedelta) : float :=
  int_true_divide td 1000000.

(** ** Task *)

Inductive TaskType : Type :=
| academic
| personal.

(** The fields of [Task.__init__].  [Task] defines neither [__eq__] nor
    [__lt__]: [==] on two tasks is object identity and [<] raises TypeError.
    [oid] is the identity of the Python object, so that two tasks built
    from the same field values are still two objects. *)
Record Task : Type := mkTask {
  oid : nat;
  name : string;
  task_type : TaskType;
  deadline : datetime;
  priority : Z;
  duration : Z
}.

Definition TaskType_eq_dec (a b : TaskType) : {a = b} + {a <> b}.
Proof. decide equality. Defined.

Definition Task_eq_dec (a b : Task) : {a = b} + {a <> b}.
Proof.
  decide equality;
    try apply Z.eq_dec; try apply string_dec;
    try apply TaskType_eq_dec; try apply Nat.eq_dec.
Defined.

(** A tuple [(priority, deadline, task)] of [self.tasks]. *)
Definition entry : Type := (Z * datetime * Task)%type.

Definition entry_priority (e : entry) : Z := fst (fst e).
Definition entry_deadline (e : entry) : datetime := snd (fst e).
Definition entry_task (e : entry) : Task := snd e.

(** The tuple that [add_task] builds for a task. *)
Definition entry_of (t : Task) : entry := (priority t, deadline t, t).

(** ** TaskManager *)

Record TaskManager : Type := mkTaskManager {
  tasks : list entry;
  schedule : list Task;
  completed_tasks : list Task
}.

(** [TaskManager.__init__] *)
Definition init : TaskManager := mkTaskManager [] [] [].

(** Every tuple of the store carries the key fields of its own task; this
    holds of every store that [add_task] filled. *)
Definition store_wf (l : list entry) : Prop :=
  Forall (fun e => e = entry_of (entry_task e)) l.

(** ** merge and merge_sort *)

(** Python's [<=] on the values a key function returns. *)
Class Le (K : Type) : Type := le_b : K -> K -> bool.

#[export] Instance Z_Le : Le Z := Z.leb.

(** The keys that a sort is meant for: [<=] is total and transitive. *)
Class TotalPreorder (K : Type) `{Le K} : Prop := {
  le_b_total : forall a b : K, le_b a b = true \/ le_b b a = true;
  le_b_trans : forall a b c : K,
    le_b a b = true -> le_b b c = true -> le_b a c = true
}.

Section MergeSort.
Context {A K : Type} `{Le K}.
Variable key : A -> K.

(** [merge]: the loop over the indices [i] and [j] is the recursion over
    the remaining slices [left[i:]] and [right[j:]]; when one side is
    exhausted the two [extend] calls append what is left. *)
Fixpoint merge (left right : list A) {struct left} : list A :=
  let fix merge_right (right : list A) {struct right} : list A :=
    match left, right with
    | [], _ => right
    | _, [] => left
    | x :: left', y :: right' =>
        if le_b (key x) (key y)
        then x :: merge left' right
        else y :: merge_right right'
    end
  in merge_right right.

Equations? merge_sort (l : list A) : list A by wf (length l) lt :=
  merge_sort l with le_lt_dec (length l) 1 => {
    | left _ := l;
    | right _ :=
        let mid := Nat.div (length l) 2 in
        merge (merge_sort (firstn mid l)) (merge_sort (skipn mid l)) }.
Proof.
  - assert (Hm : mid = Nat.div (length l) 2) by reflexivity.
    clearbody mid. rewrite length_firstn.
    assert (Nat.div (length l) 2 < length l)%nat
      by (apply Nat.div_lt; lia).
    lia.
  - assert (Hm : mid = Nat.div (length l) 2) by reflexivity.
    clearbody mid. rewrite length_skipn.
    assert (0 < Nat.div (length l) 2)%nat
      by (apply Nat.div_str_pos; lia).
    lia.
Qed.

End MergeSort.

(** ** Python built-ins used by the engine *)

(** [list.sort(key=...)] and [sorted] on keys that are integers or datetimes
    never raise and are stable; a stable sort has one possible result, given
    here by stable insertion (an element goes in front of the first element
    of the sorted rest whose key is not smaller). *)
Section ListSort.
Context {A : Type}.
Variable key : A -> Z.

Fixpoint insert_by (x : A) (l : list A) : list A :=
  match l with
  | [] => [x]
  | y :: l' => if key x <=? key y then x :: l else y :: insert_by x l'
  end.

Fixpoint list_sort (l : list A) : list A :=
  match l with
  | [] => []
  | x :: l' => insert_by x (list_sort l')
  end.
End ListSort.

(** [a < b] on two [(priority, deadline, task)] tuples: Python looks for the
    first position where the items differ under [==] and applies [<] there.
    Integers and datetimes compare; two different [Task] objects do not.
    Two tuples equal at every position are not less than one another. *)
Definition tuple_lt (a b : entry) : result bool :=
  if negb (entry_priority a =? entry_priority b)
  then Ok (entry_priority a <? entry_priority b)
  else if negb (entry_deadline a =? entry_deadline b)
  then Ok (entry_deadline a <? entry_deadline b)
  else if Task_eq_dec (entry_task a) (entry_task b)
  then Ok false
  else Err TypeError.

(** [sorted(self.tasks)], without a key: the order is decided by [<] on the
    tuples themselves, and an exception raised by a comparison ends the
    sort.  Stable insertion, as [list_sort], with [tuple_lt] for the test. *)
Fixpoint insert_lt (x : entry) (l : list entry) : result (list entry) :=
  match l with
  | [] => Ok [x]
  | y :: l' =>
      b <- tuple_lt y x ;;
      if b then (r <- insert_lt x l' ;; Ok (y :: r)) else Ok (x :: l)
  end.

Fixpoint sorted (l : list entry) : result (list entry) :=
  match l with
  | [] => Ok []
  | x :: l' => s <- sorted l' ;; insert_lt x s
  end.

(** [l[i] = x] for an index inside the list (the only use below). *)
Fixpoint list_set {A : Type} (l : list A) (i : nat) (x : A) : list A :=
  match l, i with
  | [], _ => []
  | _ :: l', O => x :: l'
  | y :: l', S i' => y :: list_set l' i' x
  end.

(** [del l[i]] for an index inside the list. *)
Fixpoint list_del {A : Type} (l : list A) (i : nat) : list A :=
  match l, i with
  | [], _ => []
  | _ :: l', O => l'
  | y :: l', S i' => y :: list_del l' i'
  end.

(** [heapq._siftdown(heap, 0, pos)] with [newitem = heap[pos]]: the new item
    moves up while it is smaller than its parent at [(pos - 1) >> 1]. *)
Equations? siftdown (heap : list entry) (newitem : entry) (pos : nat)
  : result (list entry) by wf pos lt :=
  siftdown heap newitem O := Ok (list_set heap O newitem);
  siftdown heap newitem (S p) with nth_error heap (Nat.div p 2) => {
    | None := Err IndexError;
    | Some parent with tuple_lt newitem parent => {
        | Err e := Err e;
        | Ok false := Ok (list_set heap (S p) newitem);
        | Ok true :=
            siftdown (list_set heap (S p) parent) newitem (Nat.div p 2) } }.
Proof.
  change (Nat.div p 2 < S p)%nat.
  assert (Nat.div p 2 <= p)%nat by (apply Nat.Div0.div_le_upper_bound; lia).
  lia.
Qed.

(** [heapq.heappush(heap, item)] *)
Definition heappush (heap : list entry) (item : entry) : result (list entry) :=
  siftdown (heap ++ [item]) item (length heap).

(** ** TaskManager methods

    A method runs on the manager it is called on and either raises or
    returns a value together with the manager it leaves behind. *)

Definition M (A : Type) : Type := TaskManager -> result (A * TaskManager).

Definition ret {A : Type} (a : A) : M A := fun m => Ok (a, m).

Definition mbind {A B : Type} (c : M A) (k : A -> M B) : M B :=
  fun m =>
    match c m with
    | Ok (a, m') => k a m'
    | Err e => Err e
    end.

Notation "x <~ c ;; k" := (mbind c (fun x => k))
  (at level 61, c at next level, right associativity).

(** A computation on values only: it raises or returns, the manager stays. *)
Definition lift {A : Type} (r : result A) : M A :=
  fun m =>
    match r with
    | Ok a => Ok (a, m)
    | Err e => Err e
    end.

(** Reading [self.tasks] and [self.completed_tasks]. *)
Definition get_tasks : M (list entry) := fun m => Ok (tasks m, m).
Definition get_completed_tasks : M (list Task) :=
  fun m => Ok (completed_tasks m, m).

(** [self.tasks] after an in-place change of the list. *)
Definition put_tasks (l : list entry) : M unit :=
  fun m => Ok (tt, mkTaskManager l (schedule m) (completed_tasks m)).

(** [self.schedule = s] *)
Definition put_schedule (s : list Task) : M unit :=
  fun m => Ok (tt, mkTaskManager (tasks m) s (completed_tasks m)).

(** [self.completed_tasks.append(task)] *)
Definition append_completed (task : Task) : M unit :=
  fun m =>
    Ok (tt, mkTaskManager (tasks m) (schedule m) (completed_tasks m ++ [task])).

(** [add_task] *)
Definition add_task (task : Task) : M unit :=
  heap <~ get_tasks ;;
  heap' <~ lift (heappush heap (priority task, deadline task, task)) ;;
  put_tasks heap'.

(** [get_upcoming_tasks]: merge sort on the tuple's deadline [x[1]], then the
    tasks of the sorted tuples. *)
Definition get_upcoming_tasks : M (list Task) :=
  self_tasks <~ get_tasks ;;
  let sorted_tasks := merge_sort entry_deadline self_tasks in
  ret (map entry_task sorted_tasks).

(** The [for] loop of [schedule_tasks] over the sorted tuples. *)
Fixpoint schedule_loop (current_time : datetime) (scheduled_tasks : list Task)
  (l : list entry) : result (list Task) :=
  match l with
  | [] => Ok scheduled_tasks
  | (_, deadline, task) :: l' =>
      d <- timedelta_minutes (duration task) ;;
      finish <- datetime_add current_time d ;;
      if finish <=? deadline
      then
        d' <- timedelta_minutes (duration task) ;;
        current_time' <- datetime_add current_time d' ;;
        schedule_loop current_time' (scheduled_tasks ++ [task]) l'
      else schedule_loop current_time scheduled_tasks l'
  end.

(** [schedule_tasks]; [now] is the value of [datetime.now()]. *)
Definition schedule_tasks (now : datetime) : M (list Task) :=
  self_tasks <~ get_tasks ;;
  s <~ lift (sorted self_tasks) ;;
  scheduled_tasks <~ lift (schedule_loop now [] s) ;;
  _ <~ put_schedule scheduled_tasks ;;
  ret scheduled_tasks.

(** [sum(1 for deadline in deadlines if deadline <= time)] *)
Definition count_due (deadlines : list datetime) (time : datetime) : Z :=
  fold_right (fun deadline acc => if deadline <=? time then 1 + acc else acc)
    0 deadlines.

(** [range(n)] *)
Definition range (n : Z) : list Z :=
  map Z.of_nat (seq 0 (Z.to_nat n)).

(** [[f(i) for i in l]] for an [f] that may raise. *)
Fixpoint mapM {A B : Type} (f : A -> result B) (l : list A) : result (list B) :=
  match l with
  | [] => Ok []
  | x :: l' => y <- f x ;; r <- mapM f l' ;; Ok (y :: r)
  end.

(** The bucket [deadlines[0] + timedelta(hours=i)]. *)
Definition bucket (first : datetime) (i : Z) : result datetime :=
  d <- timedelta_hours i ;; datetime_add first d.

(** [int((final - first).total_seconds() // 3600)] *)
Definition span_hours (first final : datetime) : Z :=
  float_floordiv_int (total_seconds (final - first)) 3600.

(** [[deadlines[0] + timedelta(hours=i) for i in range(n)]] *)
Definition density_times_of (first : datetime) (n : Z)
  : result (list datetime) :=
  mapM (bucket first) (range n).

(** The numbers that [analyze_task_density] computes from the task
    deadlines, [density_times] and [density_values]; [None] is the early
    return on an empty list ("No tasks to analyze."). *)
Definition density (deadlines : list datetime)
  : result (option (list datetime * list Z)) :=
  match deadlines with
  | [] => Ok None
  | _ :: _ =>
      let deadlines := list_sort (fun d => d) deadlines in
      let first := hd 0 deadlines in
      let final := last deadlines 0 in
      density_times <- density_times_of first (span_hours first final + 1) ;;
      let density_values := map (count_due deadlines) density_times in
      Ok (Some (density_times, density_values))
  end.

(** [analyze_task_density], up to the plot. *)
Definition analyze_task_density : M (option (list datetime * list Z)) :=
  self_tasks <~ get_tasks ;;
  lift (density (map (fun e => deadline (entry_task e)) self_tasks)).

(** The loop of [remind_tasks]: one pass over the tuples in store order,
    appending each task to one of the two lists. *)
Fixpoint remind_loop (current_time : datetime)
  (overdue_tasks pending_tasks : list Task) (l : list entry)
  : list Task * list Task :=
  match l with
  | [] => (overdue_tasks, pending_tasks)
  | (_, deadline, task) :: l' =>
      if deadline <? current_time
      then remind_loop current_time (overdue_tasks ++ [task]) pending_tasks l'
      else remind_loop current_time overdue_tasks (pending_tasks ++ [task]) l'
  end.

(** [remind_tasks]: the two lists that are printed, each sorted by
    [task.priority]; [now] is the value of [datetime.now()]. *)
Definition remind_tasks (now : datetime) : M (list Task * list Task) :=
  self_tasks <~ get_tasks ;;
  let '(overdue_tasks, pending_tasks) := remind_loop now [] [] self_tasks in
  ret (list_sort priority overdue_tasks, list_sort priority pending_tasks).

(** The [for index, (priority, deadline, task) in enumerate(self.tasks)]
    search of [mark_task_as_completed]: the first index whose task has the
    given name, with that task. *)
Fixpoint find_named (task_name : string) (index : nat) (l : list entry)
  : option (nat * Task) :=
  match l with
  | [] => None
  | (_, _, task) :: l' =>
      if String.eqb (name task) task_name
      then Some (index, task)
      else find_named task_name (S index) l'
  end.

(** What [mark_task_as_completed] prints. *)
Inductive completion_report : Type :=
| marked_as_completed
| not_found.

(** [mark_task_as_completed] *)
Definition mark_task_as_completed (task_name : string) : M completion_report :=
  self_tasks <~ get_tasks ;;
  match find_named task_name 0 self_tasks with
  | Some (index, task) =>
      _ <~ append_completed task ;;
      _ <~ put_tasks (list_del self_tasks index) ;;
      ret marked_as_completed
  | None => ret not_found
  end.

(** [view_completed_tasks]: the tasks it prints, in archive order. *)
Definition view_completed_tasks : M (list Task) :=
  get_completed_tasks.

(** ** The list objects behind merge_sort

    [get_upcoming_tasks] hands the list object [self.tasks] itself to
    [merge_sort], which returns its argument when it has at most one element
    and otherwise works on slices and on the list that [merge] builds with
    [append] and [extend].  To follow which list object is written, the
    lists live in a heap, a list object being its address there; a slice
    and [[]] allocate, [append] and [extend] write in place.  The recursion
    carries fuel, and [None] is a run that used it up. *)

Definition objects : Type := list (list entry).
Definition ref : Type := nat.

Definition H (A : Type) : Type := objects -> option (A * objects).

Definition hret {A : Type} (a : A) : H A := fun h => Some (a, h).

Definition hbind {A B : Type} (c : H A) (k : A -> H B) : H B :=
  fun h =>
    match c h with
    | Some (a, h') => k a h'
    | None => None
    end.

Notation "'let*' x ':=' c 'in' k" := (hbind c (fun x => k))
  (at level 10, x name, c at level 100, k at level 200, only parsing).

Definition out_of_fuel {A : Type} : H A := fun _ => None.

(** The elements of the list object [r]. *)
Definition deref (r : ref) : H (list entry) := fun h => Some (nth r h [], h).

(** A new list object with the elements [l]. *)
Definition alloc (l : list entry) : H ref :=
  fun h => Some (length h, h ++ [l]).

(** [r.append(x)] *)
Definition append (r : ref) (x : entry) : H unit :=
  fun h => Some (tt, list_set h r (nth r h [] ++ [x])).

(** [r.extend(s)] *)
Definition extend (r s : ref) : H unit :=
  fun h => Some (tt, list_set h r (nth r h [] ++ nth s h [])).

(** [r[i:j]] and [r[i:]] *)
Definition slice (r : ref) (i j : nat) : H ref :=
  let* l := deref r in alloc (firstn (j - i) (skipn i l)).

Definition slice_from (r : ref) (i : nat) : H ref :=
  let* l := deref r in alloc (skipn i l).

Section MergeSortObjects.
Context {K : Type} `{Le K}.
Variable key : entry -> K.

(** The [while] loop of [merge]; it returns the final [i] and [j].  The
    guard [i < len(left) and j < len(right)] holds exactly when both
    [left[i]] and [right[j]] exist. *)
Fixpoint merge_loop (fuel : nat) (left right result : ref) (i j : nat)
  : H (nat * nat) :=
  let* l := deref left in
  let* r := deref right in
  match nth_error l i, nth_error r j with
  | Some x, Some y =>
      match fuel with
      | O => out_of_fuel
      | S fuel' =>
          if le_b (key x) (key y)
          then let* _ := append result x in
               merge_loop fuel' left right result (S i) j
          else let* _ := append result y in
               merge_loop fuel' left right result i (S j)
      end
  | _, _ => hret (i, j)
  end.

(** [merge] on list objects. *)
Definition merge_obj (left right : ref) : H ref :=
  let* result := alloc [] in
  let* l := deref left in
  let* r := deref right in
  let* ij := merge_loop (length l + length r) left right result 0 0 in
  let* rest_left := slice_from left (fst ij) in
  let* _ := extend result rest_left in
  let* rest_right := slice_from right (snd ij) in
  let* _ := extend result rest_right in
  hret result.

(** [merge_sort] on list objects. *)
Fixpoint merge_sort_fuel (fuel : nat) (tasks : ref) : H ref :=
  let* l := deref tasks in
  if (length l <=? 1)%nat then hret tasks
  else
    match fuel with
    | O => out_of_fuel
    | S fuel' =>
        let mid := Nat.div (length l) 2 in
        let* first_half := slice tasks 0 mid in
        let* left := merge_sort_fuel fuel' first_half in
        let* second_half := slice_from tasks mid in
        let* right := merge_sort_fuel fuel' second_half in
        merge_obj left right
    end.

Definition merge_sort_obj (tasks : ref) : H ref :=
  let* l := deref tasks in merge_sort_fuel (length l) tasks.

End MergeSortObjects.

(** [get_upcoming_tasks] with [self.tasks] the list object [self_tasks];
    the comprehension builds the list that is returned. *)
Definition get_upcoming_tasks_obj (self_tasks : ref) : H (list Task) :=
  let* sorted_tasks := merge_sort_obj entry_deadline self_tasks in
  let* l := deref sorted_tasks in
  hret (map entry_task l).

(** Every list object of [h] is in [h'] with the elements it had. *)
Definition preserved (h h' : objects) : Prop :=
  (length h <= length h')%nat /\
  forall r, (r < length h)%nat -> nth r h' [] = nth r h [].

(** ** Example data *)

(** A current time: 2026-11-03 12:00. *)
Definition example_now : datetime := 63929304000000000.

(** The three tasks that [display_menu] adds at start-up. *)
Definition calculus_assignment : Task :=
  mkTask 1 "Calculus Assignment" academic
         (example_now + 5 * US_PER_HOUR) 1 120.
Definition project_report : Task :=
  mkTask 2 "Project Report" academic
         (example_now + 12 * US_PER_HOUR) 2 180.
Definition self_care : Task :=
  mkTask 3 "Self-Care" personal
         (example_now + 8 * US_PER_HOUR) 3 60.

(** The store after the three [add_task] calls. *)
Definition seeded : TaskManager :=
  mkTaskManager
    [entry_of calculus_assignment; entry_of project_report; entry_of self_care]
    [] [].

(** The tasks of the scheduling scenario at current time [T]. *)
Definition task_A (T : datetime) : Task :=
  mkTask 1 "A" academic (T + 60 * US_PER_MINUTE) 1 30.
Definition task_B (T : datetime) : Task :=
  mkTask 2 "B" academic (T + 45 * US_PER_MINUTE) 2 30.

(** A second task with the priority and the deadline of [task_B]. *)
Definition task_C (T : datetime) : Task :=
  mkTask 3 "C" personal (T + 45 * US_PER_MINUTE) 2 30.

Definition scenario (T : datetime) : TaskManager :=
  mkTaskManager [entry_of (task_A T); entry_of (task_B T)] [] [].

Definition tied_store (T : datetime) : TaskManager :=
  mkTaskManager [entry_of (task_A T); entry_of (task_B T); entry_of (task_C T)]
                [] [].

(** Two deadlines 5000000 hours less one microsecond apart, the later one
    being [datetime.max]. *)
Definition task_early : Task :=
  mkTask 1 "early" academic (DATETIME_MAX + 1 - 5000000 * US_PER_HOUR) 1 30.
Definition task_last : Task :=
  mkTask 2 "last" personal DATETIME_MAX 2 30.

Definition far_apart : TaskManager :=
  mkTaskManager [entry_of task_early; entry_of task_last] [] [].

(** ** Vocabulary of the properties *)

Section Ordered.
Context {A K : Type} `{Le K}.
Variable key : A -> K.

Definition key_le (a b : A) : Prop := le_b (key a) (key b) = true.

(** Sorted by key in ascending order. *)
Definition ascending (l : list A) : Prop := StronglySorted key_le l.

(** The elements of a list whose key ties with [k], in list order. *)
Definition key_eqb (k : K) (a : A) : bool :=
  le_b (key a) k && le_b k (key a).

Definition with_key (k : K) (l : list A) : list A := filter (key_eqb k) l.

(** [l'] keeps the elements of equal key in the relative order of [l]. *)
Definition stable_wrt (l l' : list A) : Prop :=
  forall k, with_key k l' = with_key k l.
End Ordered.

(** The scheduled minutes of a list of tasks. *)
Definition total_minutes (l : list Task) : Z :=
  fold_right (fun t acc => duration t + acc) 0 l.

(** When the [k]-th task of a schedule started at [clock] is finished. *)
Definition finish_time (clock : datetime) (sched : list Task) (k : nat)
  : datetime :=
  clock + total_minutes (firstn (S k) sched) * US_PER_MINUTE.

(** Performed back to back from [clock], each task ends by its deadline. *)
Fixpoint feasible (clock : datetime) (sched : list Task) : Prop :=
  match sched with
  | [] => True
  | t :: sched' =>
      clock + duration t * US_PER_MINUTE <= deadline t /\
      feasible (clock + duration t * US_PER_MINUTE) sched'
  end.

(** Overdue at [now]: the deadline is strictly earlier. *)
Definition is_overdue (now : datetime) (t : Task) : bool := deadline t <? now.

(** The order of the [(priority, deadline)] part of two tuples. *)
Definition entry_le (a b : entry) : Prop :=
  entry_priority a < entry_priority b \/
  (entry_priority a = entry_priority b /\ entry_deadline a <= entry_deadline b).

(** Two tuples that Python can put in order: they differ in priority or
    deadline, or they hold the same task object. *)
Definition comparable (a b : entry) : Prop :=
  entry_priority a = entry_priority b ->
  entry_deadline a = entry_deadline b ->
  entry_task a = entry_task b.

(** [s] is [l] with some of its elements left out. *)
Inductive subseq {A : Type} : list A -> list A -> Prop :=
| subseq_nil : subseq [] []
| subseq_skip (x : A) (s l : list A) : subseq s l -> subseq s (x :: l)
| subseq_take (x : A) (s l : list A) : subseq s l -> subseq (x :: s) (x :: l).

(** The (priority, deadline) order on tasks. *)
Definition task_le (a b : Task) : Prop :=
  priority a < priority b \/
  (priority a = priority b /\ deadline a <= deadline b).

(** The tuples of a store whose task has the given name, in store order. *)
Definition named (task_name : string) (l : list entry) : list entry :=
  filter (fun e => String.eqb (name (entry_task e)) task_name) l.

(** ** plot_gantt_chart

    What the function hands to matplotlib: the limits of the x axis and one
    bar per task.  The drawing itself and the legend are matplotlib's. *)

Inductive color : Type :=
| skyblue
| salmon.

(** One [broken_barh] call: the bar [(start, width)] on the row
    [(row, height)]. *)
Record bar : Type := mkBar {
  bar_start : datetime;
  bar_width : timedelta;
  bar_row : Z;
  bar_height : Z;
  bar_color : color;
  bar_label : string
}.

Record chart : Type := mkChart {
  xlim : datetime * datetime;
  ylim : Z * Z;
  bars : list bar
}.

(** [datetime - timedelta]: OverflowError when the result is no datetime. *)
Definition datetime_sub (t : datetime) (d : timedelta) : result datetime :=
  let r := t - d in
  if valid_datetimeb r then Ok r else Err OverflowError.

(** [min] and [max] over a generator that yields [x] and then [l]. *)
Definition min_of (x : Z) (l : list Z) : Z := fold_left Z.min l x.
Definition max_of (x : Z) (l : list Z) : Z := fold_left Z.max l x.

(** The body of the [for] loop: the bar of one task. *)
Definition bar_of (task : Task) : result bar :=
  d <- timedelta_minutes (duration task) ;;
  start <- datetime_sub (deadline task) d ;;
  let bar_color := match task_type task with
                   | academic => skyblue
                   | personal => salmon
                   end in
  width <- timedelta_minutes (duration task) ;;
  Ok (mkBar start width
            (match task_type task with academic => 15 | personal => 25 end)
            9 bar_color (name task)).

(** [plot_gantt_chart]; [None] is the early return on an empty list
    ("No tasks available to plot."). *)
Definition plot_gantt_chart (tasks : list Task) : result (option chart) :=
  match tasks with
  | [] => Ok None
  | task :: rest =>
      let left := min_of (deadline task) (map deadline rest) in
      hour <- timedelta_minutes 60 ;;
      right <- datetime_add (max_of (deadline task) (map deadline rest)) hour ;;
      bars <- mapM bar_of tasks ;;
      Ok (Some (mkChart (left, right) (0, 50) bars))
  end.

(** ** The shell: get_user_input and display_menu

    [input()] takes the next line of the standard input and raises EOFError
    when there is none; what is printed is left out.  [datetime.now()] is
    the next reading of a clock.  A new [Task] object gets the next object
    identity.  The string and parsing functions of the library are
    parameters: [lower] and [strip] for [str.lower] and [str.strip],
    [strptime] for [datetime.strptime(_, '%Y-%m-%d %H:%M')] and [int] for
    [int(_)], both [None] where Python raises ValueError. *)

Inductive shell_exn : Type :=
| Engine (e : exn)
| ValueError
| EOFError.

Inductive shell_result (A : Type) : Type :=
| Returned (a : A)
| Raised (e : shell_exn).
Arguments Returned {A} a.
Arguments Raised {A} e.

Record session : Type := mkSession {
  manager : TaskManager;
  stdin : list string;
  clock_reads : nat;
  next_oid : nat
}.

Section Shell.
Variable lower strip : string -> string.
Variable strptime : string -> option datetime.
Variable int : string -> option Z.
Variable clock : nat -> datetime.

(** The prompt for the task type, repeated until the answer is valid. *)
Fixpoint read_task_type (lines : list string)
  : shell_result (TaskType * list string) :=
  match lines with
  | [] => Raised EOFError
  | line :: rest =>
      let task_type := lower (strip line) in
      if String.eqb task_type "academic" then Returned (academic, rest)
      else if String.eqb task_type "personal" then Returned (personal, rest)
      else read_task_type rest
  end.

(** The prompt for the deadline, repeated until the answer parses. *)
Fixpoint read_deadline (lines : list string)
  : shell_result (datetime * list string) :=
  match lines with
  | [] => Raised EOFError
  | line :: rest =>
      match strptime line with
      | Some deadline => Returned (deadline, rest)
      | None => read_deadline rest
      end
  end.

(** [int(input(...))]: asked once. *)
Definition read_int (lines : list string) : shell_result (Z * list string) :=
  match lines with
  | [] => Raised EOFError
  | line :: rest =>
      match int line with
      | Some z => Returned (z, rest)
      | None => Raised ValueError
      end
  end.

(** The [while True] loop of [get_user_input]; every round reads at least
    one line, and [None] is a run that used up its fuel. *)
Fixpoint get_user_input_loop (fuel : nat) (s : session)
  : option (shell_result session) :=
  match fuel with
  | O => None
  | S fuel' =>
      match stdin s with
      | [] => Some (Raised EOFError)
      | name :: rest =>
          if String.eqb (lower name) "done"
          then Some (Returned
                       (mkSession (manager s) rest (clock_reads s)
                                  (next_oid s)))
          else
            match read_task_type rest with
            | Raised e => Some (Raised e)
            | Returned (task_type, rest1) =>
            match read_deadline rest1 with
            | Raised e => Some (Raised e)
            | Returned (deadline, rest2) =>
            match read_int rest2 with
            | Raised e => Some (Raised e)
            | Returned (priority, rest3) =>
            match read_int rest3 with
            | Raised e => Some (Raised e)
            | Returned (duration, rest4) =>
                let task := mkTask (next_oid s) name task_type deadline
                                   priority duration in
                match add_task task (manager s) with
                | Err e => Some (Raised (Engine e))
                | Ok (_, m) =>
                    get_user_input_loop fuel'
                      (mkSession m rest4 (clock_reads s) (S (next_oid s)))
                end
            end end end end
      end
  end.

Definition get_user_input (s : session) : option (shell_result session) :=
  get_user_input_loop (S (length (stdin s))) s.

(** One of the three [add_task(Task(..., datetime.now() + timedelta(hours=h),
    ...))] calls at the start of [display_menu]. *)
Definition add_seed (name : string) (task_type : TaskType) (hours : Z)
  (priority duration : Z) (s : session) : shell_result session :=
  match (d <- timedelta_hours hours ;;
         deadline <- datetime_add (clock (clock_reads s)) d ;;
         add_task (mkTask (next_oid s) name task_type deadline
                          priority duration) (manager s)) with
  | Err e => Raised (Engine e)
  | Ok (_, m) =>
      Returned (mkSession m (stdin s) (S (clock_reads s)) (S (next_oid s)))
  end.

(** A method of the manager called from the menu: its value is printed
    or plotted, the manager goes on. *)
Definition call {A : Type} (c : M A) (s : session) (reads : nat)
  : shell_result (A * session) :=
  match c (manager s) with
  | Err e => Raised (Engine e)
  | Ok (a, m) =>
      Returned (a, mkSession m (stdin s) (reads + clock_reads s) (next_oid s))
  end.

(** One pass of the menu after the choice was read: [Returned None] is the
    [break] of choice 8, [Returned (Some s')] goes round again; [None] is a
    run of [get_user_input] out of fuel. *)
Definition menu_choice (choice : string) (s : session)
  : option (shell_result (option session)) :=
  if String.eqb choice "1" then
    match get_user_input s with
    | None => None
    | Some (Raised e) => Some (Raised e)
    | Some (Returned s') => Some (Returned (Some s'))
    end
  else if String.eqb choice "2" then
    match call get_upcoming_tasks s 0 with
    | Raised e => Some (Raised e)
    | Returned (_, s') => Some (Returned (Some s'))
    end
  else if String.eqb choice "3" then
    match call (schedule_tasks (clock (clock_reads s))) s 1 with
    | Raised e => Some (Raised e)
    | Returned (scheduled_tasks, s') =>
        match scheduled_tasks with
        | [] => Some (Returned (Some s'))
        | _ :: _ =>
            match plot_gantt_chart scheduled_tasks with
            | Err e => Some (Raised (Engine e))
            | Ok _ => Some (Returned (Some s'))
            end
        end
    end
  else if String.eqb choice "4" then
    match call analyze_task_density s 0 with
    | Raised e => Some (Raised e)
    | Returned (_, s') => Some (Returned (Some s'))
    end
  else if String.eqb choice "5" then
    match call (remind_tasks (clock (clock_reads s))) s 1 with
    | Raised e => Some (Raised e)
    | Returned (_, s') => Some (Returned (Some s'))
    end
  else if String.eqb choice "6" then
    match stdin s with
    | [] => Some (Raised EOFError)
    | task_name :: rest =>
        match call (mark_task_as_completed task_name)
                   (mkSession (manager s) rest (clock_reads s) (next_oid s))
                   0 with
        | Raised e => Some (Raised e)
        | Returned (_, s') => Some (Returned (Some s'))
        end
    end
  else if String.eqb choice "7" then
    match call view_completed_tasks s 0 with
    | Raised e => Some (Raised e)
    | Returned (_, s') => Some (Returned (Some s'))
    end
  else if String.eqb choice "8" then Some (Returned None)
  else Some (Returned (Some s)).

(** The [while True] loop of [display_menu]. *)
Fixpoint menu_loop (fuel : nat) (s : session)
  : option (shell_result session) :=
  match fuel with
  | O => None
  | S fuel' =>
      match stdin s with
      | [] => Some (Raised EOFError)
      | choice :: rest =>
          match menu_choice choice
                  (mkSession (manager s) rest (clock_reads s) (next_oid s))
          with
          | None => None
          | Some (Raised e) => Some (Raised e)
          | Some (Returned None) =>
              Some (Returned
                      (mkSession (manager s) rest (clock_reads s)
                                 (next_oid s)))
          | Some (Returned (Some s')) => menu_loop fuel' s'
          end
      end
  end.

(** [display_menu(manager)] *)
Definition display_menu (s : session) : option (shell_result session) :=
  match add_seed "Calculus Assignment" academic 5 1 120 s with
  | Raised e => Some (Raised e)
  | Returned s1 =>
  match add_seed "Project Report" academic 12 2 180 s1 with
  | Raised e => Some (Raised e)
  | Returned s2 =>
  match add_seed "Self-Care" personal 8 3 60 s2 with
  | Raised e => Some (Raised e)
  | Returned s3 => menu_loop (S (length (stdin s3))) s3
  end end end.

(** [main()]: a new manager, then the menu. *)
Definition main (input : list string) : option (shell_result session) :=
  display_menu (mkSession init input 0 0).

End Shell.

(** The task objects a manager holds: those of the store, then the
    completed ones. *)
Definition all_tasks (m : TaskManager) : list Task :=
  map entry_task (tasks m) ++ completed_tasks m.

(** What holds of the manager all through a session: the tuples carry
    their tasks' keys, no task object is held twice, and the identities in
    use are below the next one to be given out. *)
Definition session_ok (s : session) : Prop :=
  store_wf (tasks (manager s)) /\
  NoDup (map oid (all_tasks (manager s))) /\
  Forall (fun t => (oid t < next_oid s)%nat) (all_tasks (manager s)).

(** Stand-ins for the library functions of the shell, for running it on
    examples: [str.lower] on ASCII letters, [str.strip] on strings without
    blanks around them, [int] on strings of decimal digits, and [strptime]
    on the one date of the examples, 2026-11-04 09:00. *)
Definition ascii_lower (c : Ascii.ascii) : Ascii.ascii :=
  let n := Ascii.nat_of_ascii c in
  if ((65 <=? n) && (n <=? 90))%nat then Ascii.ascii_of_nat (n + 32) else c.

Fixpoint example_lower (s : string) : string :=
  match s with
  | EmptyString => EmptyString
  | String c s' => String (ascii_lower c) (example_lower s')
  end.

Definition example_strip (s : string) : string := s.

Definition digit_value (c : Ascii.ascii) : option Z :=
  let n := Ascii.nat_of_ascii c in
  if ((48 <=? n) && (n <=? 57))%nat then Some (Z.of_nat (n - 48)) else None.

Fixpoint decimal_from (acc : Z) (s : string) : option Z :=
  match s with
  | EmptyString => Some acc
  | String c s' =>
      match digit_value c with
      | Some d => decimal_from (10 * acc + d) s'
      | None => None
      end
  end.

Definition example_int (s : string) : option Z :=
  match s with
  | EmptyString => None
  | String _ _ => decimal_from 0 s
  end.

Definition example_strptime (s : string) : option datetime :=
  if String.eqb s "2026-11-04 09:00"
  then Some (example_now + 21 * US_PER_HOUR) else None.

Definition example_clock (k : nat) : datetime :=
  example_now + Z.of_nat k * US_PER_MINUTE.

(** A session at the keyboard: add a task, look at the lists, complete a
    seed task, leave. *)
Definition example_input : list string :=
  ["1"; "Essay"; "poetry"; "Academic"; "tomorrow"; "2026-11-04 09:00"; "2";
   "90"; "DONE"; "2"; "3"; "5"; "6"; "Self-Care"; "7"; "9"; "8"]%string.

(** Where the session of [example_input] ends. *)
Definition example_final : session :=
  Eval vm_compute in
    match main example_lower example_strip example_strptime example_int
               example_clock example_input with
    | Some (Returned s) => s
    | _ => mkSession init [] 0 0
    end.

(** One round of [get_user_input] on the seed store, and where it ends. *)
Definition example_typing : session :=
  mkSession seeded
    ["Essay"; "academic"; "2026-11-04 09:00"; "2"; "90"; "done"; "8"]%string
    3 4.

Definition example_typed : session :=
  Eval vm_compute in
    match get_user_input example_lower example_strip example_strptime
                         example_int example_typing with
    | Some (Returned s) => s
    | _ => example_typing
    end.

(** The heap order that [heapq] maintains on a list: no tuple is below its
    parent at [(i - 1) >> 1] in the (priority, deadline) order. *)
Definition parent (i : nat) : nat := Nat.div (i - 1) 2.

Definition heap_ordered (l : list entry) : Prop :=
  forall (i : nat) (c p : entry),
    (0 < i)%nat ->
    nth_error l i = Some c ->
    nth_error l (parent i) = Some p ->
    entry_le p c.

(** ** merge and merge_sort: permutation, order, stability *)

Section MergeSortFacts.
Context {A K : Type} `{TotalPreorder K}.
Variable key : A -> K.

Lemma merge_nil_l (r : list A) : merge key [] r = r.
Proof. destruct r; reflexivity. Qed.

Lemma merge_nil_r (l : list A) : merge key l [] = l.
Proof. destruct l; reflexivity. Qed.

Lemma merge_cons_cons (x y : A) (l r : list A) :
  merge key (x :: l) (y :: r) =
  if le_b (key x) (key y)
  then x :: merge key l (y :: r)
  else y :: merge key (x :: l) r.
Proof. reflexivity. Qed.

Lemma merge_Permutation (l r : list A) :
  Permutation (l ++ r) (merge key l r).
Proof.
  revert r. induction l as [|x l IHl]; intro r.
  - rewrite merge_nil_l. reflexivity.
  - induction r as [|y r IHr].
    + rewrite merge_nil_r, app_nil_r. reflexivity.
    + rewrite merge_cons_cons. destruct (le_b (key x) (key y)).
      * simpl. constructor. apply IHl.
      * rewrite <- IHr. symmetry. apply (Permutation_middle (x :: l) r y).
Qed.

Lemma key_le_total (a b : A) : key_le key a b \/ key_le key b a.
Proof. apply le_b_total. Qed.

Lemma key_le_trans (a b c : A) :
  key_le key a b -> key_le key b c -> key_le key a c.
Proof. apply le_b_trans. Qed.

Lemma ascending_cons_inv (x : A) (l : list A) :
  ascending key (x :: l) -> Forall (key_le key x) l /\ ascending key l.
Proof. intro Hs. inversion Hs; subst. split; assumption. Qed.

Lemma Forall_key_le_trans (x y : A) (l : list A) :
  key_le key x y -> Forall (key_le key y) l -> Forall (key_le key x) l.
Proof.
  intros Hxy Hl. eapply Forall_impl; [|exact Hl].
  intros a Ha. eapply key_le_trans; eassumption.
Qed.

Lemma merge_ascending (l r : list A) :
  ascending key l -> ascending key r -> ascending key (merge key l r).
Proof.
  revert r. induction l as [|x l IHl]; intros r Hl Hr.
  - rewrite merge_nil_l. exact Hr.
  - induction r as [|y r IHr].
    + rewrite merge_nil_r. exact Hl.
    + rewrite merge_cons_cons.
      destruct (ascending_cons_inv _ _ Hl) as [Hxl Hl'].
      destruct (ascending_cons_inv _ _ Hr) as [Hyr Hr'].
      destruct (le_b (key x) (key y)) eqn:Hxy.
      * constructor; [apply IHl; assumption|].
        eapply Permutation_Forall; [apply merge_Permutation|].
        apply Forall_app. split; [exact Hxl|].
        constructor; [exact Hxy|].
        eapply Forall_key_le_trans; [exact Hxy | exact Hyr].
      * assert (Hyx : key_le key y x).
        { destruct (key_le_total x y) as [Hc|Hc]; [|exact Hc].
          unfold key_le in Hc. congruence. }
        constructor; [apply IHr; assumption|].
        eapply Permutation_Forall; [apply merge_Permutation|].
        apply Forall_app. split; [|exact Hyr].
        constructor; [exact Hyx|].
        eapply Forall_key_le_trans; [exact Hyx | exact Hxl].
Qed.

Lemma with_key_cons (k : K) (a : A) (l : list A) :
  with_key key k (a :: l) =
  if key_eqb key k a then a :: with_key key k l else with_key key k l.
Proof. reflexivity. Qed.

Lemma with_key_app (k : K) (l r : list A) :
  with_key key k (l ++ r) = with_key key k l ++ with_key key k r.
Proof. apply filter_app. Qed.

(** Nothing in a sorted list ties with a key strictly below its head. *)
Lemma with_key_above (k : K) (x y : A) (l : list A) :
  le_b (key x) (key y) = false ->
  key_eqb key k y = true ->
  Forall (key_le key x) l ->
  with_key key k (x :: l) = [].
Proof.
  intros Hxy Hk Hl. unfold with_key.
  apply andb_prop in Hk. destruct Hk as [Hyk Hky].
  assert (Hno : forall z, key_le key x z -> key_eqb key k z = false).
  { intros z Hxz. unfold key_eqb.
    destruct (le_b (key z) k) eqn:Hzk; [|reflexivity].
    destruct (le_b k (key z)) eqn:Hkz; [|reflexivity].
    exfalso.
    assert (le_b (key x) (key y) = true); [|congruence].
    eapply le_b_trans; [exact Hxz|].
    eapply le_b_trans; [exact Hzk | exact Hky]. }
  simpl. rewrite Hno by (destruct (key_le_total x x); assumption).
  induction Hl as [|z l Hz Hl IH]; [reflexivity|].
  simpl. rewrite (Hno z Hz). exact IH.
Qed.

(** On equal keys [merge] takes from the left: the elements of each key
    come out in the order "left, then right". *)
Lemma merge_with_key (k : K) (l r : list A) :
  ascending key l ->
  with_key key k (merge key l r) = with_key key k l ++ with_key key k r.
Proof.
  revert r. induction l as [|x l IHl]; intros r Hl.
  - rewrite merge_nil_l. reflexivity.
  - induction r as [|y r IHr].
    + rewrite merge_nil_r. change (with_key key k []) with (@nil A).
      rewrite app_nil_r. reflexivity.
    + rewrite merge_cons_cons.
      destruct (ascending_cons_inv _ _ Hl) as [Hxl Hl'].
      destruct (le_b (key x) (key y)) eqn:Hxy.
      * rewrite !(with_key_cons k x), (IHl (y :: r) Hl').
        destruct (key_eqb key k x); reflexivity.
      * rewrite !(with_key_cons k y), IHr.
        destruct (key_eqb key k y) eqn:Hk; [|reflexivity].
        rewrite (with_key_above k x y l Hxy Hk Hxl). reflexivity.
Qed.

Lemma merge_sort_eq (l : list A) :
  merge_sort key l =
  if (length l <=? 1)%nat then l
  else merge key (merge_sort key (firstn (Nat.div (length l) 2) l))
                 (merge_sort key (skipn (Nat.div (length l) 2) l)).
Proof.
  rewrite merge_sort_equation_1.
  destruct (le_lt_dec (length l) 1) as [Hle|Hgt]; simpl.
  - apply Nat.leb_le in Hle. rewrite Hle. reflexivity.
  - apply Nat.leb_gt in Hgt. rewrite Hgt. reflexivity.
Qed.

Lemma ascending_short (l : list A) :
  (length l <= 1)%nat -> ascending key l.
Proof.
  destruct l as [|x [|y l]]; simpl; intro Hlen.
  - constructor.
  - constructor; constructor.
  - lia.
Qed.

Lemma merge_sort_spec (l : list A) :
  Permutation l (merge_sort key l) /\
  ascending key (merge_sort key l) /\
  stable_wrt key l (merge_sort key l).
Proof.
  remember (length l) as n eqn:Hn. revert l Hn.
  induction n as [n IH] using lt_wf_ind. intros l Hn.
  rewrite merge_sort_eq.
  destruct (length l <=? 1)%nat eqn:Hlen.
  - apply Nat.leb_le in Hlen. split; [reflexivity|].
    split; [apply ascending_short; exact Hlen | intro k; reflexivity].
  - apply Nat.leb_gt in Hlen.
    set (mid := Nat.div (length l) 2).
    assert (Hmid_lt : (mid < length l)%nat)
      by (apply Nat.div_lt; lia).
    assert (Hmid_pos : (0 < mid)%nat)
      by (apply Nat.div_str_pos; lia).
    destruct (IH (length (firstn mid l))) with (l := firstn mid l)
      as (Hp1 & Hs1 & Hst1);
      [rewrite length_firstn; lia | reflexivity |].
    destruct (IH (length (skipn mid l))) with (l := skipn mid l)
      as (Hp2 & Hs2 & Hst2);
      [rewrite length_skipn; lia | reflexivity |].
    split; [|split].
    + rewrite <- merge_Permutation, <- Hp1, <- Hp2, firstn_skipn.
      reflexivity.
    + apply merge_ascending; assumption.
    + intro k. rewrite merge_with_key by assumption.
      rewrite Hst1, Hst2, <- with_key_app, firstn_skipn. reflexivity.
Qed.

End MergeSortFacts.

#[export] Instance Z_TotalPreorder : TotalPreorder Z.
Proof.
  split; unfold le_b, Z_Le.
  - intros a b. destruct (Z.leb_spec a b); [left; reflexivity|].
    right. apply Z.leb_le. lia.
  - intros a b c Hab Hbc. apply Z.leb_le in Hab, Hbc. apply Z.leb_le. lia.
Qed.

(** C6. For every list and every key function whose keys are totally
    preordered by [<=], [merge_sort] returns a permutation of its input that
    is sorted by key in ascending order and stable: the elements of each key
    come out in the relative order they came in.  During a merge the left
    element is taken whenever its key is not greater, so on equal keys the
    left half goes first; the empty list and one-element lists are returned
    as they are. *)
Theorem merge_sort_stable_sort {A K : Type} `{TotalPreorder K}
  (key : A -> K) (l : list A) :
  Permutation l (merge_sort key l) /\
  ascending key (merge_sort key l) /\
  stable_wrt key l (merge_sort key l) /\
  (forall x y left right,
      le_b (key x) (key y) = true ->
      merge key (x :: left) (y :: right) = x :: merge key left (y :: right)) /\
  ((length l <= 1)%nat -> merge_sort key l = l).
Proof.
  destruct (merge_sort_spec key l) as (Hp & Hs & Hst).
  repeat split; try assumption.
  - intros x y left right Hxy. rewrite merge_cons_cons, Hxy. reflexivity.
  - intro Hlen. rewrite merge_sort_eq.
    apply Nat.leb_le in Hlen. rewrite Hlen. reflexivity.
Qed.

Lemma merge_sort_stable_sort_witness :
  let key := fun p : Z * string => fst p in
  let l := [(3, "a"); (1, "b"); (3, "c"); (2, "d"); (1, "e")]%string in
  Permutation l (merge_sort key l) /\
  ascending key (merge_sort key l) /\
  stable_wrt key l (merge_sort key l) /\
  (forall x y left right,
      le_b (key x) (key y) = true ->
      merge key (x :: left) (y :: right) = x :: merge key left (y :: right)) /\
  ((length l <= 1)%nat -> merge_sort key l = l).
Proof.
  intros key l.
  exact (@merge_sort_stable_sort (Z * string) Z Z_Le Z_TotalPreorder key l).
Defined.

(** ** The built-in sort with a key: permutation, order, stability *)

Section ListSortFacts.
Context {A : Type}.
Variable key : A -> Z.

Lemma insert_by_Permutation (x : A) (l : list A) :
  Permutation (x :: l) (insert_by key x l).
Proof.
  induction l as [|y l IH]; simpl; [reflexivity|].
  destruct (key x <=? key y); [reflexivity|].
  rewrite <- IH. apply perm_swap.
Qed.

Lemma insert_by_ascending (x : A) (l : list A) :
  ascending key l -> ascending key (insert_by key x l).
Proof.
  induction l as [|y l IH]; simpl; intro Hl.
  - constructor; constructor.
  - destruct (ascending_cons_inv key _ _ Hl) as [Hyl Hl'].
    destruct (key x <=? key y) eqn:Hxy.
    + constructor; [exact Hl|]. constructor; [exact Hxy|].
      eapply Forall_key_le_trans; [exact Hxy | exact Hyl].
    + constructor; [apply IH; exact Hl'|].
      eapply Permutation_Forall; [apply insert_by_Permutation|].
      constructor; [|exact Hyl].
      unfold key_le, le_b, Z_Le. apply Z.leb_le.
      apply Z.leb_gt in Hxy. lia.
Qed.

Lemma insert_by_with_key (k : Z) (x : A) (l : list A) :
  with_key key k (insert_by key x l) = with_key key k (x :: l).
Proof.
  induction l as [|y l IH]; cbn [insert_by]; [reflexivity|].
  destruct (key x <=? key y) eqn:Hxy; [reflexivity|].
  rewrite (with_key_cons key k y), IH, !(with_key_cons key k x),
    (with_key_cons key k y).
  destruct (key_eqb key k x) eqn:Hx, (key_eqb key k y) eqn:Hy;
    try reflexivity.
  exfalso. unfold key_eqb, le_b, Z_Le in Hx, Hy.
  apply andb_prop in Hx, Hy. destruct Hx as [Hx1 Hx2], Hy as [Hy1 Hy2].
  apply Z.leb_le in Hx1, Hx2, Hy1, Hy2. apply Z.leb_gt in Hxy. lia.
Qed.

Lemma list_sort_spec (l : list A) :
  Permutation l (list_sort key l) /\
  ascending key (list_sort key l) /\
  stable_wrt key l (list_sort key l).
Proof.
  induction l as [|x l (Hp & Hs & Hst)]; cbn [list_sort].
  - split; [reflexivity|]. split; [constructor | intro k; reflexivity].
  - split; [|split].
    + rewrite <- insert_by_Permutation. constructor. exact Hp.
    + apply insert_by_ascending. exact Hs.
    + intro k. rewrite insert_by_with_key, !(with_key_cons key k x), Hst.
      reflexivity.
Qed.

End ListSortFacts.

(** ** The state-and-error monad *)

Lemma mbind_Ok {A B : Type} (c : M A) (k : A -> M B) (m : TaskManager)
  (b : B) (m'' : TaskManager) :
  mbind c k m = Ok (b, m'') ->
  exists a m', c m = Ok (a, m') /\ k a m' = Ok (b, m'').
Proof.
  unfold mbind. destruct (c m) as [[a m']|e]; [|discriminate].
  intro Hk. exists a, m'. split; [reflexivity | exact Hk].
Qed.

Lemma lift_Ok {A : Type} (r : result A) (m : TaskManager) (a : A)
  (m' : TaskManager) :
  lift r m = Ok (a, m') -> r = Ok a /\ m' = m.
Proof.
  unfold lift. destruct r as [a0|e]; [|discriminate].
  intro Heq. inversion Heq; subst. split; reflexivity.
Qed.

Lemma bind_Ok {A B : Type} (r : result A) (k : A -> result B) (b : B) :
  bind r k = Ok b -> exists a, r = Ok a /\ k a = Ok b.
Proof.
  destruct r as [a|e]; simpl; [|discriminate].
  intro Hk. exists a. split; [reflexivity | exact Hk].
Qed.

(** ** get_upcoming_tasks *)

Lemma with_key_map {A B : Type} (f : A -> B) (key : B -> Z) (k : Z)
  (l : list A) :
  with_key key k (map f l) = map f (with_key (fun a => key (f a)) k l).
Proof.
  induction l as [|a l IH]; [reflexivity|].
  cbn [map]. rewrite (with_key_cons key k (f a)),
    (with_key_cons (fun a => key (f a)) k a), IH.
  change (key_eqb (fun a0 => key (f a0)) k a) with (key_eqb key k (f a)).
  destruct (key_eqb key k (f a)); reflexivity.
Qed.

Lemma ascending_map {A B : Type} (f : A -> B) (key : B -> Z) (l : list A) :
  ascending (fun a => key (f a)) l -> ascending key (map f l).
Proof.
  induction 1 as [|a l Hl IH Ha]; simpl; constructor.
  - exact IH.
  - apply Forall_map. exact Ha.
Qed.

(** On a well-formed store the deadline in a tuple is its task's. *)
Lemma store_wf_deadline (l : list entry) :
  store_wf l ->
  Forall (fun e => entry_deadline e = deadline (entry_task e)) l.
Proof.
  apply Forall_impl. intros e He. rewrite He at 1. reflexivity.
Qed.

Lemma store_wf_priority (l : list entry) :
  store_wf l ->
  Forall (fun e => entry_priority e = priority (entry_task e)) l.
Proof.
  apply Forall_impl. intros e He. rewrite He at 1. reflexivity.
Qed.

Lemma ascending_ext {A : Type} (key key' : A -> Z) (l : list A) :
  Forall (fun a => key a = key' a) l ->
  ascending key l -> ascending key' l.
Proof.
  intros Hagree Hs. induction Hs as [|a l Hl IH Ha]; [constructor|].
  inversion Hagree as [|? ? Hka Hagree']; subst.
  constructor; [apply IH; exact Hagree'|].
  clear IH Hl. induction Ha as [|b l Hab Ha IH]; [constructor|].
  inversion Hagree' as [|? ? Hkb Hagree'']; subst.
  constructor.
  - unfold key_le in *. rewrite <- Hka, <- Hkb. exact Hab.
  - apply IH; [constructor|]; assumption.
Qed.

Lemma with_key_ext {A : Type} (key key' : A -> Z) (k : Z) (l : list A) :
  Forall (fun a => key a = key' a) l ->
  with_key key k l = with_key key' k l.
Proof.
  induction 1 as [|a l Ha Hl IH]; [reflexivity|].
  rewrite (with_key_cons key k a), (with_key_cons key' k a), IH.
  unfold key_eqb. rewrite Ha. reflexivity.
Qed.

(** C8. On a store whose tuples carry their tasks' keys,
    [get_upcoming_tasks] returns exactly the tasks of the store (a
    permutation of them), in ascending order of deadline, the tasks of one
    deadline in their store order; on the empty store it returns the empty
    list. *)
Theorem get_upcoming_tasks_by_deadline (m : TaskManager) :
  store_wf (tasks m) ->
  exists upcoming,
    get_upcoming_tasks m = Ok (upcoming, m) /\
    Permutation (map entry_task (tasks m)) upcoming /\
    ascending deadline upcoming /\
    stable_wrt deadline (map entry_task (tasks m)) upcoming /\
    (tasks m = [] -> upcoming = []).
Proof.
  intro Hwf.
  exists (map entry_task (merge_sort entry_deadline (tasks m))).
  destruct (merge_sort_spec entry_deadline (tasks m)) as (Hp & Hs & Hst).
  assert (Hagree : Forall (fun e => entry_deadline e = deadline (entry_task e))
                     (merge_sort entry_deadline (tasks m))).
  { eapply Permutation_Forall; [exact Hp|].
    apply store_wf_deadline. exact Hwf. }
  split; [reflexivity|]. split; [|split; [|split]].
  - apply Permutation_map. exact Hp.
  - apply ascending_map.
    apply (ascending_ext entry_deadline); assumption.
  - intro k. rewrite !with_key_map. f_equal.
    transitivity (with_key entry_deadline k
                    (merge_sort entry_deadline (tasks m))).
    + symmetry. apply with_key_ext. exact Hagree.
    + transitivity (with_key entry_deadline k (tasks m)); [apply Hst|].
      apply with_key_ext. apply store_wf_deadline. exact Hwf.
  - intro Hnil. rewrite Hnil. reflexivity.
Qed.

(** ** remind_tasks *)

Lemma remind_loop_spec (now : datetime) (l : list entry)
  (overdue_tasks pending_tasks : list Task) :
  remind_loop now overdue_tasks pending_tasks l =
  (overdue_tasks ++
     map entry_task (filter (fun e => entry_deadline e <? now) l),
   pending_tasks ++
     map entry_task (filter (fun e => negb (entry_deadline e <? now)) l)).
Proof.
  revert overdue_tasks pending_tasks.
  induction l as [|[[p d] t] l IH]; intros o q.
  - simpl. rewrite !app_nil_r. reflexivity.
  - cbn [remind_loop filter].
    change (entry_deadline (p, d, t)) with d.
    destruct (d <? now); cbn [negb map]; rewrite IH, <- app_assoc;
      reflexivity.
Qed.

Lemma filter_map_entry_task (f : Task -> bool) (g : entry -> bool)
  (l : list entry) :
  Forall (fun e => g e = f (entry_task e)) l ->
  map entry_task (filter g l) = filter f (map entry_task l).
Proof.
  induction 1 as [|e l He Hl IH]; [reflexivity|].
  cbn [filter map]. rewrite He, <- IH.
  destruct (f (entry_task e)); reflexivity.
Qed.

Lemma filter_partition_Permutation {A : Type} (f : A -> bool) (l : list A) :
  Permutation (filter f l ++ filter (fun a => negb (f a)) l) l.
Proof.
  induction l as [|a l IH]; [reflexivity|].
  cbn [filter]. destruct (f a); cbn [negb app].
  - constructor. exact IH.
  - rewrite <- Permutation_middle. constructor. exact IH.
Qed.

(** C7. On a store whose tuples carry their tasks' keys, [remind_tasks]
    splits the active tasks in two groups that together are exactly the
    active tasks: every task of the first group has its deadline strictly
    before now, every task of the second has not, so no task is in both.
    Each group holds the tasks of its kind taken in store order and then
    sorted by priority, ascending and stable.  The manager is left as it
    was. *)
Theorem remind_tasks_partition (now : datetime) (m : TaskManager) :
  store_wf (tasks m) ->
  exists overdue pending,
    remind_tasks now m = Ok ((overdue, pending), m) /\
    Permutation (overdue ++ pending) (map entry_task (tasks m)) /\
    Forall (fun t => deadline t < now) overdue /\
    Forall (fun t => now <= deadline t) pending /\
    (forall t, In t overdue -> ~ In t pending) /\
    Permutation (filter (is_overdue now) (map entry_task (tasks m))) overdue /\
    Permutation
      (filter (fun t => negb (is_overdue now t)) (map entry_task (tasks m)))
      pending /\
    ascending priority overdue /\
    ascending priority pending /\
    stable_wrt priority
      (filter (is_overdue now) (map entry_task (tasks m))) overdue /\
    stable_wrt priority
      (filter (fun t => negb (is_overdue now t)) (map entry_task (tasks m)))
      pending.
Proof.
  intro Hwf.
  set (all := map entry_task (tasks m)).
  set (o := filter (is_overdue now) all).
  set (q := filter (fun t => negb (is_overdue now t)) all).
  assert (Hrun : remind_tasks now m =
                 Ok ((list_sort priority o, list_sort priority q), m)).
  { unfold remind_tasks, mbind, get_tasks.
    rewrite remind_loop_spec. cbn [app ret].
    rewrite (filter_map_entry_task (is_overdue now)),
      (filter_map_entry_task (fun t => negb (is_overdue now t))).
    - reflexivity.
    - eapply Forall_impl; [|apply store_wf_deadline; exact Hwf].
      intros e He. cbv beta in He. unfold is_overdue. rewrite He. reflexivity.
    - eapply Forall_impl; [|apply store_wf_deadline; exact Hwf].
      intros e He. cbv beta in He. unfold is_overdue. rewrite He. reflexivity. }
  destruct (list_sort_spec priority o) as (Hpo & Hso & Hsto).
  destruct (list_sort_spec priority q) as (Hpq & Hsq & Hstq).
  assert (Ho : Forall (fun t => deadline t < now) (list_sort priority o)).
  { eapply Permutation_Forall; [exact Hpo|].
    apply Forall_forall. intros t Ht. apply filter_In in Ht.
    destruct Ht as [_ Ht]. apply Z.ltb_lt. exact Ht. }
  assert (Hq : Forall (fun t => now <= deadline t) (list_sort priority q)).
  { eapply Permutation_Forall; [exact Hpq|].
    apply Forall_forall. intros t Ht. apply filter_In in Ht.
    destruct Ht as [_ Ht]. apply negb_true_iff, Z.ltb_ge in Ht. exact Ht. }
  exists (list_sort priority o), (list_sort priority q).
  repeat split; try assumption.
  - rewrite <- Hpo, <- Hpq. apply filter_partition_Permutation.
  - intros t Hto Htq.
    rewrite Forall_forall in Ho, Hq.
    specialize (Ho t Hto). specialize (Hq t Htq). lia.
Qed.

(** ** mark_task_as_completed *)

Lemma find_named_Some (task_name : string) (l : list entry) (i j : nat)
  (t : Task) :
  find_named task_name i l = Some (j, t) ->
  exists l1 e l2,
    l = l1 ++ e :: l2 /\
    j = (i + length l1)%nat /\
    entry_task e = t /\
    name t = task_name /\
    Forall (fun e' => name (entry_task e') <> task_name) l1.
Proof.
  revert i. induction l as [|[[p d] t0] l IH]; intros i Hfind.
  - discriminate.
  - cbn [find_named] in Hfind.
    destruct (String.eqb (name t0) task_name) eqn:Hname.
    + inversion Hfind; subst. exists [], (p, d, t), l.
      apply String.eqb_eq in Hname.
      repeat split; [cbn; lia | exact Hname | constructor].
    + apply IH in Hfind.
      destruct Hfind as (l1 & e & l2 & Hl & Hj & He & Hn & Hall).
      exists ((p, d, t0) :: l1), e, l2. subst l.
      repeat split; try assumption; [cbn; lia|].
      constructor; [|exact Hall].
      apply String.eqb_neq in Hname. exact Hname.
Qed.

Lemma find_named_None (task_name : string) (l : list entry) (i : nat) :
  find_named task_name i l = None <->
  Forall (fun e => name (entry_task e) <> task_name) l.
Proof.
  revert i. induction l as [|[[p d] t0] l IH]; intro i.
  - split; [constructor | reflexivity].
  - cbn [find_named].
    destruct (String.eqb (name t0) task_name) eqn:Hname.
    + split; [discriminate|]. intro Hall. inversion Hall; subst.
      apply String.eqb_eq in Hname. contradiction.
    + rewrite IH. apply String.eqb_neq in Hname.
      split; [constructor; assumption|].
      intro Hall. inversion Hall; assumption.
Qed.

Lemma list_del_middle {A : Type} (l1 l2 : list A) (x : A) :
  list_del (l1 ++ x :: l2) (length l1) = l1 ++ l2.
Proof.
  induction l1 as [|y l1 IH]; [reflexivity|].
  cbn [app length list_del]. rewrite IH. reflexivity.
Qed.

Lemma count_occ_snoc (l : list Task) (t : Task) :
  count_occ Task_eq_dec (l ++ [t]) t = S (count_occ Task_eq_dec l t).
Proof.
  rewrite count_occ_app, (count_occ_cons_eq Task_eq_dec [] eq_refl).
  cbn [count_occ]. lia.
Qed.

(** C5. If some tuple of the store holds a task of the given name,
    [mark_task_as_completed] deletes the first such tuple, in store order,
    and nothing else, appends its task at the end of the completed tasks, so
    that this task occurs there once more than before, and reports
    completion.  If no tuple matches it reports "not found" and leaves the
    manager, store and completed tasks alike, as it was. *)
Theorem mark_task_as_completed_first_match (task_name : string)
  (m : TaskManager) :
  ((exists e, In e (tasks m) /\ name (entry_task e) = task_name) ->
   exists l1 e l2,
     tasks m = l1 ++ e :: l2 /\
     Forall (fun e' => name (entry_task e') <> task_name) l1 /\
     name (entry_task e) = task_name /\
     mark_task_as_completed task_name m =
       Ok (marked_as_completed,
           mkTaskManager (l1 ++ l2) (schedule m)
                         (completed_tasks m ++ [entry_task e])) /\
     count_occ Task_eq_dec (completed_tasks m ++ [entry_task e])
               (entry_task e) =
       S (count_occ Task_eq_dec (completed_tasks m) (entry_task e))) /\
  ((forall e, In e (tasks m) -> name (entry_task e) <> task_name) ->
   mark_task_as_completed task_name m = Ok (not_found, m)).
Proof.
  split.
  - intros (e0 & Hin & Hname0).
    destruct (find_named task_name 0 (tasks m)) as [[j t]|] eqn:Hfind.
    + destruct (find_named_Some _ _ _ _ _ Hfind)
        as (l1 & e & l2 & Hl & Hj & He & Hn & Hall).
      exists l1, e, l2. subst t j.
      repeat split; try assumption.
      * unfold mark_task_as_completed, mbind, get_tasks.
        rewrite Hfind. cbn. rewrite Hl, list_del_middle. reflexivity.
      * apply count_occ_snoc.
    + exfalso. apply find_named_None in Hfind.
      rewrite Forall_forall in Hfind. exact (Hfind e0 Hin Hname0).
  - intro Hnone.
    assert (Hfind : find_named task_name 0 (tasks m) = None)
      by (apply find_named_None, Forall_forall; exact Hnone).
    unfold mark_task_as_completed, mbind, get_tasks.
    rewrite Hfind. reflexivity.
Qed.

(** ** schedule_tasks *)

Lemma timedelta_minutes_Ok (d : Z) (us : timedelta) :
  timedelta_minutes d = Ok us -> us = d * US_PER_MINUTE.
Proof.
  unfold timedelta_minutes.
  destruct (_ && _); [|discriminate]. intro Heq. inversion Heq. reflexivity.
Qed.

Lemma datetime_add_Ok (t : datetime) (d : timedelta) (r : datetime) :
  datetime_add t d = Ok r -> r = t + d /\ valid_datetime r.
Proof.
  unfold datetime_add, valid_datetimeb, valid_datetime.
  destruct (_ && _) eqn:Hv; [|discriminate].
  intro Heq. inversion Heq; subst.
  apply andb_prop in Hv. destruct Hv as [H0 H1].
  apply Z.leb_le in H0, H1. split; [reflexivity | lia].
Qed.

Lemma insert_lt_Permutation (x : entry) (l r : list entry) :
  insert_lt x l = Ok r -> Permutation (x :: l) r.
Proof.
  revert r. induction l as [|y l IH]; intros r Hins.
  - inversion Hins. reflexivity.
  - cbn [insert_lt] in Hins.
    apply bind_Ok in Hins. destruct Hins as (b & _ & Hins).
    destruct b.
    + apply bind_Ok in Hins. destruct Hins as (r' & Hr' & Hins).
      inversion Hins; subst.
      rewrite perm_swap. constructor. apply IH. exact Hr'.
    + inversion Hins. reflexivity.
Qed.

Lemma sorted_Permutation (l s : list entry) :
  sorted l = Ok s -> Permutation l s.
Proof.
  revert s. induction l as [|x l IH]; intros s Hs.
  - inversion Hs. reflexivity.
  - cbn [sorted] in Hs. apply bind_Ok in Hs.
    destruct Hs as (s' & Hs' & Hins).
    rewrite <- (insert_lt_Permutation _ _ _ Hins).
    constructor. apply IH. exact Hs'.
Qed.

(** The loop only ever appends to the list it was started with. *)
Lemma schedule_loop_acc (l : list entry) (current_time : datetime)
  (acc : list Task) :
  schedule_loop current_time acc l =
  (r <- schedule_loop current_time [] l ;; Ok (acc ++ r)).
Proof.
  revert current_time acc.
  induction l as [|[[p d] t] l IH]; intros ct acc.
  - cbn. rewrite app_nil_r. reflexivity.
  - cbn [schedule_loop].
    destruct (timedelta_minutes (duration t)) as [us|e]; [|reflexivity].
    cbn [bind].
    destruct (datetime_add ct us) as [finish|e]; [|reflexivity].
    cbn [bind].
    destruct (finish <=? d); [|apply IH].
    rewrite (IH finish (acc ++ [t])), (IH finish ([] ++ [t])).
    destruct (schedule_loop finish [] l) as [r|e]; [|reflexivity].
    cbn [bind app]. rewrite <- app_assoc. reflexivity.
Qed.

Lemma schedule_loop_feasible (l : list entry) (current_time : datetime)
  (r : list Task) :
  Forall (fun e => entry_deadline e = deadline (entry_task e)) l ->
  schedule_loop current_time [] l = Ok r ->
  feasible current_time r.
Proof.
  intro Hwf. revert current_time r.
  induction Hwf as [|[[p d] t] l Hd Hwf IH]; intros ct r Hrun.
  - inversion Hrun. exact I.
  - cbn [schedule_loop] in Hrun.
    change (entry_deadline (p, d, t)) with d in Hd.
    change (entry_task (p, d, t)) with t in Hd.
    destruct (timedelta_minutes (duration t)) as [us|e] eqn:Hus;
      [|discriminate].
    cbn [bind] in Hrun.
    destruct (datetime_add ct us) as [finish|e] eqn:Hfin; [|discriminate].
    cbn [bind] in Hrun.
    destruct (finish <=? d) eqn:Hfit; [|apply IH; exact Hrun].
    rewrite schedule_loop_acc in Hrun.
    apply bind_Ok in Hrun. destruct Hrun as (r' & Hr' & Hrun).
    inversion Hrun; subst r. cbn [app feasible].
    apply timedelta_minutes_Ok in Hus.
    apply datetime_add_Ok in Hfin. destruct Hfin as [Hfinish _].
    apply Z.leb_le in Hfit. subst us. rewrite <- Hfinish.
    split; [lia|]. apply IH. exact Hr'.
Qed.

Lemma feasible_nth (sched : list Task) (clock : datetime) (k : nat)
  (t : Task) :
  feasible clock sched ->
  nth_error sched k = Some t ->
  finish_time clock sched k <= deadline t.
Proof.
  unfold finish_time.
  revert clock k. induction sched as [|t0 sched IH]; intros clock k Hf Hk.
  - destruct k; discriminate.
  - destruct Hf as [Hfit Hrest]. destruct k as [|k].
    + inversion Hk; subst. cbn. lia.
    + cbn [nth_error] in Hk. specialize (IH _ _ Hrest Hk).
      cbn [firstn total_minutes fold_right] in *.
      unfold total_minutes in IH. lia.
Qed.

(** What a run of [schedule_tasks] that returns has done. *)
Lemma schedule_tasks_Ok (now : datetime) (m m' : TaskManager)
  (sched : list Task) :
  schedule_tasks now m = Ok (sched, m') ->
  exists s,
    sorted (tasks m) = Ok s /\
    schedule_loop now [] s = Ok sched /\
    m' = mkTaskManager (tasks m) sched (completed_tasks m).
Proof.
  unfold schedule_tasks, mbind, get_tasks, put_schedule, ret, lift.
  destruct (sorted (tasks m)) as [s|e] eqn:Hs; [|discriminate].
  destruct (schedule_loop now [] s) as [r|e] eqn:Hloop; [|discriminate].
  intro Heq. inversion Heq; subst. exists s.
  split; [reflexivity|]. split; [exact Hloop | reflexivity].
Qed.

(** C1. Whenever [schedule_tasks] returns a schedule for a store whose
    tuples carry their tasks' keys, every task of the schedule meets its
    deadline: the current time plus the durations of the scheduled tasks up
    to and including it is not after its deadline. *)
Theorem schedule_tasks_feasible (now : datetime) (m m' : TaskManager)
  (sched : list Task) :
  store_wf (tasks m) ->
  schedule_tasks now m = Ok (sched, m') ->
  forall (k : nat) (task : Task),
    nth_error sched k = Some task ->
    now + total_minutes (firstn (S k) sched) * US_PER_MINUTE <= deadline task.
Proof.
  intros Hwf Hrun k task Hk.
  destruct (schedule_tasks_Ok _ _ _ _ Hrun) as (s & Hs & Hloop & _).
  apply (feasible_nth sched now k task); [|exact Hk].
  apply (schedule_loop_feasible s); [|exact Hloop].
  eapply Permutation_Forall; [apply sorted_Permutation; exact Hs|].
  apply store_wf_deadline. exact Hwf.
Qed.

(** C4. A run of [schedule_tasks] that returns leaves the store as it was,
    the same tuples in the same order (and the completed tasks too); only
    [self.schedule] is replaced by the returned list.  Run again at the same
    current time on the manager it left, it returns the same list. *)
Theorem schedule_tasks_frame (now : datetime) (m m' : TaskManager)
  (sched : list Task) :
  schedule_tasks now m = Ok (sched, m') ->
  tasks m' = tasks m /\
  completed_tasks m' = completed_tasks m /\
  schedule m' = sched /\
  schedule_tasks now m' = Ok (sched, m').
Proof.
  intro Hrun.
  destruct (schedule_tasks_Ok _ _ _ _ Hrun) as (s & Hs & Hloop & Hm').
  subst m'. repeat split.
  unfold schedule_tasks, mbind, get_tasks, put_schedule, ret, lift.
  cbn [tasks]. rewrite Hs, Hloop. reflexivity.
Qed.

(** ** The seed store and the scenarios *)

Lemma seeded_by_add_task :
  (_ <~ add_task calculus_assignment ;;
   _ <~ add_task project_report ;;
   add_task self_care) init = Ok (tt, seeded).
Proof. reflexivity. Qed.

Lemma store_wf_seeded : store_wf (tasks seeded).
Proof. repeat constructor. Qed.

Lemma schedule_tasks_seeded :
  schedule_tasks example_now seeded =
  Ok ([calculus_assignment; project_report; self_care],
      mkTaskManager (tasks seeded)
        [calculus_assignment; project_report; self_care] []).
Proof. vm_compute. reflexivity. Qed.

Lemma schedule_tasks_feasible_witness :
  example_now +
    total_minutes
      (firstn 2 [calculus_assignment; project_report; self_care]) *
    US_PER_MINUTE
  <= deadline project_report.
Proof.
  exact (schedule_tasks_feasible example_now seeded _ _
           store_wf_seeded schedule_tasks_seeded 1%nat project_report
           eq_refl).
Defined.

Lemma schedule_tasks_frame_witness :
  let sched := [calculus_assignment; project_report; self_care] in
  let m' := mkTaskManager (tasks seeded) sched [] in
  tasks m' = tasks seeded /\
  completed_tasks m' = completed_tasks seeded /\
  schedule m' = sched /\
  schedule_tasks example_now m' = Ok (sched, m').
Proof.
  exact (schedule_tasks_frame example_now seeded _ _ schedule_tasks_seeded).
Defined.

Lemma get_upcoming_tasks_by_deadline_witness :
  exists upcoming,
    get_upcoming_tasks seeded = Ok (upcoming, seeded) /\
    Permutation (map entry_task (tasks seeded)) upcoming /\
    ascending deadline upcoming /\
    stable_wrt deadline (map entry_task (tasks seeded)) upcoming /\
    (tasks seeded = [] -> upcoming = []).
Proof.
  exact (get_upcoming_tasks_by_deadline seeded store_wf_seeded).
Defined.

Lemma remind_tasks_partition_witness :
  let now := example_now + 6 * US_PER_HOUR in
  exists overdue pending,
    remind_tasks now seeded = Ok ((overdue, pending), seeded) /\
    Permutation (overdue ++ pending) (map entry_task (tasks seeded)) /\
    Forall (fun t => deadline t < now) overdue /\
    Forall (fun t => now <= deadline t) pending /\
    (forall t, In t overdue -> ~ In t pending) /\
    Permutation
      (filter (is_overdue now) (map entry_task (tasks seeded))) overdue /\
    Permutation
      (filter (fun t => negb (is_overdue now t))
              (map entry_task (tasks seeded)))
      pending /\
    ascending priority overdue /\
    ascending priority pending /\
    stable_wrt priority
      (filter (is_overdue now) (map entry_task (tasks seeded))) overdue /\
    stable_wrt priority
      (filter (fun t => negb (is_overdue now t))
              (map entry_task (tasks seeded)))
      pending.
Proof.
  exact (remind_tasks_partition (example_now + 6 * US_PER_HOUR) seeded
           store_wf_seeded).
Defined.

Lemma mark_task_as_completed_first_match_witness :
  exists l1 e l2,
    tasks seeded = l1 ++ e :: l2 /\
    Forall (fun e' => name (entry_task e') <> "Self-Care"%string) l1 /\
    name (entry_task e) = "Self-Care"%string /\
    mark_task_as_completed "Self-Care" seeded =
      Ok (marked_as_completed,
          mkTaskManager (l1 ++ l2) (schedule seeded)
                        (completed_tasks seeded ++ [entry_task e])) /\
    count_occ Task_eq_dec (completed_tasks seeded ++ [entry_task e])
              (entry_task e) =
      S (count_occ Task_eq_dec (completed_tasks seeded) (entry_task e)).
Proof.
  apply (proj1 (mark_task_as_completed_first_match "Self-Care" seeded)).
  exists (entry_of self_care). split; [|reflexivity].
  right. right. left. reflexivity.
Defined.

(** ** sorted on the tuples *)

Lemma tuple_lt_true (a b : entry) :
  tuple_lt a b = Ok true -> entry_le a b.
Proof.
  unfold tuple_lt, entry_le.
  destruct (entry_priority a =? entry_priority b) eqn:Hp; cbn [negb].
  - apply Z.eqb_eq in Hp.
    destruct (entry_deadline a =? entry_deadline b) eqn:Hd; cbn [negb].
    + destruct (Task_eq_dec _ _); discriminate.
    + intro Hlt. inversion Hlt as [Hlt']. apply Z.ltb_lt in Hlt'.
      right. split; [exact Hp | lia].
  - intro Hlt. inversion Hlt as [Hlt']. apply Z.ltb_lt in Hlt'.
    left. exact Hlt'.
Qed.

Lemma tuple_lt_false (a b : entry) :
  tuple_lt a b = Ok false -> entry_le b a.
Proof.
  unfold tuple_lt, entry_le.
  destruct (entry_priority a =? entry_priority b) eqn:Hp; cbn [negb].
  - apply Z.eqb_eq in Hp.
    destruct (entry_deadline a =? entry_deadline b) eqn:Hd; cbn [negb].
    + apply Z.eqb_eq in Hd. intros _. right. split; [symmetry; exact Hp | lia].
    + intro Hlt. inversion Hlt as [Hlt']. apply Z.ltb_ge in Hlt'.
      right. split; [symmetry; exact Hp | exact Hlt'].
  - apply Z.eqb_neq in Hp.
    intro Hlt. inversion Hlt as [Hlt']. apply Z.ltb_ge in Hlt'.
    left. lia.
Qed.

(** A comparison raises exactly on two different tasks under one key. *)
Lemma tuple_lt_returns (a b : entry) :
  returns (tuple_lt a b) <-> comparable a b.
Proof.
  unfold returns, tuple_lt, comparable.
  destruct (entry_priority a =? entry_priority b) eqn:Hp; cbn [negb].
  - destruct (entry_deadline a =? entry_deadline b) eqn:Hd; cbn [negb].
    + apply Z.eqb_eq in Hp, Hd.
      destruct (Task_eq_dec (entry_task a) (entry_task b)) as [Heq|Hne].
      * split; [intros _ _ _; exact Heq | intros _; eexists; reflexivity].
      * split; [intros [v Hv]; discriminate|].
        intro Hc. exfalso. exact (Hne (Hc Hp Hd)).
    + apply Z.eqb_neq in Hd.
      split; [intros _ _ Hd'; contradiction | intros _; eexists; reflexivity].
  - apply Z.eqb_neq in Hp.
    split; [intros _ Hp'; contradiction | intros _; eexists; reflexivity].
Qed.

Lemma entry_le_trans (a b c : entry) :
  entry_le a b -> entry_le b c -> entry_le a c.
Proof. unfold entry_le. lia. Qed.

Lemma insert_lt_sorted (x : entry) (l r : list entry) :
  StronglySorted entry_le l ->
  insert_lt x l = Ok r ->
  StronglySorted entry_le r.
Proof.
  revert r. induction l as [|y l IH]; intros r Hl Hins.
  - inversion Hins. constructor; constructor.
  - cbn [insert_lt] in Hins. inversion Hl as [|? ? Hl' Hyl]; subst.
    destruct (tuple_lt y x) as [[|]|e] eqn:Hyx; cbn [bind] in Hins;
      [| |discriminate].
    + apply bind_Ok in Hins. destruct Hins as (r' & Hr' & Hins).
      inversion Hins; subst r.
      constructor; [apply IH; assumption|].
      eapply Permutation_Forall; [apply insert_lt_Permutation; exact Hr'|].
      constructor; [apply tuple_lt_true; exact Hyx | exact Hyl].
    + inversion Hins; subst r. apply tuple_lt_false in Hyx.
      constructor; [exact Hl|]. constructor; [exact Hyx|].
      eapply Forall_impl; [|exact Hyl].
      intros z Hz. eapply entry_le_trans; eassumption.
Qed.

(** A sort that returns has put the tuples in ascending
    [(priority, deadline)] order. *)
Lemma sorted_sorted (l s : list entry) :
  sorted l = Ok s -> StronglySorted entry_le s.
Proof.
  revert s. induction l as [|x l IH]; intros s Hs.
  - inversion Hs. constructor.
  - cbn [sorted] in Hs. apply bind_Ok in Hs.
    destruct Hs as (s' & Hs' & Hins).
    eapply insert_lt_sorted; [apply IH; exact Hs' | exact Hins].
Qed.

Lemma insert_lt_returns (x : entry) (l : list entry) :
  Forall (fun y => comparable y x) l -> returns (insert_lt x l).
Proof.
  induction 1 as [|y l Hy Hl IH]; cbn [insert_lt].
  - eexists; reflexivity.
  - apply tuple_lt_returns in Hy. destruct Hy as [b Hb]. rewrite Hb.
    cbn [bind]. destruct b; [|eexists; reflexivity].
    destruct IH as [r Hr]. rewrite Hr. eexists; reflexivity.
Qed.

(** The sort returns on every store without two different tasks under one
    [(priority, deadline)] key. *)
Lemma sorted_returns (l : list entry) :
  ForallOrdPairs comparable l -> returns (sorted l).
Proof.
  induction 1 as [|x l Hx Hl IH]; cbn [sorted].
  - eexists; reflexivity.
  - destruct IH as [s Hs]. rewrite Hs. cbn [bind].
    apply insert_lt_returns.
    eapply Permutation_Forall; [apply sorted_Permutation; exact Hs|].
    eapply Forall_impl; [|exact Hx].
    intros y Hxy Hp Hd. symmetry. apply Hxy; symmetry; assumption.
Qed.

(** The scheduling scenario: at every current time [T] for which the two
    deadlines are datetimes, the schedule of A and B is A alone. *)
Lemma schedule_tasks_scenario (T : datetime) :
  valid_datetime T ->
  valid_datetime (T + 60 * US_PER_MINUTE) ->
  schedule_tasks T (scenario T) =
  Ok ([task_A T], mkTaskManager (tasks (scenario T)) [task_A T] []).
Proof.
  unfold valid_datetime, DATETIME_MAX, US_PER_MINUTE. intros HT HT60.
  assert (Hv30 : valid_datetimeb (T + 1800000000) = true).
  { unfold valid_datetimeb, DATETIME_MAX.
    apply andb_true_intro. split; apply Z.leb_le; lia. }
  assert (Hv60 : valid_datetimeb (T + 1800000000 + 1800000000) = true).
  { unfold valid_datetimeb, DATETIME_MAX.
    apply andb_true_intro. split; apply Z.leb_le; lia. }
  assert (Hfit : (T + 1800000000 <=? T + 60 * 60000000) = true)
    by (apply Z.leb_le; lia).
  assert (Hlate : (T + 1800000000 + 1800000000 <=? T + 45 * 60000000) = false)
    by (apply Z.leb_gt; lia).
  unfold schedule_tasks, mbind, get_tasks, lift, put_schedule, ret.
  cbn [tasks scenario sorted insert_lt bind].
  change (tuple_lt (entry_of (task_B T)) (entry_of (task_A T)))
    with (@Ok bool false).
  cbn [bind schedule_loop entry_of task_A task_B duration deadline priority].
  change (timedelta_minutes 30) with (@Ok timedelta 1800000000).
  cbn [bind]. unfold datetime_add, US_PER_MINUTE.
  rewrite Hv30. cbn [bind]. rewrite Hfit. cbn [bind app].
  rewrite Hv60. cbn [bind]. rewrite Hlate. reflexivity.
Qed.

(** C2. The schedule is not computed when two different tasks share one
    (priority, deadline) key: on the store that [add_task] builds from A,
    B and a task C with the priority and the deadline of B, the call raises
    TypeError where the specification has B examined before C. *)
Theorem schedule_tasks_tie_raises :
  (_ <~ add_task (task_A example_now) ;;
   _ <~ add_task (task_B example_now) ;;
   add_task (task_C example_now)) init = Ok (tt, tied_store example_now) /\
  schedule_tasks example_now (tied_store example_now) = Err TypeError.
Proof. split; reflexivity. Qed.

(** C3. [add_task] raises TypeError when the new task meets, on its way up
    the heap, another task with its priority and deadline: adding C right
    after B to the empty store does not complete. *)
Theorem add_task_tie_raises :
  (_ <~ add_task (task_B example_now) ;; add_task (task_C example_now)) init
  = Err TypeError.
Proof. reflexivity. Qed.

(** ** The hours of a span *)

Lemma round_half_even_bounds (a b : Z) :
  0 < b ->
  2 * a - b <= 2 * b * round_half_even a b <= 2 * a + b.
Proof.
  intro Hb. unfold round_half_even.
  pose proof (Z.div_mod a b ltac:(lia)) as Hdm.
  pose proof (Z.mod_pos_bound a b Hb) as Hr.
  set (q := a / b) in *. set (r := a mod b) in *.
  destruct (2 * r <? b) eqn:H1; [apply Z.ltb_lt in H1; nia|].
  apply Z.ltb_ge in H1.
  destruct (b <? 2 * r) eqn:H2; [apply Z.ltb_lt in H2; nia|].
  apply Z.ltb_ge in H2.
  destruct (Z.even q); nia.
Qed.

(** Below 2^32 seconds the exponent of [total_seconds] is at most -21: the
    spacing of the doubles there is under half a microsecond. *)
Lemma total_seconds_exponent (a : Z) :
  0 < a < 2 ^ 32 * 1000000 ->
  exists s,
    21 <= s /\
    total_seconds a = (round_half_even (a * 2 ^ s) 1000000, - s).
Proof.
  intros [Hpos Hlt]. unfold total_seconds, int_true_divide.
  destruct (a =? 0) eqn:Ha; [apply Z.eqb_eq in Ha; lia|].
  change (Z.log2 1000000) with 19.
  assert (Hlog : Z.log2 a < 52).
  { apply Z.log2_lt_pow2; [exact Hpos|].
    change (2 ^ 32 * 1000000) with 4294967296000000 in Hlt.
    change (2 ^ 52) with 4503599627370496. lia. }
  set (e0 := Z.log2 a - 19 - 52).
  assert (He0 : e0 <= -20) by (unfold e0; lia).
  assert (Hneg0 : (0 <=? e0) = false) by (apply Z.leb_gt; lia).
  rewrite Hneg0.
  destruct (1000000 * 2 ^ 52 <=? a * 2 ^ (- e0)) eqn:Hreach.
  - (* the exponent is e0, which then is below -20 *)
    rewrite Hneg0. exists (- e0). rewrite Z.opp_involutive.
    split; [|reflexivity].
    apply Z.leb_le in Hreach.
    destruct (Z.eq_dec e0 (-20)) as [He|He]; [|lia].
    exfalso. rewrite He in Hreach.
    change (- -20) with 20 in Hreach.
    change (2 ^ 20) with 1048576 in Hreach.
    change (1000000 * 2 ^ 52) with 4503599627370496000000 in Hreach.
    change (2 ^ 32 * 1000000) with 4294967296000000 in Hlt. lia.
  - assert (Hneg : (0 <=? e0 - 1) = false) by (apply Z.leb_gt; lia).
    rewrite Hneg. exists (- (e0 - 1)). rewrite Z.opp_involutive.
    split; [lia | reflexivity].
Qed.

(** For spans below 2^32 seconds (136 years) the float computation of the
    hours is the exact one. *)
Lemma span_hours_exact (first final : datetime) :
  0 <= final - first < 2 ^ 32 * 1000000 ->
  span_hours first final = (final - first) / US_PER_HOUR.
Proof.
  intros [Hnn Hlt]. unfold span_hours.
  set (a := final - first) in *.
  destruct (Z.eq_dec a 0) as [Ha0|Ha0]; [rewrite Ha0; reflexivity|].
  destruct (total_seconds_exponent a ltac:(lia)) as (s & Hs & Hts).
  rewrite Hts. unfold float_floordiv_int.
  assert (Hneg : (0 <=? - s) = false) by (apply Z.leb_gt; lia).
  rewrite Hneg, Z.opp_involutive.
  set (N := 2 ^ s).
  assert (HN : 2097152 <= N).
  { change 2097152 with (2 ^ 21). apply Z.pow_le_mono_r; lia. }
  pose proof (round_half_even_bounds (a * N) 1000000 ltac:(lia)) as Hm.
  set (m := round_half_even (a * N) 1000000) in *.
  unfold US_PER_HOUR.
  pose proof (Z.div_mod a 3600000000 ltac:(lia)) as Hdm.
  pose proof (Z.mod_pos_bound a 3600000000 ltac:(lia)) as Hr.
  set (k := a / 3600000000) in *. set (r := a mod 3600000000) in *.
  symmetry. apply Z.div_unique with (r := m - 3600 * N * k).
  - left.
    assert (HaN : a * N = 3600000000 * (k * N) + r * N) by (rewrite Hdm; ring).
    assert (HrN0 : 0 <= r * N) by nia.
    assert (HrN1 : r * N <= 3599999999 * N) by nia.
    nia.
  - ring.
Qed.

(** ** analyze_task_density *)

Lemma mapM_Ok {A B : Type} (f : A -> result B) (g : A -> B) (l : list A) :
  Forall (fun x => f x = Ok (g x)) l -> mapM f l = Ok (map g l).
Proof.
  induction 1 as [|x l Hx Hl IH]; [reflexivity|].
  cbn [mapM map]. rewrite Hx, IH. reflexivity.
Qed.

(** A comprehension stops at the first element that raises. *)
Lemma mapM_Err {A B : Type} (f : A -> result B) (l1 l2 : list A) (x : A)
  (e : exn) :
  Forall (fun y => returns (f y)) l1 ->
  f x = Err e ->
  mapM f (l1 ++ x :: l2) = Err e.
Proof.
  intros Hl1 Hx. induction Hl1 as [|y l1 [v Hy] Hl1 IH]; cbn [app mapM].
  - rewrite Hx. reflexivity.
  - rewrite Hy, IH. reflexivity.
Qed.

Lemma range_In (n i : Z) : In i (range n) <-> 0 <= i < n.
Proof.
  unfold range. rewrite in_map_iff. split.
  - intros (k & Hk & Hin). apply in_seq in Hin. lia.
  - intros Hi. exists (Z.to_nat i). split; [lia|].
    apply in_seq. lia.
Qed.

Lemma range_succ (n : Z) : 0 <= n -> range (n + 1) = range n ++ [n].
Proof.
  intro Hn. unfold range.
  replace (Z.to_nat (n + 1)) with (S (Z.to_nat n)) by lia.
  rewrite seq_S, map_app. cbn [map Nat.add]. rewrite Z2Nat.id by exact Hn.
  reflexivity.
Qed.

Lemma bucket_Ok (first : datetime) (i : Z) :
  0 <= i ->
  valid_datetime first ->
  first + i * US_PER_HOUR <= DATETIME_MAX ->
  bucket first i = Ok (first + i * US_PER_HOUR).
Proof.
  unfold valid_datetime, bucket, timedelta_hours, datetime_add,
    valid_datetimeb, DATETIME_MAX, US_PER_HOUR, US_PER_DAY, TIMEDELTA_MAX_DAYS.
  intros Hi Hfirst Hmax.
  assert (Hdays : 0 <= i * 3600000000 / 86400000000 <= 999999999).
  { split; [apply Z.div_pos; lia|].
    apply Z.div_le_upper_bound; lia. }
  destruct Hdays as [Hd0 Hd1].
  replace (- (999999999) <=? i * 3600000000 / 86400000000) with true
    by (symmetry; apply Z.leb_le; lia).
  replace (i * 3600000000 / 86400000000 <=? 999999999) with true
    by (symmetry; apply Z.leb_le; exact Hd1).
  cbn [andb bind].
  replace (0 <=? first + i * 3600000000) with true
    by (symmetry; apply Z.leb_le; lia).
  replace (first + i * 3600000000 <=? 315537897599999999) with true
    by (symmetry; apply Z.leb_le; exact Hmax).
  reflexivity.
Qed.

(** The sum over the generator is the number of deadlines that are due. *)
Lemma count_due_length (deadlines : list datetime) (time : datetime) :
  count_due deadlines time =
  Z.of_nat (length (filter (fun d => d <=? time) deadlines)).
Proof.
  unfold count_due. induction deadlines as [|d l IH]; [reflexivity|].
  cbn [fold_right filter]. rewrite IH.
  destruct (d <=? time); cbn [length]; lia.
Qed.

Lemma filter_length_Permutation {A : Type} (f : A -> bool) (l l' : list A) :
  Permutation l l' -> length (filter f l) = length (filter f l').
Proof.
  induction 1 as [|x l l' Hp IH|x y l|l l' l'' H1 IH1 H2 IH2];
    cbn [filter]; try reflexivity.
  - destruct (f x); cbn [length]; rewrite IH; reflexivity.
  - destruct (f x), (f y); reflexivity.
  - rewrite IH1. exact IH2.
Qed.

Lemma ascending_hd_least (x : datetime) (l : list datetime) :
  ascending (fun d => d) (x :: l) -> Forall (fun d => x <= d) (x :: l).
Proof.
  intro Hs. apply ascending_cons_inv in Hs. destruct Hs as [Hx _].
  constructor; [lia|].
  eapply Forall_impl; [|exact Hx].
  intros d Hd. apply Z.leb_le. exact Hd.
Qed.

Lemma ascending_last_greatest (l : list datetime) :
  ascending (fun d => d) l -> Forall (fun d => d <= last l 0) l.
Proof.
  induction l as [|x l IH]; intro Hs; [constructor|].
  apply ascending_cons_inv in Hs. destruct Hs as [Hx Hl].
  specialize (IH Hl). destruct l as [|y l]; [repeat constructor; cbn; lia|].
  change (last (x :: y :: l) 0) with (last (y :: l) 0).
  constructor; [|exact IH].
  inversion Hx as [|? ? Hxy _]; subst. inversion IH as [|? ? Hy _]; subst.
  apply Z.leb_le in Hxy. lia.
Qed.

Lemma last_In {A : Type} (x : A) (l : list A) (d : A) :
  In (last (x :: l) d) (x :: l).
Proof.
  revert x. induction l as [|y l IH]; intro x; [left; reflexivity|].
  right. apply IH.
Qed.

(** The hourly buckets and their counts, on deadlines less than 2^32
    seconds apart: the buckets start at the earliest deadline, one per whole
    hour up to the latest, and each count is the number of deadlines at or
    before the bucket. *)
Lemma density_spec (deadlines : list datetime) :
  deadlines <> [] ->
  Forall valid_datetime deadlines ->
  (forall a b, In a deadlines -> In b deadlines -> b - a < 2 ^ 32 * 1000000) ->
  exists first final,
    In first deadlines /\ In final deadlines /\
    Forall (fun d => first <= d <= final) deadlines /\
    let times :=
      map (fun i => first + i * US_PER_HOUR)
          (range ((final - first) / US_PER_HOUR + 1)) in
    density deadlines =
    Ok (Some (times,
              map (fun time =>
                     Z.of_nat (length (filter (fun d => d <=? time) deadlines)))
                  times)).
Proof.
  intros Hne Hvalid Hspan.
  destruct (list_sort_spec (fun d => d) deadlines) as (Hp & Hs & _).
  destruct deadlines as [|d0 ds]; [contradiction|].
  unfold density.
  set (sd := list_sort (fun d => d) (d0 :: ds)) in *.
  destruct sd as [|first sd'] eqn:Hsd.
  { apply Permutation_sym, Permutation_nil in Hp. discriminate. }
  set (final := last (first :: sd') 0).
  assert (Hfirst : In first (d0 :: ds)).
  { eapply Permutation_in; [symmetry; exact Hp | left; reflexivity]. }
  assert (Hfinal : In final (d0 :: ds)).
  { eapply Permutation_in; [symmetry; exact Hp | apply last_In]. }
  assert (Hbounds : Forall (fun d => first <= d <= final) (d0 :: ds)).
  { eapply Permutation_Forall; [symmetry; exact Hp|].
    pose proof (ascending_hd_least _ _ Hs) as Hlo.
    pose proof (ascending_last_greatest _ Hs) as Hhi.
    rewrite Forall_forall in Hlo, Hhi. apply Forall_forall.
    intros d Hd. split; [apply Hlo | apply Hhi]; exact Hd. }
  exists first, final. repeat split; try assumption.
  cbv zeta. cbn [hd]. fold final.
  rewrite Forall_forall in Hvalid, Hbounds.
  pose proof (Hvalid _ Hfirst) as Hvfirst.
  pose proof (Hvalid _ Hfinal) as Hvfinal.
  pose proof (Hbounds _ Hfinal) as [Hle _].
  rewrite span_hours_exact
    by (split; [lia | apply Hspan; assumption]).
  unfold density_times_of.
  rewrite (mapM_Ok (bucket first) (fun i => first + i * US_PER_HOUR)).
  - cbn [bind]. do 3 f_equal. apply map_ext. intro time.
    rewrite count_due_length. f_equal.
    apply filter_length_Permutation. symmetry. exact Hp.
  - apply Forall_forall. intros i Hi. apply range_In in Hi.
    unfold valid_datetime in *.
    assert (Hi' : i <= (final - first) / US_PER_HOUR) by lia.
    assert (i * US_PER_HOUR <= final - first).
    { unfold US_PER_HOUR in *.
      pose proof (Z.mul_div_le (final - first) 3600000000 ltac:(lia)). nia. }
    apply bucket_Ok; unfold valid_datetime; lia.
Qed.

Lemma far_apart_by_add_task :
  (_ <~ add_task task_early ;; add_task task_last) init = Ok (tt, far_apart).
Proof. reflexivity. Qed.

(** One bucket too many: when the float hour count [k] puts the last
    bucket after [datetime.max], the comprehension raises. *)
Lemma density_overflow (d0 d1 : datetime) (k : Z) :
  valid_datetime d0 ->
  d0 <= d1 ->
  span_hours d0 d1 = k ->
  0 <= k ->
  d0 + (k - 1) * US_PER_HOUR <= DATETIME_MAX ->
  DATETIME_MAX < d0 + k * US_PER_HOUR ->
  k * US_PER_HOUR / US_PER_DAY <= TIMEDELTA_MAX_DAYS ->
  density [d0; d1] = Err OverflowError.
Proof.
  intros Hv Hle Hk Hk0 Hprev Hlast Hdays.
  unfold density. cbv beta iota zeta.
  cbn [list_sort insert_by].
  replace (d0 <=? d1) with true by (symmetry; apply Z.leb_le; exact Hle).
  cbn [hd last]. rewrite Hk. unfold density_times_of.
  rewrite range_succ by exact Hk0.
  rewrite (mapM_Err (bucket d0) (range k) [] k OverflowError).
  - reflexivity.
  - apply Forall_forall. intros i Hi. apply range_In in Hi.
    exists (d0 + i * US_PER_HOUR).
    apply bucket_Ok; [lia | exact Hv |].
    unfold US_PER_HOUR in *. lia.
  - unfold bucket, timedelta_hours, datetime_add, valid_datetimeb.
    assert (Hd0 : 0 <= k * US_PER_HOUR / US_PER_DAY).
    { apply Z.div_pos; unfold US_PER_HOUR, US_PER_DAY; lia. }
    replace (- TIMEDELTA_MAX_DAYS <=? k * US_PER_HOUR / US_PER_DAY) with true
      by (symmetry; apply Z.leb_le; unfold TIMEDELTA_MAX_DAYS; lia).
    replace (k * US_PER_HOUR / US_PER_DAY <=? TIMEDELTA_MAX_DAYS) with true
      by (symmetry; apply Z.leb_le; exact Hdays).
    cbn [andb bind].
    replace (d0 + k * US_PER_HOUR <=? DATETIME_MAX) with false
      by (symmetry; apply Z.leb_gt; exact Hlast).
    rewrite andb_false_r. reflexivity.
Qed.

(** C9. The analysis of a non-empty store can raise instead of producing
    the buckets: with two deadlines 5000000 hours less one microsecond
    apart, the later one [datetime.max], [total_seconds()] rounds the span
    up to 18000000000.0 seconds, the hour count comes out as 5000000
    instead of 4999999, and the last bucket, one microsecond after the
    latest deadline, is past [datetime.max]: OverflowError. *)
Theorem analyze_task_density_overflows :
  span_hours (deadline task_early) (deadline task_last) = 5000000 /\
  (deadline task_last - deadline task_early) / US_PER_HOUR = 4999999 /\
  analyze_task_density far_apart = Err OverflowError.
Proof.
  assert (Hk : span_hours (deadline task_early) (deadline task_last) = 5000000)
    by (vm_compute; reflexivity).
  split; [exact Hk|]. split; [vm_compute; reflexivity|].
  assert (Hd : density [deadline task_early; deadline task_last]
               = Err OverflowError).
  { apply (density_overflow _ _ 5000000).
    - vm_compute. split; discriminate.
    - vm_compute. discriminate.
    - exact Hk.
    - vm_compute. discriminate.
    - vm_compute. discriminate.
    - vm_compute. reflexivity.
    - vm_compute. discriminate. }
  unfold analyze_task_density, mbind, get_tasks, lift.
  change (map (fun e => deadline (entry_task e)) (tasks far_apart))
    with [deadline task_early; deadline task_last].
  rewrite Hd. reflexivity.
Qed.

(** On the empty store the analysis returns early, with nothing computed. *)
Lemma analyze_task_density_empty (m : TaskManager) :
  tasks m = [] -> analyze_task_density m = Ok (None, m).
Proof.
  intro Hnil. unfold analyze_task_density, mbind, get_tasks, lift.
  rewrite Hnil. reflexivity.
Qed.

(** The buckets come in ascending order. *)
Lemma buckets_ascending (first : datetime) (n : Z) :
  StronglySorted Z.lt (map (fun i => first + i * US_PER_HOUR) (range n)).
Proof.
  unfold range. rewrite map_map.
  generalize 0%nat as start. generalize (Z.to_nat n) as len.
  induction len as [|len IH]; intro start; cbn [seq map]; constructor.
  - apply IH.
  - apply Forall_forall. intros t Ht. apply in_map_iff in Ht.
    destruct Ht as (j & Hj & Hin). apply in_seq in Hin.
    unfold US_PER_HOUR in *. lia.
Qed.

(** On a non-empty store whose deadlines lie less than 2^32 seconds apart,
    the analysis computes one bucket per whole hour from the earliest
    deadline up to the latest, in ascending order, each with the number of
    tasks due at or before it. *)
Lemma analyze_task_density_spec (m : TaskManager) :
  let deadlines := map (fun e => deadline (entry_task e)) (tasks m) in
  tasks m <> [] ->
  Forall valid_datetime deadlines ->
  (forall a b, In a deadlines -> In b deadlines -> b - a < 2 ^ 32 * 1000000) ->
  exists first final,
    In first deadlines /\ In final deadlines /\
    Forall (fun d => first <= d <= final) deadlines /\
    let times :=
      map (fun i => first + i * US_PER_HOUR)
          (range ((final - first) / US_PER_HOUR + 1)) in
    Forall (fun t => first <= t <= final) times /\
    StronglySorted Z.lt times /\
    analyze_task_density m =
    Ok (Some (times,
              map (fun time =>
                     Z.of_nat (length (filter (fun d => d <=? time) deadlines)))
                  times),
        m).
Proof.
  intros deadlines Hne Hvalid Hspan.
  assert (Hne' : deadlines <> []).
  { unfold deadlines. destruct (tasks m); [contradiction | discriminate]. }
  destruct (density_spec deadlines Hne' Hvalid Hspan)
    as (first & final & Hfirst & Hfinal & Hbounds & Hrun).
  exists first, final. repeat split; try assumption.
  - apply Forall_forall. intros t Ht. apply in_map_iff in Ht.
    destruct Ht as (i & Hi & Hin). apply range_In in Hin.
    rewrite Forall_forall in Hbounds. pose proof (Hbounds _ Hfinal) as [Hle _].
    assert (i * US_PER_HOUR <= final - first).
    { unfold US_PER_HOUR in *.
      pose proof (Z.mul_div_le (final - first) 3600000000 ltac:(lia)). nia. }
    unfold US_PER_HOUR in *. lia.
  - apply buckets_ascending.
  - unfold analyze_task_density, mbind, get_tasks, lift.
    fold deadlines. cbv zeta in Hrun. rewrite Hrun. reflexivity.
Qed.

(** ** merge_sort on list objects *)

Lemma list_set_length {A : Type} (l : list A) (i : nat) (x : A) :
  length (list_set l i x) = length l.
Proof.
  revert i. induction l as [|y l IH]; intro i; [reflexivity|].
  destruct i; cbn [list_set length]; [reflexivity|]. rewrite IH. reflexivity.
Qed.

Lemma nth_list_set_eq {A : Type} (l : list A) (i : nat) (x d : A) :
  (i < length l)%nat -> nth i (list_set l i x) d = x.
Proof.
  revert i. induction l as [|y l IH]; intros i Hi; [cbn in Hi; lia|].
  destruct i; cbn [list_set nth]; [reflexivity|].
  apply IH. cbn in Hi. lia.
Qed.

Lemma nth_list_set_neq {A : Type} (l : list A) (i j : nat) (x d : A) :
  i <> j -> nth j (list_set l i x) d = nth j l d.
Proof.
  revert i j. induction l as [|y l IH]; intros i j Hij; [reflexivity|].
  destruct i, j; cbn [list_set nth]; try reflexivity; [lia|].
  apply IH. lia.
Qed.

Lemma nth_error_skipn_Some {A : Type} (l : list A) (i : nat) (x : A) :
  nth_error l i = Some x -> skipn i l = x :: skipn (S i) l.
Proof.
  revert i. induction l as [|y l IH]; intros i Hi.
  - destruct i; discriminate.
  - destruct i; [inversion Hi; reflexivity|].
    cbn [nth_error] in Hi. apply IH in Hi. exact Hi.
Qed.

Lemma nth_error_skipn_None {A : Type} (l : list A) (i : nat) :
  nth_error l i = None -> skipn i l = [].
Proof.
  intro Hi. apply nth_error_None in Hi. apply skipn_all2. exact Hi.
Qed.

Lemma preserved_refl (h : objects) : preserved h h.
Proof. split; [lia | reflexivity]. Qed.

Lemma preserved_trans (h1 h2 h3 : objects) :
  preserved h1 h2 -> preserved h2 h3 -> preserved h1 h3.
Proof.
  intros [Hl12 H12] [Hl23 H23]. split; [lia|].
  intros r Hr. rewrite H23 by lia. apply H12. exact Hr.
Qed.

Lemma preserved_alloc (h : objects) (l : list entry) :
  preserved h (h ++ [l]).
Proof.
  split; [rewrite length_app; cbn; lia|].
  intros r Hr. apply app_nth1. exact Hr.
Qed.

Section MergeSortObjectsFacts.
Context {K : Type} `{TotalPreorder K}.
Variable key : entry -> K.

Lemma merge_loop_eq (fuel : nat) (left right result : ref) (i j : nat)
  (h : objects) :
  merge_loop key fuel left right result i j h =
  match nth_error (nth left h []) i, nth_error (nth right h []) j with
  | Some x, Some y =>
      match fuel with
      | O => None
      | S fuel' =>
          if le_b (key x) (key y)
          then merge_loop key fuel' left right result (S i) j
                 (list_set h result (nth result h [] ++ [x]))
          else merge_loop key fuel' left right result i (S j)
                 (list_set h result (nth result h [] ++ [y]))
      end
  | _, _ => Some ((i, j), h)
  end.
Proof.
  destruct fuel; cbn [merge_loop]; unfold hbind, deref;
    destruct (nth_error (nth left h []) i) as [x|];
    destruct (nth_error (nth right h []) j) as [y|]; try reflexivity.
  destruct (le_b (key x) (key y)); reflexivity.
Qed.

(** The loop writes the list [result] only, and what it has appended,
    followed by what it has left over in the two inputs, is the merge of
    what it started from. *)
Lemma merge_loop_spec (fuel : nat) (left right result : ref) :
  forall (i j : nat) (h : objects),
    left <> result -> right <> result ->
    (result < length h)%nat ->
    (length (nth left h []) - i + (length (nth right h []) - j) <= fuel)%nat ->
    exists i' j' h',
      merge_loop key fuel left right result i j h = Some ((i', j'), h') /\
      length h' = length h /\
      (forall r, r <> result -> nth r h' [] = nth r h []) /\
      nth result h' [] ++
        skipn i' (nth left h []) ++ skipn j' (nth right h []) =
      nth result h [] ++
        merge key (skipn i (nth left h [])) (skipn j (nth right h [])).
Proof.
  induction fuel as [|fuel IH]; intros i j h Hl Hr Hres Hfuel;
    rewrite merge_loop_eq;
    destruct (nth_error (nth left h []) i) as [x|] eqn:Hx;
    destruct (nth_error (nth right h []) j) as [y|] eqn:Hy.
  1: { exfalso.
       assert (i < length (nth left h []))%nat
         by (apply nth_error_Some; congruence).
       assert (j < length (nth right h []))%nat
         by (apply nth_error_Some; congruence).
       lia. }
  4: { assert (Hi : (i < length (nth left h []))%nat)
         by (apply nth_error_Some; congruence).
       assert (Hj : (j < length (nth right h []))%nat)
         by (apply nth_error_Some; congruence).
       rewrite (nth_error_skipn_Some _ _ _ Hx), (nth_error_skipn_Some _ _ _ Hy).
       rewrite merge_cons_cons.
       destruct (le_b (key x) (key y)).
       - set (h1 := list_set h result (nth result h [] ++ [x])).
         assert (Hleft1 : nth left h1 [] = nth left h [])
           by (apply nth_list_set_neq; congruence).
         assert (Hright1 : nth right h1 [] = nth right h [])
           by (apply nth_list_set_neq; congruence).
         destruct (IH (S i) j h1 Hl Hr) as (i' & j' & h' & Hrun & Hlen & Hfr & Hm).
         + unfold h1. rewrite list_set_length. exact Hres.
         + rewrite Hleft1, Hright1. lia.
         + exists i', j', h'. rewrite Hrun. split; [reflexivity|].
           split; [rewrite Hlen; apply list_set_length|].
           split.
           * intros r Hne. rewrite (Hfr r Hne).
             apply nth_list_set_neq. congruence.
           * rewrite Hleft1, Hright1 in Hm. rewrite Hm.
             unfold h1. rewrite nth_list_set_eq by exact Hres.
             rewrite <- app_assoc.
             rewrite (nth_error_skipn_Some _ _ _ Hy). reflexivity.
       - set (h1 := list_set h result (nth result h [] ++ [y])).
         assert (Hleft1 : nth left h1 [] = nth left h [])
           by (apply nth_list_set_neq; congruence).
         assert (Hright1 : nth right h1 [] = nth right h [])
           by (apply nth_list_set_neq; congruence).
         destruct (IH i (S j) h1 Hl Hr) as (i' & j' & h' & Hrun & Hlen & Hfr & Hm).
         + unfold h1. rewrite list_set_length. exact Hres.
         + rewrite Hleft1, Hright1. lia.
         + exists i', j', h'. rewrite Hrun. split; [reflexivity|].
           split; [rewrite Hlen; apply list_set_length|].
           split.
           * intros r Hne. rewrite (Hfr r Hne).
             apply nth_list_set_neq. congruence.
           * rewrite Hleft1, Hright1 in Hm. rewrite Hm.
             unfold h1. rewrite nth_list_set_eq by exact Hres.
             rewrite <- app_assoc.
             rewrite (nth_error_skipn_Some _ _ _ Hx). reflexivity. }
  all: exists i, j, h; split; [reflexivity|]; split; [reflexivity|];
    split; [reflexivity|]; f_equal.
  all: try rewrite (nth_error_skipn_None _ _ Hx);
    try rewrite (nth_error_skipn_None _ _ Hy);
    rewrite ?merge_nil_l, ?merge_nil_r, ?app_nil_r; reflexivity.
Qed.

(** [merge] allocates its result and writes nothing else; the result holds
    the merge of the two inputs. *)
Lemma merge_obj_spec (left right : ref) (h : objects) :
  (left < length h)%nat -> (right < length h)%nat ->
  exists h',
    merge_obj key left right h = Some (length h, h') /\
    preserved h h' /\
    (length h < length h')%nat /\
    nth (length h) h' [] = merge key (nth left h []) (nth right h []).
Proof.
  intros Hl Hr.
  set (result := length h). set (h0 := h ++ [[]]).
  assert (Hlen0 : length h0 = S (length h))
    by (unfold h0; rewrite length_app; cbn; lia).
  assert (Hleft0 : nth left h0 [] = nth left h [])
    by (apply app_nth1; exact Hl).
  assert (Hright0 : nth right h0 [] = nth right h [])
    by (apply app_nth1; exact Hr).
  assert (Hres0 : nth result h0 [] = [])
    by (apply nth_middle).
  destruct (merge_loop_spec
              (length (nth left h0 []) + length (nth right h0 []))
              left right result 0 0 h0)
    as (i' & j' & h1 & Hrun & Hlen1 & Hfr1 & Hm); try (unfold result; lia).
  rewrite Hres0, Hleft0, Hright0 in Hm. cbn [skipn app] in Hm.
  set (L := nth left h []) in *. set (R := nth right h []) in *.
  assert (Hleft1 : nth left h1 [] = L)
    by (rewrite Hfr1 by (unfold result; lia); exact Hleft0).
  assert (Hright1 : nth right h1 [] = R)
    by (rewrite Hfr1 by (unfold result; lia); exact Hright0).
  set (h2 := h1 ++ [skipn i' L]).
  set (h3 := list_set h2 result (nth result h2 [] ++ nth (length h1) h2 [])).
  set (h4 := h3 ++ [skipn j' (nth right h3 [])]).
  set (h5 := list_set h4 result (nth result h4 [] ++ nth (length h3) h4 [])).
  assert (Hrun5 : merge_obj key left right h = Some (result, h5)).
  { unfold merge_obj, hbind, alloc, deref, slice_from, extend, hret.
    fold h0. fold result. rewrite Hrun. cbn [fst snd].
    unfold hbind, deref, alloc. rewrite Hleft1. reflexivity. }
  assert (Hlen2 : length h2 = S (length h1))
    by (unfold h2; rewrite length_app; cbn; lia).
  assert (Hlen3 : length h3 = length h2) by apply list_set_length.
  assert (Hlen4 : length h4 = S (length h3))
    by (unfold h4; rewrite length_app; cbn; lia).
  assert (Hlen5 : length h5 = length h4) by apply list_set_length.
  assert (Hres2 : nth result h2 [] = nth result h1 [])
    by (apply app_nth1; unfold result; lia).
  assert (Hs1 : nth (length h1) h2 [] = skipn i' L) by apply nth_middle.
  assert (Hres3 : nth result h3 [] = nth result h1 [] ++ skipn i' L).
  { unfold h3. rewrite nth_list_set_eq by (unfold result; lia).
    rewrite Hres2, Hs1. reflexivity. }
  assert (Hright3 : nth right h3 [] = R).
  { unfold h3. rewrite nth_list_set_neq by (unfold result; lia).
    unfold h2. rewrite app_nth1 by lia. exact Hright1. }
  assert (Hres4 : nth result h4 [] = nth result h3 [])
    by (apply app_nth1; unfold result; lia).
  assert (Hs2 : nth (length h3) h4 [] = skipn j' R)
    by (unfold h4; rewrite nth_middle, Hright3; reflexivity).
  exists h5. split; [exact Hrun5|]. split; [|split].
  - split; [lia|]. intros r Hr0.
    unfold h5. rewrite nth_list_set_neq by (unfold result; lia).
    unfold h4. rewrite app_nth1 by lia.
    unfold h3. rewrite nth_list_set_neq by (unfold result; lia).
    unfold h2. rewrite app_nth1 by lia.
    rewrite Hfr1 by (unfold result; lia).
    apply app_nth1. exact Hr0.
  - lia.
  - fold result. unfold h5. rewrite nth_list_set_eq by (unfold result; lia).
    rewrite Hres4, Hres3, Hs2, <- app_assoc. exact Hm.
Qed.

Lemma merge_sort_fuel_eq (fuel : nat) (tasks : ref) (h : objects) :
  merge_sort_fuel key fuel tasks h =
  if (length (nth tasks h []) <=? 1)%nat then Some (tasks, h)
  else
    match fuel with
    | O => None
    | S fuel' =>
        let mid := Nat.div (length (nth tasks h [])) 2 in
        (let* first_half := slice tasks 0 mid in
         let* left := merge_sort_fuel key fuel' first_half in
         let* second_half := slice_from tasks mid in
         let* right := merge_sort_fuel key fuel' second_half in
         merge_obj key left right) h
    end.
Proof.
  destruct fuel; cbn [merge_sort_fuel]; unfold hbind at 1, deref at 1;
    destruct (length (nth tasks h []) <=? 1)%nat; reflexivity.
Qed.

(** With fuel for the length of the list, [merge_sort] returns a list
    object holding the sorted elements, and every list object that existed
    before the call, the argument among them, holds what it held. *)
Lemma merge_sort_fuel_spec (fuel : nat) :
  forall (tasks : ref) (h : objects),
    (tasks < length h)%nat ->
    (length (nth tasks h []) <= fuel)%nat ->
    exists res h',
      merge_sort_fuel key fuel tasks h = Some (res, h') /\
      preserved h h' /\
      (res < length h')%nat /\
      nth res h' [] = merge_sort key (nth tasks h []).
Proof.
  induction fuel as [|fuel IH]; intros tasks h Htasks Hfuel;
    rewrite merge_sort_fuel_eq, (merge_sort_eq key (nth tasks h []));
    destruct (length (nth tasks h []) <=? 1)%nat eqn:Hshort;
    try (exists tasks, h; split; [reflexivity|];
         split; [apply preserved_refl|]; split; [exact Htasks | reflexivity]).
  - apply Nat.leb_gt in Hshort. lia.
  - apply Nat.leb_gt in Hshort.
    set (l := nth tasks h []) in *. set (mid := Nat.div (length l) 2).
    assert (Hmid_lt : (mid < length l)%nat) by (apply Nat.div_lt; lia).
    assert (Hmid_pos : (0 < mid)%nat) by (apply Nat.div_str_pos; lia).
    cbv zeta. fold mid.
    unfold hbind at 1, slice at 1, hbind at 1, deref at 1, alloc at 1.
    fold l. rewrite Nat.sub_0_r. cbn [skipn].
    set (h1 := h ++ [firstn mid l]).
    assert (Hp1 : preserved h h1) by apply preserved_alloc.
    destruct (IH (length h) h1) as (left & h2 & Hrun2 & Hp2 & Hleft & Hsorted2).
    { unfold h1. rewrite length_app. cbn. lia. }
    { unfold h1. rewrite nth_middle, length_firstn. lia. }
    unfold h1 in Hsorted2. rewrite nth_middle in Hsorted2.
    unfold hbind at 1. rewrite Hrun2.
    assert (Hp02 : preserved h h2) by (eapply preserved_trans; eassumption).
    assert (Htasks2 : nth tasks h2 [] = l) by (apply Hp02; exact Htasks).
    unfold hbind at 1, slice_from at 1, hbind at 1, deref at 1, alloc at 1.
    rewrite Htasks2.
    set (h3 := h2 ++ [skipn mid l]).
    assert (Hp3 : preserved h2 h3) by apply preserved_alloc.
    destruct (IH (length h2) h3)
      as (right & h4 & Hrun4 & Hp4 & Hright & Hsorted4).
    { unfold h3. rewrite length_app. cbn. lia. }
    { unfold h3. rewrite nth_middle, length_skipn. lia. }
    unfold h3 in Hsorted4. rewrite nth_middle in Hsorted4.
    unfold hbind at 1. rewrite Hrun4.
    assert (Hp24 : preserved h2 h4) by (eapply preserved_trans; eassumption).
    assert (Hleft4 : (left < length h4)%nat) by (destruct Hp24; lia).
    destruct (merge_obj_spec left right h4 Hleft4 Hright)
      as (h5 & Hrun5 & Hp5 & Hlen5 & Hmerged).
    exists (length h4), h5. split; [exact Hrun5|].
    split; [|split; [exact Hlen5|]].
    + eapply preserved_trans; [exact Hp02|].
      eapply preserved_trans; [exact Hp24 | exact Hp5].
    + rewrite Hmerged, Hsorted4.
      destruct Hp24 as [_ Hp24]. rewrite (Hp24 left Hleft), Hsorted2.
      reflexivity.
Qed.

End MergeSortObjectsFacts.

(** C10. [get_upcoming_tasks] leaves the list object [self.tasks] with the
    entries it had, in the order they had, and likewise every other list
    that existed before the call: what [merge_sort] and [merge] write are
    lists they allocated themselves.  The call returns, and with the list
    that the model on list values computes. *)
Theorem get_upcoming_tasks_store_unchanged (h : objects) (self_tasks : ref) :
  (self_tasks < length h)%nat ->
  exists upcoming h',
    get_upcoming_tasks_obj self_tasks h = Some (upcoming, h') /\
    nth self_tasks h' [] = nth self_tasks h [] /\
    preserved h h' /\
    forall m,
      tasks m = nth self_tasks h [] ->
      get_upcoming_tasks m = Ok (upcoming, m).
Proof.
  intro Hvalid.
  destruct (merge_sort_fuel_spec entry_deadline
              (length (nth self_tasks h [])) self_tasks h Hvalid (le_n _))
    as (res & h' & Hrun & Hp & Hres & Hsorted).
  exists (map entry_task (merge_sort entry_deadline (nth self_tasks h []))), h'.
  split; [|split; [|split]].
  - unfold get_upcoming_tasks_obj, merge_sort_obj, hbind, deref, hret.
    rewrite Hrun, Hsorted. reflexivity.
  - destruct Hp as [_ Hp]. apply Hp. exact Hvalid.
  - exact Hp.
  - intros m Hm. unfold get_upcoming_tasks, mbind, get_tasks, ret.
    rewrite Hm. reflexivity.
Qed.

Lemma get_upcoming_tasks_store_unchanged_witness :
  exists upcoming h',
    get_upcoming_tasks_obj 0%nat [tasks seeded] = Some (upcoming, h') /\
    nth 0%nat h' [] = nth 0%nat [tasks seeded] [] /\
    preserved [tasks seeded] h' /\
    forall m,
      tasks m = nth 0%nat [tasks seeded] [] ->
      get_upcoming_tasks m = Ok (upcoming, m).
Proof.
  apply (get_upcoming_tasks_store_unchanged [tasks seeded] 0%nat).
  cbn. lia.
Defined.

(** ** When the methods return *)

Lemma list_set_In {A : Type} (l : list A) (i : nat) (x y : A) :
  In y (list_set l i x) -> y = x \/ In y l.
Proof.
  revert i. induction l as [|z l IH]; intros i Hin; [contradiction|].
  destruct i; cbn [list_set] in Hin; destruct Hin as [Heq|Hin].
  - left. symmetry. exact Heq.
  - right. right. exact Hin.
  - right. left. exact Heq.
  - destruct (IH _ Hin) as [Hx|Hl]; [left; exact Hx | right; right; exact Hl].
Qed.

(** The new item moves up without an exception when it can be compared
    with every tuple of the heap; its parent index is always in range. *)
Lemma siftdown_returns (newitem : entry) (pos : nat) :
  forall heap : list entry,
    (pos < length heap)%nat ->
    Forall (comparable newitem) heap ->
    returns (siftdown heap newitem pos).
Proof.
  induction pos as [pos IH] using lt_wf_ind. intros heap Hpos Hcmp.
  destruct pos as [|p]; [rewrite siftdown_equation_1; eexists; reflexivity|].
  rewrite siftdown_equation_2.
  assert (Hparent : (Nat.div p 2 <= p)%nat)
    by (apply Nat.Div0.div_le_upper_bound; lia).
  destruct (nth_error heap (Nat.div p 2)) as [parent|] eqn:Hnth.
  - cbn. assert (Hin : In parent heap) by (eapply nth_error_In; exact Hnth).
    rewrite Forall_forall in Hcmp.
    destruct (proj2 (tuple_lt_returns newitem parent) (Hcmp _ Hin)) as [b Hb].
    rewrite Hb. cbn. destruct b; [|eexists; reflexivity].
    change (fst (Nat.divmod p 1 0 1)) with (Nat.div p 2).
    apply IH; [lia | rewrite list_set_length; lia|].
    apply Forall_forall. intros e He.
    destruct (list_set_In _ _ _ _ He) as [Heq|Hold];
      [subst e; apply Hcmp; exact Hin | apply Hcmp; exact Hold].
  - apply nth_error_None in Hnth. lia.
Qed.

(** [add_task] returns when the new task differs in priority or deadline
    from every task of the store (or is one of them, added again). *)
Lemma add_task_returns (task : Task) (m : TaskManager) :
  Forall (comparable (entry_of task)) (tasks m) ->
  returns (add_task task m).
Proof.
  intro Hcmp. unfold add_task, mbind, get_tasks, lift, put_tasks, heappush.
  destruct (siftdown_returns (entry_of task) (length (tasks m))
              (tasks m ++ [entry_of task])) as [heap Hheap].
  - rewrite length_app. cbn. lia.
  - apply Forall_app. split; [exact Hcmp|].
    constructor; [|constructor]. intros _ _. reflexivity.
  - change (priority task, deadline task, task) with (entry_of task).
    rewrite Hheap. eexists; reflexivity.
Qed.

(** The loop of [schedule_tasks] returns when the durations are not
    negative and no deadline is so late that a task started by it would end
    after [datetime.max]. *)
Lemma schedule_loop_returns (bound : datetime) (l : list entry) :
  Forall (fun e =>
            entry_deadline e <= bound /\
            0 <= duration (entry_task e) /\
            bound + duration (entry_task e) * US_PER_MINUTE <= DATETIME_MAX) l ->
  forall (current_time : datetime) (acc : list Task),
    0 <= current_time <= bound ->
    returns (schedule_loop current_time acc l).
Proof.
  induction 1 as [|[[p d] t] l (Hd & Hdur & Hmax) Hl IH]; intros ct acc Hct.
  - eexists; reflexivity.
  - change (entry_deadline (p, d, t)) with d in Hd.
    change (entry_task (p, d, t)) with t in Hdur, Hmax.
    cbn [schedule_loop].
    assert (Htd : timedelta_minutes (duration t)
                  = Ok (duration t * US_PER_MINUTE)).
    { unfold timedelta_minutes, US_PER_MINUTE, US_PER_DAY, TIMEDELTA_MAX_DAYS,
        DATETIME_MAX in *.
      assert (0 <= duration t * 60000000 / 86400000000 <= 999999999).
      { split; [apply Z.div_pos; lia|].
        apply Z.div_le_upper_bound; lia. }
      replace (- (999999999) <=? duration t * 60000000 / 86400000000)
        with true by (symmetry; apply Z.leb_le; lia).
      replace (duration t * 60000000 / 86400000000 <=? 999999999)
        with true by (symmetry; apply Z.leb_le; lia).
      reflexivity. }
    assert (Hadd : datetime_add ct (duration t * US_PER_MINUTE)
                   = Ok (ct + duration t * US_PER_MINUTE)).
    { unfold datetime_add, valid_datetimeb, US_PER_MINUTE, DATETIME_MAX in *.
      replace (0 <=? ct + duration t * 60000000)
        with true by (symmetry; apply Z.leb_le; lia).
      replace (ct + duration t * 60000000 <=? 315537897599999999)
        with true by (symmetry; apply Z.leb_le; lia).
      reflexivity. }
    rewrite Htd. cbn [bind]. rewrite Hadd. cbn [bind].
    destruct (ct + duration t * US_PER_MINUTE <=? d) eqn:Hfit.
    + apply IH. apply Z.leb_le in Hfit. unfold US_PER_MINUTE in *. lia.
    + apply IH. exact Hct.
Qed.

(** [schedule_tasks] returns on a store without two different tasks under
    one (priority, deadline) key, under the bounds of
    [schedule_loop_returns]. *)
Lemma schedule_tasks_returns (now bound : datetime) (m : TaskManager) :
  ForallOrdPairs comparable (tasks m) ->
  0 <= now <= bound ->
  Forall (fun e =>
            entry_deadline e <= bound /\
            0 <= duration (entry_task e) /\
            bound + duration (entry_task e) * US_PER_MINUTE <= DATETIME_MAX)
         (tasks m) ->
  returns (schedule_tasks now m).
Proof.
  intros Hcmp Hnow Hbound.
  destruct (sorted_returns _ Hcmp) as [s Hs].
  destruct (schedule_loop_returns bound s) with (current_time := now)
    (acc := @nil Task) as [r Hr].
  - eapply Permutation_Forall; [apply sorted_Permutation; exact Hs|].
    exact Hbound.
  - exact Hnow.
  - unfold schedule_tasks, mbind, get_tasks, lift, put_schedule, ret.
    rewrite Hs, Hr. eexists; reflexivity.
Qed.

(** The methods that work on keys only never raise, whatever the store. *)
Lemma key_methods_return (now : datetime) (task_name : string)
  (m : TaskManager) :
  returns (get_upcoming_tasks m) /\
  returns (remind_tasks now m) /\
  returns (mark_task_as_completed task_name m) /\
  returns (view_completed_tasks m).
Proof.
  unfold returns. split; [|split; [|split]].
  - unfold get_upcoming_tasks, mbind, get_tasks, ret. eexists; reflexivity.
  - unfold remind_tasks, mbind, get_tasks, ret.
    destruct (remind_loop now [] [] (tasks m)). eexists; reflexivity.
  - unfold mark_task_as_completed, mbind, get_tasks, append_completed,
      put_tasks, ret.
    destruct (find_named task_name 0 (tasks m)) as [[i t]|];
      eexists; reflexivity.
  - unfold view_completed_tasks, get_completed_tasks. eexists; reflexivity.
Qed.

(** A duration too long for the calendar: [schedule_tasks] raises
    OverflowError on the scenario store once B lasts 10^10 minutes. *)
Lemma schedule_tasks_long_duration_raises :
  let long_B := mkTask 2 "B" academic (example_now + 45 * US_PER_MINUTE) 2
                       (10 ^ 10) in
  schedule_tasks example_now
    (mkTaskManager [entry_of (task_A example_now); entry_of long_B] [] [])
  = Err OverflowError.
Proof. vm_compute. reflexivity. Qed.

(** ** What add_task stores *)

Lemma list_set_swap_head {A : Type} (l : list A) (r : nat) (a b : A) :
  (r < length l)%nat ->
  Permutation (b :: list_set l r a) (a :: list_set l r b).
Proof.
  revert r. induction l as [|x l IH]; intros r Hr; [cbn in Hr; lia|].
  destruct r as [|r]; cbn [list_set].
  - apply perm_swap.
  - cbn in Hr. rewrite perm_swap, (IH r) by lia. apply perm_swap.
Qed.

(** Writing [a = l[q]] at [r] and then [b] at [q] gives the elements of
    [l] with [b] written at [r]. *)
Lemma list_set_swap {A : Type} (l : list A) (q r : nat) (a b : A) :
  (q < r)%nat -> (r < length l)%nat ->
  nth_error l q = Some a ->
  Permutation (list_set (list_set l r a) q b) (list_set l r b).
Proof.
  revert q r. induction l as [|x l IH]; intros q r Hqr Hr Hq;
    [cbn in Hr; lia|].
  destruct r as [|r]; [lia|]. cbn in Hr.
  destruct q as [|q]; cbn [list_set].
  - inversion Hq; subst. apply list_set_swap_head. lia.
  - constructor. apply IH; [lia | lia | exact Hq].
Qed.

Lemma siftdown_Permutation (newitem : entry) (pos : nat) :
  forall heap heap' : list entry,
    (pos < length heap)%nat ->
    siftdown heap newitem pos = Ok heap' ->
    Permutation heap' (list_set heap pos newitem).
Proof.
  induction pos as [pos IH] using lt_wf_ind. intros heap heap' Hpos Hrun.
  destruct pos as [|p].
  - rewrite siftdown_equation_1 in Hrun. inversion Hrun. reflexivity.
  - rewrite siftdown_equation_2 in Hrun.
    assert (Hparent : (Nat.div p 2 <= p)%nat)
      by (apply Nat.Div0.div_le_upper_bound; lia).
    destruct (nth_error heap (Nat.div p 2)) as [parent|] eqn:Hnth;
      [|discriminate].
    cbn in Hrun. destruct (tuple_lt newitem parent) as [[|]|e];
      cbn in Hrun; [| |discriminate].
    + change (fst (Nat.divmod p 1 0 1)) with (Nat.div p 2) in Hrun.
      apply IH in Hrun; [|lia|rewrite list_set_length; lia].
      rewrite Hrun. apply list_set_swap; [lia | exact Hpos | exact Hnth].
    + inversion Hrun. reflexivity.
Qed.

Lemma list_set_last {A : Type} (l : list A) (x y : A) :
  list_set (l ++ [x]) (length l) y = l ++ [y].
Proof.
  induction l as [|z l IH]; [reflexivity|].
  cbn [app length list_set]. rewrite IH. reflexivity.
Qed.

(** A call of [add_task] that returns has added the tuple of the task to
    the store and changed nothing else. *)
Lemma add_task_Ok (task : Task) (m m' : TaskManager) :
  add_task task m = Ok (tt, m') ->
  Permutation (tasks m') (entry_of task :: tasks m) /\
  schedule m' = schedule m /\
  completed_tasks m' = completed_tasks m.
Proof.
  unfold add_task, mbind, get_tasks, lift, put_tasks, heappush.
  change (priority task, deadline task, task) with (entry_of task).
  destruct (siftdown (tasks m ++ [entry_of task]) (entry_of task)
              (length (tasks m))) as [heap|e] eqn:Hrun; [|discriminate].
  intro Heq. inversion Heq; subst m'. cbn [tasks schedule completed_tasks].
  split; [|split; reflexivity].
  apply siftdown_Permutation in Hrun; [|rewrite length_app; cbn; lia].
  rewrite Hrun, list_set_last. symmetry. apply Permutation_cons_append.
Qed.

(** The stores that the methods build keep, in each tuple, the priority
    and the deadline of the tuple's task. *)
Lemma store_wf_init : store_wf (tasks init).
Proof. constructor. Qed.

Lemma store_wf_add_task (task : Task) (m m' : TaskManager) :
  store_wf (tasks m) ->
  add_task task m = Ok (tt, m') ->
  store_wf (tasks m').
Proof.
  intros Hwf Hrun. apply add_task_Ok in Hrun. destruct Hrun as [Hp _].
  unfold store_wf. eapply Permutation_Forall; [symmetry; exact Hp|].
  constructor; [reflexivity | exact Hwf].
Qed.

Lemma list_del_incl {A : Type} (l : list A) (i : nat) (x : A) :
  In x (list_del l i) -> In x l.
Proof.
  revert i. induction l as [|y l IH]; intros i Hin; [contradiction|].
  destruct i; cbn [list_del] in Hin; [right; exact Hin|].
  destruct Hin as [Heq|Hin]; [left; exact Heq | right; eapply IH; exact Hin].
Qed.

Lemma store_wf_mark_task_as_completed (task_name : string)
  (m m' : TaskManager) (report : completion_report) :
  store_wf (tasks m) ->
  mark_task_as_completed task_name m = Ok (report, m') ->
  store_wf (tasks m').
Proof.
  intros Hwf. unfold mark_task_as_completed, mbind, get_tasks,
    append_completed, put_tasks, ret.
  destruct (find_named task_name 0 (tasks m)) as [[i t]|];
    intro Heq; inversion Heq; subst; [|exact Hwf].
  cbn [tasks]. unfold store_wf in *. rewrite Forall_forall in *.
  intros e He. apply Hwf. eapply list_del_incl. exact He.
Qed.

(** ** Exactly when the sort of the tuples raises *)

Lemma comparable_sym (a b : entry) : comparable a b -> comparable b a.
Proof.
  unfold comparable. intros Hab Hp Hd. symmetry. apply Hab; symmetry; assumption.
Qed.

Lemma entry_le_antisym_key (a b : entry) :
  entry_le a b -> entry_le b a ->
  entry_priority a = entry_priority b /\ entry_deadline a = entry_deadline b.
Proof. unfold entry_le. lia. Qed.

(** An insertion that returns has met, or had no need to meet, every
    tuple of the sorted list: the new tuple is comparable with all. *)
Lemma insert_lt_comparable (x : entry) (s r : list entry) :
  StronglySorted entry_le s ->
  ForallOrdPairs comparable s ->
  insert_lt x s = Ok r ->
  Forall (comparable x) s.
Proof.
  revert r. induction s as [|y s IH]; intros r Hs Hpairs Hins; [constructor|].
  inversion Hs as [|? ? Hs' Hys]; subst.
  inversion Hpairs as [|? ? Hycmp Hpairs']; subst.
  cbn [insert_lt] in Hins.
  destruct (tuple_lt y x) as [b|e] eqn:Hyx; [|discriminate].
  assert (Hcyx : comparable y x)
    by (apply tuple_lt_returns; exists b; exact Hyx).
  cbn [bind] in Hins. constructor; [apply comparable_sym; exact Hcyx|].
  destruct b.
  - apply bind_Ok in Hins. destruct Hins as (r' & Hr' & _).
    eapply IH; eassumption.
  - apply tuple_lt_false in Hyx.
    rewrite Forall_forall in Hys, Hycmp. apply Forall_forall.
    intros z Hz Hp Hd.
    assert (Hxz : entry_le z x) by (unfold entry_le; lia).
    assert (Hyz : entry_le y z) by (apply Hys; exact Hz).
    assert (Hzy : entry_le z y) by (eapply entry_le_trans; eassumption).
    destruct (entry_le_antisym_key y z Hyz Hzy) as [Hp' Hd'].
    rewrite <- (Hycmp z Hz Hp' Hd').
    symmetry. apply Hcyx; congruence.
Qed.

Lemma ForallOrdPairs_comparable_Permutation (l l' : list entry) :
  Permutation l l' ->
  ForallOrdPairs comparable l -> ForallOrdPairs comparable l'.
Proof.
  induction 1 as [|x l l' Hp IH|x y l|l l' l'' H1 IH1 H2 IH2]; intro Hl.
  - constructor.
  - inversion Hl; subst. constructor; [|apply IH; assumption].
    eapply Permutation_Forall; eassumption.
  - inversion Hl as [|? ? Hy Hl']; subst.
    inversion Hl' as [|? ? Hx Hl'']; subst.
    inversion Hy as [|? ? Hyx Hy']; subst.
    constructor; [constructor; [apply comparable_sym; exact Hyx | exact Hx]|].
    constructor; assumption.
  - apply IH2, IH1, Hl.
Qed.

(** [sorted] returns exactly on the stores in which no two different
    tasks share their priority and their deadline; otherwise it raises
    TypeError. *)
Lemma sorted_returns_iff (l : list entry) :
  returns (sorted l) <-> ForallOrdPairs comparable l.
Proof.
  split; [|apply sorted_returns].
  induction l as [|x l IH]; intros [r Hr]; [constructor|].
  cbn [sorted] in Hr. apply bind_Ok in Hr. destruct Hr as (s & Hs & Hins).
  assert (Hl : ForallOrdPairs comparable l) by (apply IH; exists s; exact Hs).
  constructor; [|exact Hl].
  pose proof (sorted_Permutation _ _ Hs) as Hp.
  eapply Permutation_Forall; [symmetry; exact Hp|].
  eapply insert_lt_comparable; [eapply sorted_sorted; exact Hs | | exact Hins].
  eapply ForallOrdPairs_comparable_Permutation; eassumption.
Qed.

Lemma tuple_lt_Err (a b : entry) (e : exn) :
  tuple_lt a b = Err e -> e = TypeError.
Proof.
  unfold tuple_lt.
  destruct (negb _); [discriminate|]. destruct (negb _); [discriminate|].
  destruct (Task_eq_dec _ _); [discriminate|].
  intro Heq. inversion Heq. reflexivity.
Qed.

Lemma insert_lt_Err (x : entry) (l : list entry) (e : exn) :
  insert_lt x l = Err e -> e = TypeError.
Proof.
  induction l as [|y l IH]; cbn [insert_lt]; [discriminate|].
  destruct (tuple_lt y x) as [[|]|e'] eqn:Hyx; cbn [bind].
  - destruct (insert_lt x l) as [r|e'']; cbn [bind]; [discriminate|].
    intro Heq. inversion Heq; subst. apply IH. reflexivity.
  - discriminate.
  - intro Heq. inversion Heq; subst. eapply tuple_lt_Err. exact Hyx.
Qed.

Lemma sorted_Err (l : list entry) (e : exn) :
  sorted l = Err e -> e = TypeError.
Proof.
  induction l as [|x l IH]; cbn [sorted]; [discriminate|].
  destruct (sorted l) as [s|e']; cbn [bind].
  - apply insert_lt_Err.
  - intro Heq. inversion Heq; subst. apply IH. reflexivity.
Qed.

(** ** Further properties of add_task *)

Lemma not_comparable_tie (a b : entry) :
  ~ comparable a b ->
  entry_priority a = entry_priority b /\
  entry_deadline a = entry_deadline b /\
  entry_task a <> entry_task b.
Proof.
  unfold comparable. intro Hn.
  destruct (Z.eq_dec (entry_priority a) (entry_priority b)) as [Hp|Hp];
    [|exfalso; apply Hn; intros; contradiction].
  destruct (Z.eq_dec (entry_deadline a) (entry_deadline b)) as [Hd|Hd];
    [|exfalso; apply Hn; intros; contradiction].
  destruct (Task_eq_dec (entry_task a) (entry_task b)) as [Ht|Ht];
    [exfalso; apply Hn; intros; exact Ht|].
  repeat split; assumption.
Qed.

(** The only exception of the sift is the TypeError of a comparison, and
    it comes from a tuple of the heap that ties with the new one. *)
Lemma siftdown_Err (newitem : entry) (pos : nat) :
  forall (heap : list entry) (e : exn),
    (pos < length heap)%nat ->
    siftdown heap newitem pos = Err e ->
    e = TypeError /\ exists y, In y heap /\ ~ comparable newitem y.
Proof.
  induction pos as [pos IH] using lt_wf_ind. intros heap e Hpos Hrun.
  destruct pos as [|p]; [rewrite siftdown_equation_1 in Hrun; discriminate|].
  rewrite siftdown_equation_2 in Hrun.
  assert (Hparent : (Nat.div p 2 <= p)%nat)
    by (apply Nat.Div0.div_le_upper_bound; lia).
  destruct (nth_error heap (Nat.div p 2)) as [parent|] eqn:Hnth.
  - assert (Hin : In parent heap) by (eapply nth_error_In; exact Hnth).
    cbn in Hrun.
    destruct (tuple_lt newitem parent) as [[|]|e'] eqn:Hlt; cbn in Hrun.
    + change (fst (Nat.divmod p 1 0 1)) with (Nat.div p 2) in Hrun.
      apply IH in Hrun; [|lia|rewrite list_set_length; lia].
      destruct Hrun as (He & y & Hy & Hny). split; [exact He|].
      exists y. split; [|exact Hny].
      destruct (list_set_In _ _ _ _ Hy) as [Heq|Hold];
        [subst y; exact Hin | exact Hold].
    + discriminate.
    + inversion Hrun; subst e'. split; [eapply tuple_lt_Err; exact Hlt|].
      exists parent. split; [exact Hin|].
      intro Hc. apply tuple_lt_returns in Hc. destruct Hc as [b Hb].
      congruence.
  - apply nth_error_None in Hnth. lia.
Qed.

(** X1. A call of [add_task] that returns has put the tuple
    [(task.priority, task.deadline, task)] into the store, once, next to
    the tuples that were there (in heap order, so as a permutation), and has
    left the schedule and the completed tasks alone. *)
Theorem add_task_adds_one_tuple (task : Task) (m m' : TaskManager) :
  add_task task m = Ok (tt, m') ->
  Permutation (tasks m') ((priority task, deadline task, task) :: tasks m) /\
  schedule m' = schedule m /\
  completed_tasks m' = completed_tasks m.
Proof. apply add_task_Ok. Qed.

Lemma add_task_adds_one_tuple_witness :
  let m := mkTaskManager [entry_of project_report; entry_of self_care] [] [] in
  let m' := mkTaskManager
              [entry_of calculus_assignment; entry_of self_care;
               entry_of project_report] [] [] in
  Permutation (tasks m')
    ((priority calculus_assignment, deadline calculus_assignment,
      calculus_assignment) :: tasks m) /\
  schedule m' = schedule m /\
  completed_tasks m' = completed_tasks m.
Proof.
  intros m m'.
  apply (add_task_adds_one_tuple calculus_assignment m m').
  reflexivity.
Defined.

(** X2. [add_task] raises nothing but TypeError, and only when the store
    already holds a different task with the priority and the deadline of
    the new one. *)
Theorem add_task_raises_only_on_tie (task : Task) (m : TaskManager)
  (e : exn) :
  add_task task m = Err e ->
  e = TypeError /\
  exists s,
    In s (tasks m) /\
    entry_priority s = priority task /\
    entry_deadline s = deadline task /\
    entry_task s <> task.
Proof.
  unfold add_task, mbind, get_tasks, lift, put_tasks, heappush.
  change (priority task, deadline task, task) with (entry_of task).
  destruct (siftdown (tasks m ++ [entry_of task]) (entry_of task)
              (length (tasks m))) as [heap|e'] eqn:Hrun; [discriminate|].
  intro Heq. inversion Heq; subst e'.
  apply siftdown_Err in Hrun; [|rewrite length_app; cbn; lia].
  destruct Hrun as (He & y & Hy & Hny). split; [exact He|].
  apply not_comparable_tie in Hny. destruct Hny as (Hp & Hd & Ht).
  exists y. apply in_app_or in Hy. destruct Hy as [Hy|[Hy|[]]].
  - repeat split; [exact Hy | symmetry; exact Hp | symmetry; exact Hd|].
    intro Heq'. apply Ht. symmetry. exact Heq'.
  - subst y. exfalso. apply Ht. reflexivity.
Qed.

Lemma add_task_raises_only_on_tie_witness :
  let m := mkTaskManager [entry_of (task_B example_now)] [] [] in
  TypeError = TypeError /\
  exists s,
    In s (tasks m) /\
    entry_priority s = priority (task_C example_now) /\
    entry_deadline s = deadline (task_C example_now) /\
    entry_task s <> task_C example_now.
Proof.
  intro m.
  apply (add_task_raises_only_on_tie (task_C example_now) m TypeError).
  reflexivity.
Defined.

(** X3. [add_task] returns whenever every tuple of the store differs from
    the new task in priority or in deadline, or holds that very task. *)
Theorem add_task_returns_without_tie (task : Task) (m : TaskManager) :
  (forall s, In s (tasks m) ->
             entry_priority s <> priority task \/
             entry_deadline s <> deadline task \/
             entry_task s = task) ->
  exists m', add_task task m = Ok (tt, m').
Proof.
  intro Hno.
  destruct (add_task_returns task m) as [[[] m'] Hrun].
  - apply Forall_forall. intros s Hs Hp Hd.
    destruct (Hno s Hs) as [Hp'|[Hd'|Ht]];
      [exfalso; apply Hp'; symmetry; exact Hp
      |exfalso; apply Hd'; symmetry; exact Hd
      |symmetry; exact Ht].
  - exists m'. exact Hrun.
Qed.

Lemma add_task_returns_without_tie_witness :
  exists m', add_task self_care
               (mkTaskManager
                  [entry_of calculus_assignment; entry_of project_report]
                  [] [])
             = Ok (tt, m').
Proof.
  apply add_task_returns_without_tie.
  intros s [Hs|[Hs|[]]]; subst s; left; discriminate.
Defined.

(** ** Further properties of schedule_tasks *)

Lemma timedelta_minutes_Err (d : Z) (e : exn) :
  timedelta_minutes d = Err e -> e = OverflowError.
Proof.
  unfold timedelta_minutes. destruct (_ && _); [discriminate|].
  intro Heq. inversion Heq. reflexivity.
Qed.

Lemma datetime_add_Err (t : datetime) (d : timedelta) (e : exn) :
  datetime_add t d = Err e -> e = OverflowError.
Proof.
  unfold datetime_add. destruct (valid_datetimeb _); [discriminate|].
  intro Heq. inversion Heq. reflexivity.
Qed.

(** The loop raises nothing but the OverflowError of the date arithmetic. *)
Lemma schedule_loop_Err (l : list entry) :
  forall (current_time : datetime) (acc : list Task) (e : exn),
    schedule_loop current_time acc l = Err e -> e = OverflowError.
Proof.
  induction l as [|[[p d] t] l IH]; intros ct acc e Hrun; [discriminate|].
  cbn [schedule_loop] in Hrun.
  destruct (timedelta_minutes (duration t)) as [us|e1] eqn:Hus;
    [|inversion Hrun; subst; eapply timedelta_minutes_Err; exact Hus].
  cbn [bind] in Hrun.
  destruct (datetime_add ct us) as [finish|e2] eqn:Hfin;
    [|inversion Hrun; subst; eapply datetime_add_Err; exact Hfin].
  cbn [bind] in Hrun.
  destruct (finish <=? d); eapply IH; exact Hrun.
Qed.

Lemma subseq_refl {A : Type} (l : list A) : subseq l l.
Proof. induction l; constructor; assumption. Qed.

Lemma subseq_In {A : Type} (s l : list A) (x : A) :
  subseq s l -> In x s -> In x l.
Proof.
  induction 1 as [|y s l Hs IH|y s l Hs IH]; intro Hin.
  - contradiction.
  - right. apply IH. exact Hin.
  - destruct Hin as [Heq|Hin]; [left; exact Heq | right; apply IH; exact Hin].
Qed.

Lemma subseq_count_occ (s l : list Task) (t : Task) :
  subseq s l ->
  (count_occ Task_eq_dec s t <= count_occ Task_eq_dec l t)%nat.
Proof.
  induction 1 as [|y s l Hs IH|y s l Hs IH]; cbn [count_occ].
  - lia.
  - destruct (Task_eq_dec y t); lia.
  - destruct (Task_eq_dec y t); lia.
Qed.

Lemma subseq_StronglySorted {A : Type} (R : A -> A -> Prop) (s l : list A) :
  subseq s l -> StronglySorted R l -> StronglySorted R s.
Proof.
  induction 1 as [|y s l Hs IH|y s l Hs IH]; intro Hl.
  - constructor.
  - inversion Hl; subst. apply IH. assumption.
  - inversion Hl as [|? ? Hl' Hy]; subst.
    constructor; [apply IH; exact Hl'|].
    apply Forall_forall. intros x Hx.
    rewrite Forall_forall in Hy. apply Hy. eapply subseq_In; eassumption.
Qed.

(** The scheduled tasks are tasks of the examined list, in its order. *)
Lemma schedule_loop_subseq (l : list entry) :
  forall (current_time : datetime) (r : list Task),
    schedule_loop current_time [] l = Ok r ->
    subseq r (map entry_task l).
Proof.
  induction l as [|[[p d] t] l IH]; intros ct r Hrun.
  - inversion Hrun. constructor.
  - cbn [schedule_loop] in Hrun.
    destruct (timedelta_minutes (duration t)) as [us|e] eqn:Hus;
      [|discriminate].
    cbn [bind] in Hrun.
    destruct (datetime_add ct us) as [finish|e] eqn:Hfin; [|discriminate].
    cbn [bind] in Hrun. cbn [map].
    change (entry_task (p, d, t)) with t.
    destruct (finish <=? d).
    + rewrite schedule_loop_acc in Hrun.
      apply bind_Ok in Hrun. destruct Hrun as (r' & Hr' & Hrun).
      inversion Hrun; subst r. cbn [app].
      apply subseq_take. eapply IH. exact Hr'.
    + apply subseq_skip. eapply IH. exact Hrun.
Qed.

(** X4. [schedule_tasks] raises TypeError exactly on the stores that hold
    two different tasks with the same priority and the same deadline. *)
Theorem schedule_tasks_TypeError_iff_tie (now : datetime) (m : TaskManager) :
  schedule_tasks now m = Err TypeError <->
  ~ ForallOrdPairs comparable (tasks m).
Proof.
  unfold schedule_tasks, mbind, get_tasks, lift, put_schedule, ret.
  split.
  - intros Hrun Hpairs.
    destruct (sorted_returns _ Hpairs) as [s Hs]. rewrite Hs in Hrun.
    destruct (schedule_loop now [] s) as [r|e] eqn:Hloop; [discriminate|].
    apply schedule_loop_Err in Hloop. congruence.
  - intro Hpairs.
    destruct (sorted (tasks m)) as [s|e] eqn:Hs.
    + exfalso. apply Hpairs. apply sorted_returns_iff. exists s. exact Hs.
    + apply sorted_Err in Hs. subst e. reflexivity.
Qed.

(** X5. [schedule_tasks] returns a schedule when no two different tasks of
    the store share priority and deadline, no duration is negative, and
    there is a bound, not before now nor before any deadline, from which
    each task's duration still fits in the calendar. *)
Theorem schedule_tasks_returns_when (now bound : datetime)
  (m : TaskManager) :
  ForallOrdPairs comparable (tasks m) ->
  0 <= now <= bound ->
  Forall (fun e =>
            entry_deadline e <= bound /\
            0 <= duration (entry_task e) /\
            bound + duration (entry_task e) * US_PER_MINUTE <= DATETIME_MAX)
         (tasks m) ->
  exists sched m', schedule_tasks now m = Ok (sched, m').
Proof.
  intros Hcmp Hnow Hbound.
  destruct (schedule_tasks_returns now bound m Hcmp Hnow Hbound)
    as [[sched m'] Hrun].
  exists sched, m'. exact Hrun.
Qed.

Lemma schedule_tasks_returns_when_witness :
  exists sched m', schedule_tasks example_now seeded = Ok (sched, m').
Proof.
  apply (schedule_tasks_returns_when example_now
           (example_now + 12 * US_PER_HOUR) seeded).
  - repeat constructor; intros Hp; discriminate Hp.
  - vm_compute. split; discriminate.
  - repeat constructor; vm_compute; discriminate.
Defined.

Lemma store_wf_task_le (s : list entry) :
  store_wf s -> StronglySorted entry_le s ->
  StronglySorted task_le (map entry_task s).
Proof.
  intros Hwf Hs. induction Hs as [|e s Hs IH He]; [constructor|].
  inversion Hwf as [|? ? Hwe Hwf']; subst.
  cbn [map]. constructor; [apply IH; exact Hwf'|].
  apply Forall_map, Forall_forall. intros e' He'.
  rewrite Forall_forall in He, Hwf'.
  specialize (He e' He'). specialize (Hwf' e' He').
  unfold entry_le in He. unfold task_le.
  rewrite Hwe, Hwf' in He. exact He.
Qed.

(** X6. The schedule lists tasks of the store, none more often than the
    store holds it, in ascending order of (priority, deadline). *)
Theorem schedule_tasks_in_priority_order (now : datetime)
  (m m' : TaskManager) (sched : list Task) :
  store_wf (tasks m) ->
  schedule_tasks now m = Ok (sched, m') ->
  StronglySorted task_le sched /\
  forall t,
    (count_occ Task_eq_dec sched t
     <= count_occ Task_eq_dec (map entry_task (tasks m)) t)%nat.
Proof.
  intros Hwf Hrun.
  destruct (schedule_tasks_Ok _ _ _ _ Hrun) as (s & Hs & Hloop & _).
  pose proof (sorted_Permutation _ _ Hs) as Hp.
  pose proof (schedule_loop_subseq _ _ _ Hloop) as Hsub.
  split.
  - eapply subseq_StronglySorted; [exact Hsub|].
    apply store_wf_task_le; [|eapply sorted_sorted; exact Hs].
    unfold store_wf. eapply Permutation_Forall; [exact Hp | exact Hwf].
  - intro t.
    rewrite (proj1 (Permutation_count_occ Task_eq_dec _ _)
               (Permutation_map entry_task Hp) t).
    apply subseq_count_occ. exact Hsub.
Qed.

Lemma schedule_tasks_in_priority_order_witness :
  let sched := [calculus_assignment; project_report; self_care] in
  StronglySorted task_le sched /\
  forall t,
    (count_occ Task_eq_dec sched t
     <= count_occ Task_eq_dec (map entry_task (tasks seeded)) t)%nat.
Proof.
  exact (schedule_tasks_in_priority_order example_now seeded _ _
           store_wf_seeded schedule_tasks_seeded).
Defined.

(** With durations that are not negative the clock never runs back, so a
    scheduled task fits before its deadline even when started right now. *)
Lemma schedule_loop_fits_from_now (now : datetime) (l : list entry) :
  Forall (fun e => entry_deadline e = deadline (entry_task e) /\
                   0 <= duration (entry_task e)) l ->
  forall (current_time : datetime) (r : list Task),
    now <= current_time ->
    schedule_loop current_time [] l = Ok r ->
    Forall (fun t => now + duration t * US_PER_MINUTE <= deadline t) r.
Proof.
  induction 1 as [|[[p d] t] l [Hd Hdur] Hl IH]; intros ct r Hct Hrun.
  - inversion Hrun. constructor.
  - change (entry_deadline (p, d, t)) with d in Hd.
    change (entry_task (p, d, t)) with t in Hd, Hdur.
    cbn [schedule_loop] in Hrun.
    destruct (timedelta_minutes (duration t)) as [us|e] eqn:Hus;
      [|discriminate].
    cbn [bind] in Hrun.
    destruct (datetime_add ct us) as [finish|e] eqn:Hfin; [|discriminate].
    cbn [bind] in Hrun.
    apply timedelta_minutes_Ok in Hus.
    apply datetime_add_Ok in Hfin. destruct Hfin as [Hfinish _].
    destruct (finish <=? d) eqn:Hfit; [|eapply IH; eassumption].
    rewrite schedule_loop_acc in Hrun.
    apply bind_Ok in Hrun. destruct Hrun as (r' & Hr' & Hrun).
    inversion Hrun; subst r. cbn [app]. apply Z.leb_le in Hfit.
    unfold US_PER_MINUTE in *.
    constructor; [lia|]. apply (IH finish); [lia | exact Hr'].
Qed.

(** X7. When no task of the store has a negative duration, every scheduled
    task would meet its deadline even if started at the current time; in
    particular no overdue task is ever scheduled. *)
Theorem schedule_tasks_never_schedules_overdue (now : datetime)
  (m m' : TaskManager) (sched : list Task) :
  store_wf (tasks m) ->
  Forall (fun e => 0 <= duration (entry_task e)) (tasks m) ->
  schedule_tasks now m = Ok (sched, m') ->
  Forall (fun t => now + duration t * US_PER_MINUTE <= deadline t /\
                   is_overdue now t = false) sched.
Proof.
  intros Hwf Hdur Hrun.
  destruct (schedule_tasks_Ok _ _ _ _ Hrun) as (s & Hs & Hloop & _).
  pose proof (sorted_Permutation _ _ Hs) as Hp.
  assert (Hfit : Forall (fun t => now + duration t * US_PER_MINUTE
                                  <= deadline t) sched).
  { apply (schedule_loop_fits_from_now now s) with (current_time := now);
      [|lia|exact Hloop].
    eapply Permutation_Forall; [exact Hp|].
    apply store_wf_deadline in Hwf.
    rewrite Forall_forall in *. intros e He. split; [apply Hwf | apply Hdur];
      exact He. }
  assert (Hnonneg : Forall (fun t => 0 <= duration t) sched).
  { apply Forall_forall. intros t Ht.
    apply (subseq_In _ _ _ (schedule_loop_subseq _ _ _ Hloop)) in Ht.
    apply in_map_iff in Ht. destruct Ht as (e & He & Hin). subst t.
    rewrite Forall_forall in Hdur. apply Hdur.
    eapply Permutation_in; [symmetry; exact Hp | exact Hin]. }
  rewrite Forall_forall in *. intros t Ht.
  specialize (Hfit t Ht). specialize (Hnonneg t Ht).
  split; [exact Hfit|].
  unfold is_overdue. apply Z.ltb_ge. unfold US_PER_MINUTE in *. lia.
Qed.

Lemma schedule_tasks_never_schedules_overdue_witness :
  Forall (fun t => example_now + duration t * US_PER_MINUTE <= deadline t /\
                   is_overdue example_now t = false)
         [calculus_assignment; project_report; self_care].
Proof.
  apply (schedule_tasks_never_schedules_overdue example_now seeded
           (mkTaskManager (tasks seeded)
              [calculus_assignment; project_report; self_care] [])).
  - exact store_wf_seeded.
  - repeat constructor; discriminate.
  - exact schedule_tasks_seeded.
Defined.

(** On a list that is feasible as it stands the loop accepts every task. *)
Lemma schedule_loop_takes_all (l : list entry) :
  Forall (fun e => entry_deadline e = deadline (entry_task e) /\
                   0 <= duration (entry_task e) /\
                   entry_deadline e <= DATETIME_MAX) l ->
  forall current_time : datetime,
    0 <= current_time ->
    feasible current_time (map entry_task l) ->
    schedule_loop current_time [] l = Ok (map entry_task l).
Proof.
  induction 1 as [|[[p d] t] l (Hd & Hdur & Hmax) Hl IH]; intros ct Hct Hf;
    [reflexivity|].
  change (entry_deadline (p, d, t)) with d in Hd, Hmax.
  change (entry_task (p, d, t)) with t in Hd, Hdur.
  cbn [map feasible] in Hf. change (entry_task (p, d, t)) with t in Hf.
  destruct Hf as [Hfit Hrest].
  cbn [schedule_loop map]. change (entry_task (p, d, t)) with t.
  assert (Htd : timedelta_minutes (duration t)
                = Ok (duration t * US_PER_MINUTE)).
  { unfold timedelta_minutes, US_PER_MINUTE, US_PER_DAY, TIMEDELTA_MAX_DAYS,
      DATETIME_MAX in *.
    assert (0 <= duration t * 60000000 / 86400000000 <= 999999999).
    { split; [apply Z.div_pos; lia|]. apply Z.div_le_upper_bound; lia. }
    replace (- (999999999) <=? duration t * 60000000 / 86400000000)
      with true by (symmetry; apply Z.leb_le; lia).
    replace (duration t * 60000000 / 86400000000 <=? 999999999)
      with true by (symmetry; apply Z.leb_le; lia).
    reflexivity. }
  assert (Hadd : datetime_add ct (duration t * US_PER_MINUTE)
                 = Ok (ct + duration t * US_PER_MINUTE)).
  { unfold datetime_add, valid_datetimeb, US_PER_MINUTE, DATETIME_MAX in *.
    replace (0 <=? ct + duration t * 60000000)
      with true by (symmetry; apply Z.leb_le; lia).
    replace (ct + duration t * 60000000 <=? 315537897599999999)
      with true by (symmetry; apply Z.leb_le; lia).
    reflexivity. }
  rewrite Htd. cbn [bind]. rewrite Hadd. cbn [bind].
  replace (ct + duration t * US_PER_MINUTE <=? d) with true
    by (symmetry; apply Z.leb_le; lia).
  rewrite schedule_loop_acc, IH;
    [reflexivity | unfold US_PER_MINUTE; lia | exact Hrest].
Qed.

(** X8. With durations that are not negative, the schedule is the whole
    store, in its sorted order, exactly when that order is feasible from
    the current time: nothing is rejected unless something has to be. *)
Theorem schedule_tasks_all_iff_feasible (now : datetime) (m : TaskManager)
  (s : list entry) :
  store_wf (tasks m) ->
  sorted (tasks m) = Ok s ->
  0 <= now ->
  Forall (fun e => 0 <= duration (entry_task e) /\
                   entry_deadline e <= DATETIME_MAX) (tasks m) ->
  (feasible now (map entry_task s) <->
   schedule_tasks now m =
   Ok (map entry_task s,
       mkTaskManager (tasks m) (map entry_task s) (completed_tasks m))).
Proof.
  intros Hwf Hs Hnow Hok.
  pose proof (sorted_Permutation _ _ Hs) as Hp.
  assert (Hwfs : Forall (fun e => entry_deadline e = deadline (entry_task e))
                   s).
  { eapply Permutation_Forall; [exact Hp|]. apply store_wf_deadline, Hwf. }
  unfold schedule_tasks, mbind, get_tasks, lift, put_schedule, ret.
  rewrite Hs. split.
  - intro Hf. rewrite schedule_loop_takes_all; [reflexivity | | exact Hnow
                                               | exact Hf].
    assert (Hoks := Permutation_Forall Hp Hok).
    rewrite Forall_forall in *. intros e He.
    destruct (Hoks e He) as [H1 H2]. repeat split; auto.
  - intro Hrun.
    destruct (schedule_loop now [] s) as [r|e] eqn:Hloop; [|discriminate].
    inversion Hrun as [Hr]. rewrite <- Hr.
    eapply schedule_loop_feasible; [exact Hwfs|]. rewrite Hloop, Hr.
    reflexivity.
Qed.

Lemma schedule_tasks_all_iff_feasible_witness :
  let s := tasks seeded in
  feasible example_now (map entry_task s) <->
  schedule_tasks example_now seeded =
  Ok (map entry_task s,
      mkTaskManager (tasks seeded) (map entry_task s)
                    (completed_tasks seeded)).
Proof.
  apply schedule_tasks_all_iff_feasible.
  - exact store_wf_seeded.
  - reflexivity.
  - discriminate.
  - repeat constructor; vm_compute; discriminate.
Defined.

(** ** The stable sort is unique *)

Lemma key_eqb_Z {A : Type} (key : A -> Z) (k : Z) (a : A) :
  key_eqb key k a = true <-> key a = k.
Proof.
  unfold key_eqb, le_b, Z_Le. rewrite andb_true_iff, !Z.leb_le. lia.
Qed.

Lemma with_key_In {A : Type} (key : A -> Z) (k : Z) (a : A) (l : list A) :
  In a (with_key key k l) <-> In a l /\ key a = k.
Proof.
  unfold with_key. rewrite filter_In, key_eqb_Z. reflexivity.
Qed.

Lemma with_key_own_cons {A : Type} (key : A -> Z) (a : A) (l : list A) :
  with_key key (key a) (a :: l) = a :: with_key key (key a) l.
Proof.
  rewrite (with_key_cons key (key a) a).
  replace (key_eqb key (key a) a) with true; [reflexivity|].
  symmetry. apply key_eqb_Z. reflexivity.
Qed.

Lemma ascending_Z_head {A : Type} (key : A -> Z) (x : A) (l : list A) (a : A) :
  ascending key (x :: l) -> In a (x :: l) -> key x <= key a.
Proof.
  intros Hs Hin. apply ascending_cons_inv in Hs. destruct Hs as [Hx _].
  destruct Hin as [Heq|Hin]; [subst; lia|].
  rewrite Forall_forall in Hx. specialize (Hx a Hin).
  apply Z.leb_le. exact Hx.
Qed.

(** Two ascending lists that hold, for every key, the same elements in the
    same order are one list. *)
Lemma stable_sort_unique {A : Type} (key : A -> Z) (l1 : list A) :
  forall l2 : list A,
    ascending key l1 -> ascending key l2 ->
    (forall k, with_key key k l1 = with_key key k l2) ->
    l1 = l2.
Proof.
  induction l1 as [|x l1 IH]; intros l2 Hs1 Hs2 Hk.
  - destruct l2 as [|y l2]; [reflexivity|].
    specialize (Hk (key y)). rewrite with_key_own_cons in Hk. discriminate.
  - destruct l2 as [|y l2].
    { specialize (Hk (key x)). rewrite with_key_own_cons in Hk. discriminate. }
    assert (Hxy : key x = key y).
    { assert (Hx2 : In x (y :: l2)).
      { apply (with_key_In key (key x) x (y :: l2)).
        rewrite <- Hk, with_key_own_cons. left. reflexivity. }
      assert (Hy1 : In y (x :: l1)).
      { apply (with_key_In key (key y) y (x :: l1)).
        rewrite Hk, with_key_own_cons. left. reflexivity. }
      pose proof (ascending_Z_head key _ _ _ Hs2 Hx2).
      pose proof (ascending_Z_head key _ _ _ Hs1 Hy1). lia. }
    assert (Heq : x = y).
    { pose proof (Hk (key x)) as Hkx.
      rewrite with_key_own_cons in Hkx. rewrite Hxy in Hkx at 2.
      rewrite with_key_own_cons in Hkx. inversion Hkx. reflexivity. }
    subst y. f_equal.
    apply ascending_cons_inv in Hs1, Hs2.
    apply IH; [apply Hs1 | apply Hs2|].
    intro k. specialize (Hk k).
    rewrite (with_key_cons key k x l1), (with_key_cons key k x l2) in Hk.
    destruct (key_eqb key k x); [inversion Hk; reflexivity | exact Hk].
Qed.

(** X9. For integer or datetime keys [merge_sort] returns the one list that
    is ascending and keeps the elements of each key in input order: every
    stable ascending rearrangement of the input is equal to it, the result
    of the built-in stable sort among them. *)
Theorem merge_sort_is_the_stable_sort {A : Type} (key : A -> Z)
  (l l' : list A) :
  ascending key l' ->
  stable_wrt key l l' ->
  l' = merge_sort key l.
Proof.
  intros Hs Hst.
  destruct (merge_sort_spec key l) as (_ & Hms & Hmst).
  apply (stable_sort_unique key); [exact Hs | exact Hms|].
  intro k. rewrite (Hst k), (Hmst k). reflexivity.
Qed.

Lemma merge_sort_is_the_stable_sort_witness :
  let key := fun p : Z * string => fst p in
  let l := [(3, "a"); (1, "b"); (3, "c"); (2, "d"); (1, "e")]%string in
  list_sort key l = merge_sort key l.
Proof.
  intros key l.
  apply (merge_sort_is_the_stable_sort key l (list_sort key l)).
  - apply list_sort_spec.
  - apply list_sort_spec.
Defined.

(** ** Further properties of analyze_task_density *)

(** X10. For two datetimes less than 2^32 seconds (some 136 years) apart,
    the hour count that [analyze_task_density] takes through the float
    [total_seconds() // 3600] is the exact whole number of hours between
    them. *)
Theorem float_hours_exact_below_136_years (first final : datetime) :
  0 <= final - first < 2 ^ 32 * 1000000 ->
  span_hours first final = (final - first) / US_PER_HOUR.
Proof. apply span_hours_exact. Qed.

Lemma float_hours_exact_below_136_years_witness :
  span_hours (deadline calculus_assignment) (deadline project_report)
  = (deadline project_report - deadline calculus_assignment) / US_PER_HOUR.
Proof.
  apply float_hours_exact_below_136_years.
  vm_compute. split; [discriminate | reflexivity].
Defined.

(** X11. On a non-empty store whose deadlines are datetimes less than 2^32
    seconds apart, [analyze_task_density] computes one bucket per whole
    hour from the earliest deadline, none after the latest, in ascending
    order, and for each bucket the number of tasks due at or before it. *)
Theorem analyze_task_density_buckets (m : TaskManager) :
  let deadlines := map (fun e => deadline (entry_task e)) (tasks m) in
  tasks m <> [] ->
  Forall valid_datetime deadlines ->
  (forall a b, In a deadlines -> In b deadlines -> b - a < 2 ^ 32 * 1000000) ->
  exists first final,
    In first deadlines /\ In final deadlines /\
    Forall (fun d => first <= d <= final) deadlines /\
    let times :=
      map (fun i => first + i * US_PER_HOUR)
          (range ((final - first) / US_PER_HOUR + 1)) in
    Forall (fun t => first <= t <= final) times /\
    StronglySorted Z.lt times /\
    analyze_task_density m =
    Ok (Some (times,
              map (fun time =>
                     Z.of_nat (length (filter (fun d => d <=? time) deadlines)))
                  times),
        m).
Proof. apply analyze_task_density_spec. Qed.

Lemma seeded_density_hypotheses :
  let deadlines := map (fun e => deadline (entry_task e)) (tasks seeded) in
  tasks seeded <> [] /\
  Forall valid_datetime deadlines /\
  (forall a b, In a deadlines -> In b deadlines -> b - a < 2 ^ 32 * 1000000).
Proof.
  split; [discriminate|]. split.
  - repeat constructor; vm_compute; discriminate.
  - intros a b Ha Hb.
    cbn in Ha, Hb.
    destruct Ha as [Ha|[Ha|[Ha|[]]]], Hb as [Hb|[Hb|[Hb|[]]]]; subst a b;
      vm_compute; reflexivity.
Qed.

Lemma analyze_task_density_buckets_witness :
  let deadlines := map (fun e => deadline (entry_task e)) (tasks seeded) in
  exists first final,
    In first deadlines /\ In final deadlines /\
    Forall (fun d => first <= d <= final) deadlines /\
    let times :=
      map (fun i => first + i * US_PER_HOUR)
          (range ((final - first) / US_PER_HOUR + 1)) in
    Forall (fun t => first <= t <= final) times /\
    StronglySorted Z.lt times /\
    analyze_task_density seeded =
    Ok (Some (times,
              map (fun time =>
                     Z.of_nat (length (filter (fun d => d <=? time) deadlines)))
                  times),
        seeded).
Proof.
  apply (analyze_task_density_buckets seeded);
    apply seeded_density_hypotheses.
Defined.

Lemma filter_length_le {A : Type} (f : A -> bool) (l : list A) :
  (length (filter f l) <= length l)%nat.
Proof.
  induction l as [|a l IH]; cbn [filter length]; [lia|].
  destruct (f a); cbn [length]; lia.
Qed.

Lemma filter_length_all {A : Type} (f : A -> bool) (l : list A) :
  length (filter f l) = length l <-> Forall (fun a => f a = true) l.
Proof.
  induction l as [|a l IH]; cbn [filter length].
  - split; [constructor | reflexivity].
  - pose proof (filter_length_le f l) as Hle.
    destruct (f a) eqn:Hfa; cbn [length].
    + split.
      * intro Hlen. constructor; [exact Hfa | apply IH; lia].
      * intro Hall. inversion Hall; subst. f_equal. apply IH. assumption.
    + split; [lia|]. intro Hall. inversion Hall; subst. congruence.
Qed.

Lemma filter_length_mono {A : Type} (f g : A -> bool) (l : list A) :
  (forall a, f a = true -> g a = true) ->
  (length (filter f l) <= length (filter g l))%nat.
Proof.
  intro Hfg. induction l as [|a l IH]; cbn [filter length]; [lia|].
  destruct (f a) eqn:Hfa.
  - rewrite (Hfg a Hfa). cbn [length]. lia.
  - destruct (g a); cbn [length]; lia.
Qed.

(** The number of deadlines at or before a time. *)
Lemma due_count_bounds (deadlines : list datetime) (first final t : datetime) :
  In first deadlines ->
  Forall (fun d => first <= d <= final) deadlines ->
  first <= t ->
  1 <= Z.of_nat (length (filter (fun d => d <=? t) deadlines))
    <= Z.of_nat (length deadlines).
Proof.
  intros Hfirst Hb Ht. split; [|apply Nat2Z.inj_le, filter_length_le].
  assert (Hin : In first (filter (fun d => d <=? t) deadlines))
    by (apply filter_In; split; [exact Hfirst | apply Z.leb_le; exact Ht]).
  destruct (filter (fun d => d <=? t) deadlines); [contradiction|].
  cbn [length]. lia.
Qed.

Lemma due_counts_ascending (deadlines ts : list datetime) :
  StronglySorted Z.lt ts ->
  StronglySorted Z.le
    (map (fun time =>
            Z.of_nat (length (filter (fun d => d <=? time) deadlines))) ts).
Proof.
  induction 1 as [|t ts Hts IH Ht]; cbn [map]; constructor; [exact IH|].
  apply Forall_map, Forall_forall. intros t' Ht'.
  rewrite Forall_forall in Ht. specialize (Ht t' Ht').
  apply Nat2Z.inj_le, filter_length_mono.
  intros d Hd. apply Z.leb_le in Hd. apply Z.leb_le. lia.
Qed.

(** X12. Under the conditions of X11 the counts that the analysis plots
    never decrease, each lies between 1 and the number of tasks, and the
    last one reaches the number of tasks exactly when the latest deadline
    is a whole number of hours after the earliest: otherwise the tasks due
    after the last bucket are missing from the plot. *)
Theorem analyze_task_density_counts (m m' : TaskManager)
  (times : list datetime) (values : list Z) :
  let deadlines := map (fun e => deadline (entry_task e)) (tasks m) in
  tasks m <> [] ->
  Forall valid_datetime deadlines ->
  (forall a b, In a deadlines -> In b deadlines -> b - a < 2 ^ 32 * 1000000) ->
  analyze_task_density m = Ok (Some (times, values), m') ->
  StronglySorted Z.le values /\
  Forall (fun v => 1 <= v <= Z.of_nat (length (tasks m))) values /\
  exists first final,
    In first deadlines /\ In final deadlines /\
    Forall (fun d => first <= d <= final) deadlines /\
    (last values 0 = Z.of_nat (length (tasks m)) <->
     (final - first) mod US_PER_HOUR = 0).
Proof.
  intros deadlines Hne Hvalid Hspan Hrun.
  destruct (analyze_task_density_spec m Hne Hvalid Hspan)
    as (first & final & Hfirst & Hfinal & Hb & Hspec).
  cbv zeta in Hspec. fold deadlines in Hspec.
  destruct Hspec as (Htb & Hts & Hrun').
  rewrite Hrun' in Hrun. injection Hrun as Htimes Hvalues Hm.
  subst times values m'. clear Hrun'.
  assert (Hlen : length deadlines = length (tasks m))
    by (unfold deadlines; apply length_map).
  set (n := (final - first) / US_PER_HOUR) in *.
  assert (Hspan0 : 0 <= final - first).
  { rewrite Forall_forall in Hb. specialize (Hb _ Hfinal). lia. }
  assert (Hn : 0 <= n) by (apply Z.div_pos; unfold US_PER_HOUR; lia).
  split; [|split].
  - apply due_counts_ascending. exact Hts.
  - apply Forall_map, Forall_forall. intros t Ht.
    rewrite Forall_forall in Htb. specialize (Htb t Ht).
    rewrite <- Hlen. apply (due_count_bounds deadlines first final);
      [exact Hfirst | exact Hb | lia].
  - exists first, final. split; [exact Hfirst|]. split; [exact Hfinal|].
    split; [exact Hb|].
    rewrite range_succ by exact Hn. rewrite !map_app. cbn [map].
    rewrite last_last, <- Hlen.
    rewrite Nat2Z.inj_iff, filter_length_all, Forall_forall.
    pose proof (Z.div_mod (final - first) US_PER_HOUR
                  ltac:(unfold US_PER_HOUR; lia)) as Hdm.
    pose proof (Z.mod_pos_bound (final - first) US_PER_HOUR
                  ltac:(unfold US_PER_HOUR; lia)) as Hmod.
    fold n in Hdm. split.
    + intro Hall. specialize (Hall final Hfinal). apply Z.leb_le in Hall. lia.
    + intros Hz d Hd. apply Z.leb_le.
      rewrite Forall_forall in Hb. specialize (Hb d Hd). lia.
Qed.

Lemma analyze_task_density_counts_witness :
  let deadlines := map (fun e => deadline (entry_task e)) (tasks seeded) in
  let times := [63929322000000000; 63929325600000000; 63929329200000000;
                63929332800000000; 63929336400000000; 63929340000000000;
                63929343600000000; 63929347200000000] in
  let values := [1; 1; 1; 2; 2; 2; 2; 3] in
  StronglySorted Z.le values /\
  Forall (fun v => 1 <= v <= Z.of_nat (length (tasks seeded))) values /\
  exists first final,
    In first deadlines /\ In final deadlines /\
    Forall (fun d => first <= d <= final) deadlines /\
    (last values 0 = Z.of_nat (length (tasks seeded)) <->
     (final - first) mod US_PER_HOUR = 0).
Proof.
  intros deadlines times values.
  apply (analyze_task_density_counts seeded seeded times values);
    try apply seeded_density_hypotheses.
  vm_compute. reflexivity.
Defined.

(** ** Further properties of mark_task_as_completed *)

(** The two outcomes of [mark_task_as_completed], read off the search. *)
Lemma mark_task_as_completed_cases (task_name : string) (m : TaskManager) :
  (exists l1 e l2,
     tasks m = l1 ++ e :: l2 /\
     name (entry_task e) = task_name /\
     Forall (fun e' => name (entry_task e') <> task_name) l1 /\
     mark_task_as_completed task_name m =
     Ok (marked_as_completed,
         mkTaskManager (l1 ++ l2) (schedule m)
                       (completed_tasks m ++ [entry_task e]))) \/
  (Forall (fun e => name (entry_task e) <> task_name) (tasks m) /\
   mark_task_as_completed task_name m = Ok (not_found, m)).
Proof.
  unfold mark_task_as_completed, mbind, get_tasks, append_completed,
    put_tasks, ret.
  destruct (find_named task_name 0 (tasks m)) as [[j t]|] eqn:Hfind.
  - left. destruct (find_named_Some _ _ _ _ _ Hfind)
      as (l1 & e & l2 & Hl & Hj & He & Hn & Hall).
    exists l1, e, l2. subst t j. repeat split; try assumption.
    cbn. rewrite Hl, list_del_middle. reflexivity.
  - right. split; [|reflexivity]. eapply find_named_None. exact Hfind.
Qed.

Lemma named_none (task_name : string) (l : list entry) :
  Forall (fun e => name (entry_task e) <> task_name) l <->
  named task_name l = [].
Proof.
  unfold named. induction l as [|e l IH]; cbn [filter].
  - split; [reflexivity | constructor].
  - destruct (String.eqb_spec (name (entry_task e)) task_name) as [Heq|Hne].
    + split; [|discriminate]. intro Hall. inversion Hall; contradiction.
    + rewrite <- IH. split.
      * intro Hall. inversion Hall; assumption.
      * intro Hall. constructor; assumption.
Qed.

(** A completion moves one task from the store to the completed tasks, or
    nothing at all. *)
Lemma mark_task_as_completed_Permutation (task_name : string)
  (m m' : TaskManager) (report : completion_report) :
  mark_task_as_completed task_name m = Ok (report, m') ->
  Permutation (map entry_task (tasks m') ++ completed_tasks m')
              (map entry_task (tasks m) ++ completed_tasks m) /\
  schedule m' = schedule m.
Proof.
  intro Hrun.
  destruct (mark_task_as_completed_cases task_name m)
    as [(l1 & e & l2 & Hl & _ & _ & Hrun')|[_ Hrun']];
    rewrite Hrun' in Hrun; inversion Hrun; subst; clear Hrun;
    cbn [tasks completed_tasks schedule]; [|split; reflexivity].
  split; [|reflexivity].
  rewrite Hl, !map_app. cbn [map]. rewrite <- !app_assoc. cbn [app].
  apply Permutation_app_head. rewrite app_assoc.
  symmetry. apply Permutation_cons_append.
Qed.

(** X13. [mark_task_as_completed] loses and invents nothing: the tasks of
    the store together with the completed tasks are the same tasks after
    the call as before.  It does not touch [self.schedule], so a task that
    was completed stays in a schedule computed earlier. *)
Theorem mark_task_as_completed_conserves (task_name : string)
  (m m' : TaskManager) (report : completion_report) :
  mark_task_as_completed task_name m = Ok (report, m') ->
  Permutation (map entry_task (tasks m') ++ completed_tasks m')
              (map entry_task (tasks m) ++ completed_tasks m) /\
  schedule m' = schedule m.
Proof. apply mark_task_as_completed_Permutation. Qed.

Lemma mark_task_as_completed_conserves_witness :
  let m' := mkTaskManager
              [entry_of calculus_assignment; entry_of self_care] []
              [project_report] in
  Permutation (map entry_task (tasks m') ++ completed_tasks m')
              (map entry_task (tasks seeded) ++ completed_tasks seeded) /\
  schedule m' = schedule seeded.
Proof.
  intro m'.
  apply (mark_task_as_completed_conserves "Project Report" seeded m'
           marked_as_completed).
  reflexivity.
Defined.

(** X14. The call reports "not found" exactly when no stored task has the
    name.  Otherwise the first stored task of that name leaves the store,
    the later tasks of that name stay, and the tasks of every other name
    stay as they were, in their order. *)
Theorem mark_task_as_completed_by_name (task_name : string)
  (m m' : TaskManager) (report : completion_report) :
  mark_task_as_completed task_name m = Ok (report, m') ->
  (report = not_found <-> named task_name (tasks m) = []) /\
  (report = marked_as_completed ->
   exists e,
     named task_name (tasks m) = e :: named task_name (tasks m') /\
     completed_tasks m' = completed_tasks m ++ [entry_task e]) /\
  (forall other, other <> task_name ->
     named other (tasks m') = named other (tasks m)).
Proof.
  intro Hrun.
  destruct (mark_task_as_completed_cases task_name m)
    as [(l1 & e & l2 & Hl & Hname & Hall & Hrun')|[Hall Hrun']];
    rewrite Hrun' in Hrun; inversion Hrun; subst report m'; clear Hrun;
    cbn [tasks completed_tasks].
  - assert (Hl1 : named task_name l1 = []) by (apply named_none; exact Hall).
    assert (He : named task_name (l1 ++ e :: l2)
                 = e :: named task_name (l1 ++ l2)).
    { unfold named in *. rewrite !filter_app, Hl1. cbn [filter app].
      replace (String.eqb (name (entry_task e)) task_name) with true
        by (symmetry; apply String.eqb_eq; exact Hname).
      reflexivity. }
    split; [|split].
    + rewrite Hl, He. split; discriminate.
    + intros _. exists e. rewrite Hl. split; [exact He | reflexivity].
    + intros other Hother. rewrite Hl. unfold named.
      rewrite !filter_app. cbn [filter].
      replace (String.eqb (name (entry_task e)) other) with false;
        [reflexivity|].
      symmetry. apply String.eqb_neq. congruence.
  - split; [|split].
    + split; [intros _; apply named_none; exact Hall | reflexivity].
    + discriminate.
    + reflexivity.
Qed.

Lemma mark_task_as_completed_by_name_witness :
  let m' := mkTaskManager
              [entry_of calculus_assignment; entry_of self_care] []
              [project_report] in
  (marked_as_completed = not_found <->
   named "Project Report" (tasks seeded) = []) /\
  (marked_as_completed = marked_as_completed ->
   exists e,
     named "Project Report" (tasks seeded)
     = e :: named "Project Report" (tasks m') /\
     completed_tasks m' = completed_tasks seeded ++ [entry_task e]) /\
  (forall other, other <> "Project Report"%string ->
     named other (tasks m') = named other (tasks seeded)).
Proof.
  intro m'.
  apply (mark_task_as_completed_by_name "Project Report" seeded m'
           marked_as_completed).
  reflexivity.
Defined.

(** X15. Adding a task under a name that no stored task has and then
    completing that name gives back the store that was there (up to the
    heap's rearrangement), with the task at the end of the completed
    tasks. *)
Theorem add_then_complete_round_trip (task : Task) (m m1 : TaskManager) :
  Forall (fun e => name (entry_task e) <> name task) (tasks m) ->
  add_task task m = Ok (tt, m1) ->
  exists m2,
    mark_task_as_completed (name task) m1 = Ok (marked_as_completed, m2) /\
    Permutation (tasks m2) (tasks m) /\
    completed_tasks m2 = completed_tasks m ++ [task] /\
    schedule m2 = schedule m.
Proof.
  intros Hfresh Hadd.
  destruct (add_task_Ok _ _ _ Hadd) as (Hp & Hs & Hc).
  destruct (mark_task_as_completed_cases (name task) m1)
    as [(l1 & e & l2 & Hl & Hname & Hall & Hrun)|[Hall Hrun]].
  - assert (He : e = entry_of task).
    { assert (Hin : In e (entry_of task :: tasks m)).
      { eapply Permutation_in; [exact Hp|]. rewrite Hl.
        apply in_elt. }
      destruct Hin as [Heq|Hin]; [symmetry; exact Heq|].
      exfalso. rewrite Forall_forall in Hfresh.
      exact (Hfresh e Hin Hname). }
    subst e. eexists. split; [exact Hrun|].
    cbn [tasks completed_tasks schedule]. rewrite Hs, Hc.
    split; [|split; reflexivity].
    apply Permutation_cons_inv with (a := entry_of task).
    rewrite <- Hp, Hl. apply Permutation_middle.
  - exfalso. rewrite Forall_forall in Hall.
    apply (Hall (entry_of task)); [|reflexivity].
    eapply Permutation_in; [symmetry; exact Hp | left; reflexivity].
Qed.

Lemma add_then_complete_round_trip_witness :
  let m := mkTaskManager
             [entry_of calculus_assignment; entry_of project_report] [] [] in
  exists m2,
    mark_task_as_completed (name self_care) seeded
    = Ok (marked_as_completed, m2) /\
    Permutation (tasks m2) (tasks m) /\
    completed_tasks m2 = completed_tasks m ++ [self_care] /\
    schedule m2 = schedule m.
Proof.
  intro m.
  apply (add_then_complete_round_trip self_care m seeded).
  - repeat constructor; discriminate.
  - reflexivity.
Defined.

(** X16. A task that [add_task] has stored is in the list that
    [get_upcoming_tasks] returns next, once more than it was in the store
    before. *)
Theorem add_then_upcoming (task : Task) (m m1 : TaskManager) :
  add_task task m = Ok (tt, m1) ->
  exists upcoming,
    get_upcoming_tasks m1 = Ok (upcoming, m1) /\
    In task upcoming /\
    Permutation upcoming (task :: map entry_task (tasks m)).
Proof.
  intro Hadd. destruct (add_task_Ok _ _ _ Hadd) as (Hp & _ & _).
  exists (map entry_task (merge_sort entry_deadline (tasks m1))).
  destruct (merge_sort_spec entry_deadline (tasks m1)) as (Hms & _ & _).
  assert (Hperm : Permutation
                    (map entry_task (merge_sort entry_deadline (tasks m1)))
                    (task :: map entry_task (tasks m))).
  { rewrite <- Hms, Hp. reflexivity. }
  split; [reflexivity|]. split; [|exact Hperm].
  eapply Permutation_in; [symmetry; exact Hperm | left; reflexivity].
Qed.

Lemma add_then_upcoming_witness :
  let m := mkTaskManager
             [entry_of calculus_assignment; entry_of project_report] [] [] in
  exists upcoming,
    get_upcoming_tasks seeded = Ok (upcoming, seeded) /\
    In self_care upcoming /\
    Permutation upcoming (self_care :: map entry_task (tasks m)).
Proof.
  intro m. apply (add_then_upcoming self_care m seeded). reflexivity.
Defined.

(** ** plot_gantt_chart *)

Lemma min_of_le (l : list Z) (x : Z) :
  min_of x l <= x /\ Forall (fun y => min_of x l <= y) l.
Proof.
  unfold min_of. revert x. induction l as [|y l IH]; intro x; cbn [fold_left].
  - split; [lia | constructor].
  - destruct (IH (Z.min x y)) as [Hm Hall]. split; [lia|].
    constructor; [lia | exact Hall].
Qed.

Lemma min_of_In (l : list Z) (x : Z) : In (min_of x l) (x :: l).
Proof.
  unfold min_of. revert x. induction l as [|y l IH]; intro x; cbn [fold_left].
  - left. reflexivity.
  - destruct (IH (Z.min x y)) as [Heq|Hin].
    + rewrite <- Heq.
      destruct (Z.min_spec x y) as [[_ Hm]|[_ Hm]]; rewrite Hm.
      * left. reflexivity.
      * right. left. reflexivity.
    + right. right. exact Hin.
Qed.

Lemma max_of_ge (l : list Z) (x : Z) :
  x <= max_of x l /\ Forall (fun y => y <= max_of x l) l.
Proof.
  unfold max_of. revert x. induction l as [|y l IH]; intro x; cbn [fold_left].
  - split; [lia | constructor].
  - destruct (IH (Z.max x y)) as [Hm Hall]. split; [lia|].
    constructor; [lia | exact Hall].
Qed.

Lemma datetime_sub_Ok (t : datetime) (d : timedelta) (r : datetime) :
  datetime_sub t d = Ok r -> r = t - d /\ valid_datetime r.
Proof.
  unfold datetime_sub, valid_datetimeb, valid_datetime.
  destruct (_ && _) eqn:Hv; [|discriminate].
  intro Heq. inversion Heq; subst.
  apply andb_prop in Hv. destruct Hv as [H0 H1].
  apply Z.leb_le in H0, H1. split; [reflexivity | lia].
Qed.

(** The bar of a task ends at the task's deadline. *)
Lemma bar_of_Ok (task : Task) (b : bar) :
  bar_of task = Ok b ->
  bar_start b + bar_width b = deadline task /\
  bar_width b = duration task * US_PER_MINUTE /\
  0 <= bar_start b /\
  bar_row b = match task_type task with academic => 15 | personal => 25 end /\
  bar_label b = name task.
Proof.
  unfold bar_of.
  destruct (timedelta_minutes (duration task)) as [us|e] eqn:Hus;
    [|discriminate].
  cbn [bind].
  destruct (datetime_sub (deadline task) us) as [start|e] eqn:Hstart;
    [|discriminate].
  cbn [bind]. intro Heq. inversion Heq; subst b. cbn.
  apply timedelta_minutes_Ok in Hus.
  apply datetime_sub_Ok in Hstart. destruct Hstart as [Hs Hv].
  unfold valid_datetime in Hv.
  repeat split; try reflexivity; lia.
Qed.

Lemma mapM_Forall2 {A B : Type} (f : A -> result B) (l : list A)
  (r : list B) :
  mapM f l = Ok r -> Forall2 (fun a b => f a = Ok b) l r.
Proof.
  revert r. induction l as [|a l IH]; intros r Hrun.
  - inversion Hrun. constructor.
  - cbn [mapM] in Hrun.
    destruct (f a) as [b|e] eqn:Hfa; [|discriminate]. cbn [bind] in Hrun.
    destruct (mapM f l) as [r'|e] eqn:Hl; [|discriminate].
    inversion Hrun; subst r. constructor; [exact Hfa | apply IH; reflexivity].
Qed.

(** What a chart that was produced holds. *)
Lemma plot_gantt_chart_Ok (tasks : list Task) (c : chart) :
  plot_gantt_chart tasks = Ok (Some c) ->
  Forall2 (fun task b => bar_of task = Ok b) tasks (bars c) /\
  In (fst (xlim c)) (map deadline tasks) /\
  Forall (fun task =>
            fst (xlim c) <= deadline task <= snd (xlim c) - 60 * US_PER_MINUTE)
         tasks.
Proof.
  destruct tasks as [|task rest]; [discriminate|].
  unfold plot_gantt_chart.
  change (timedelta_minutes 60) with (@Ok timedelta (60 * US_PER_MINUTE)).
  cbn [bind].
  destruct (datetime_add (max_of (deadline task) (map deadline rest))
              (60 * US_PER_MINUTE)) as [right|e] eqn:Hright; [|discriminate].
  cbn [bind].
  destruct (mapM bar_of (task :: rest)) as [bs|e] eqn:Hbars; [|discriminate].
  cbn [bind]. intro Heq. inversion Heq; subst c. cbn [bars xlim fst snd].
  apply datetime_add_Ok in Hright. destruct Hright as [Hright _].
  split; [apply mapM_Forall2; exact Hbars|].
  split; [apply (min_of_In (map deadline rest) (deadline task))|].
  destruct (min_of_le (map deadline rest) (deadline task)) as [Hmin Hmins].
  destruct (max_of_ge (map deadline rest) (deadline task)) as [Hmax Hmaxs].
  constructor; [lia|].
  rewrite Forall_map in Hmins, Hmaxs. rewrite Forall_forall in *.
  intros t Ht. specialize (Hmins t Ht). specialize (Hmaxs t Ht). lia.
Qed.

(** X17. A chart that [plot_gantt_chart] produces has one bar per task, in
    the order of the list, labelled with the task's name, on row 15 for an
    academic and row 25 for a personal task, as wide as the task's duration
    and ending at the task's own deadline, whatever the place of the task
    in the schedule. *)
Theorem plot_gantt_chart_bars (tasks : list Task) (c : chart) :
  plot_gantt_chart tasks = Ok (Some c) ->
  Forall2 (fun task b =>
             bar_start b + bar_width b = deadline task /\
             bar_width b = duration task * US_PER_MINUTE /\
             bar_row b = match task_type task with
                         | academic => 15
                         | personal => 25
                         end /\
             bar_label b = name task)
          tasks (bars c).
Proof.
  intro Hrun. apply plot_gantt_chart_Ok in Hrun. destruct Hrun as [Hbars _].
  induction Hbars as [|task b tasks' bs Hb Hrest IH]; constructor.
  - apply bar_of_Ok in Hb. tauto.
  - exact IH.
Qed.

Lemma plot_gantt_chart_seeded :
  exists c,
    plot_gantt_chart [calculus_assignment; project_report; self_care]
    = Ok (Some c).
Proof. eexists. vm_compute. reflexivity. Qed.

Lemma plot_gantt_chart_bars_witness :
  exists c,
    Forall2 (fun task b =>
               bar_start b + bar_width b = deadline task /\
               bar_width b = duration task * US_PER_MINUTE /\
               bar_row b = match task_type task with
                           | academic => 15
                           | personal => 25
                           end /\
               bar_label b = name task)
            [calculus_assignment; project_report; self_care] (bars c).
Proof.
  destruct plot_gantt_chart_seeded as [c Hc]. exists c.
  exact (plot_gantt_chart_bars _ c Hc).
Defined.



Lemma max_of_In (l : list Z) (x : Z) : In (max_of x l) (x :: l).
Proof.
  unfold max_of. revert x. induction l as [|y l IH]; intro x; cbn [fold_left].
  - left. reflexivity.
  - destruct (IH (Z.max x y)) as [Heq|Hin].
    + rewrite <- Heq.
      destruct (Z.max_spec x y) as [[_ Hm]|[_ Hm]]; rewrite Hm.
      * right. left. reflexivity.
      * left. reflexivity.
    + right. right. exact Hin.
Qed.

(** The bar of a task that fits between [datetime.min] and its deadline. *)
Lemma bar_of_returns (task : Task) :
  0 <= duration task ->
  0 <= deadline task - duration task * US_PER_MINUTE ->
  deadline task <= DATETIME_MAX ->
  bar_of task =
  Ok (mkBar (deadline task - duration task * US_PER_MINUTE)
            (duration task * US_PER_MINUTE)
            (match task_type task with academic => 15 | personal => 25 end)
            9
            (match task_type task with
             | academic => skyblue
             | personal => salmon
             end)
            (name task)).
Proof.
  intros Hdur Hstart Hmax. unfold bar_of.
  assert (Htd : timedelta_minutes (duration task)
                = Ok (duration task * US_PER_MINUTE)).
  { unfold timedelta_minutes, US_PER_MINUTE, US_PER_DAY, TIMEDELTA_MAX_DAYS,
      DATETIME_MAX in *.
    assert (0 <= duration task * 60000000 / 86400000000 <= 999999999).
    { split; [apply Z.div_pos; lia|]. apply Z.div_le_upper_bound; lia. }
    replace (- (999999999) <=? duration task * 60000000 / 86400000000)
      with true by (symmetry; apply Z.leb_le; lia).
    replace (duration task * 60000000 / 86400000000 <=? 999999999)
      with true by (symmetry; apply Z.leb_le; lia).
    reflexivity. }
  rewrite Htd. cbn [bind]. unfold datetime_sub, valid_datetimeb.
  replace (0 <=? deadline task - duration task * US_PER_MINUTE)
    with true by (symmetry; apply Z.leb_le; exact Hstart).
  replace (deadline task - duration task * US_PER_MINUTE <=? DATETIME_MAX)
    with true
    by (symmetry; apply Z.leb_le; unfold US_PER_MINUTE in *; lia).
  reflexivity.
Qed.

(** X19. Menu choice 3 plots what [schedule_tasks] returned.  When no
    duration is negative, the current time is a datetime and every deadline
    is at least an hour before [datetime.max], [plot_gantt_chart] returns a
    chart for every non-empty schedule, and no bar of it starts before the
    current time. *)
Theorem schedule_then_plot (now : datetime) (m m' : TaskManager)
  (sched : list Task) :
  store_wf (tasks m) ->
  0 <= now ->
  Forall (fun e =>
            0 <= duration (entry_task e) /\
            entry_deadline e <= DATETIME_MAX - 60 * US_PER_MINUTE)
         (tasks m) ->
  schedule_tasks now m = Ok (sched, m') ->
  sched <> [] ->
  exists c,
    plot_gantt_chart sched = Ok (Some c) /\
    length (bars c) = length sched /\
    Forall (fun b => now <= bar_start b) (bars c).
Proof.
  intros Hwf Hnow Hok Hrun Hne.
  destruct (schedule_tasks_Ok _ _ _ _ Hrun) as (s & Hs & Hloop & _).
  pose proof (sorted_Permutation _ _ Hs) as Hp.
  assert (Hwfs : Forall (fun e => entry_deadline e = deadline (entry_task e))
                   s).
  { eapply Permutation_Forall; [exact Hp|]. apply store_wf_deadline, Hwf. }
  assert (Hoks := Permutation_Forall Hp Hok).
  assert (Hfit : Forall (fun t => now + duration t * US_PER_MINUTE
                                  <= deadline t) sched).
  { apply (schedule_loop_fits_from_now now s) with (current_time := now);
      [|lia|exact Hloop].
    rewrite Forall_forall in *. intros e He.
    destruct (Hoks e He). split; [apply Hwfs; exact He | assumption]. }
  assert (Hin : forall t, In t sched ->
                  0 <= duration t /\
                  deadline t <= DATETIME_MAX - 60 * US_PER_MINUTE).
  { intros t Ht.
    apply (subseq_In _ _ _ (schedule_loop_subseq _ _ _ Hloop)) in Ht.
    apply in_map_iff in Ht. destruct Ht as (e & He & Hine). subst t.
    rewrite Forall_forall in Hoks, Hwfs.
    destruct (Hoks e Hine) as [Hd Hm]. rewrite <- (Hwfs e Hine).
    split; assumption. }
  set (g := fun task =>
              mkBar (deadline task - duration task * US_PER_MINUTE)
                    (duration task * US_PER_MINUTE)
                    (match task_type task with
                     | academic => 15
                     | personal => 25
                     end)
                    9
                    (match task_type task with
                     | academic => skyblue
                     | personal => salmon
                     end)
                    (name task)).
  assert (Hbars : mapM bar_of sched = Ok (map g sched)).
  { apply mapM_Ok. apply Forall_forall. intros t Ht.
    rewrite Forall_forall in Hfit. specialize (Hfit t Ht).
    destruct (Hin t Ht) as [Hd Hm].
    apply bar_of_returns; unfold US_PER_MINUTE, DATETIME_MAX in *; lia. }
  destruct sched as [|task rest]; [contradiction|].
  unfold plot_gantt_chart.
  change (timedelta_minutes 60) with (@Ok timedelta (60 * US_PER_MINUTE)).
  cbn [bind].
  assert (Hmax : max_of (deadline task) (map deadline rest)
                 <= DATETIME_MAX - 60 * US_PER_MINUTE).
  { pose proof (max_of_In (map deadline rest) (deadline task)) as Hm.
    change (deadline task :: map deadline rest)
      with (map deadline (task :: rest)) in Hm.
    apply in_map_iff in Hm. destruct Hm as (t & Ht & Hint).
    rewrite <- Ht. apply Hin. exact Hint. }
  assert (Hmin : now <= max_of (deadline task) (map deadline rest)).
  { destruct (max_of_ge (map deadline rest) (deadline task)) as [Hge _].
    rewrite Forall_forall in Hfit. specialize (Hfit task (or_introl eq_refl)).
    destruct (Hin task (or_introl eq_refl)) as [Hd _].
    unfold US_PER_MINUTE in *. lia. }
  unfold datetime_add, valid_datetimeb.
  replace (0 <=? max_of (deadline task) (map deadline rest)
                 + 60 * US_PER_MINUTE)
    with true
    by (symmetry; apply Z.leb_le; unfold US_PER_MINUTE in *; lia).
  replace (max_of (deadline task) (map deadline rest) + 60 * US_PER_MINUTE
           <=? DATETIME_MAX)
    with true by (symmetry; apply Z.leb_le; lia).
  cbn [andb bind]. rewrite Hbars. cbn [bind].
  eexists. split; [reflexivity|]. cbn [bars].
  split; [apply length_map|].
  apply Forall_map, Forall_forall. intros t Ht. unfold g. cbn [bar_start].
  rewrite Forall_forall in Hfit. specialize (Hfit t Ht). lia.
Qed.

Lemma schedule_then_plot_witness :
  exists c,
    plot_gantt_chart [calculus_assignment; project_report; self_care]
    = Ok (Some c) /\
    length (bars c) = length [calculus_assignment; project_report; self_care] /\
    Forall (fun b => example_now <= bar_start b) (bars c).
Proof.
  apply (schedule_then_plot example_now seeded
           (mkTaskManager (tasks seeded)
              [calculus_assignment; project_report; self_care] [])).
  - exact store_wf_seeded.
  - discriminate.
  - repeat constructor; vm_compute; discriminate.
  - exact schedule_tasks_seeded.
  - discriminate.
Defined.

(** ** The shell *)

Lemma session_ok_Permutation (m m' : TaskManager) (stdin stdin' : list string)
  (reads reads' next : nat) :
  session_ok (mkSession m stdin reads next) ->
  store_wf (tasks m') ->
  Permutation (all_tasks m') (all_tasks m) ->
  session_ok (mkSession m' stdin' reads' next).
Proof.
  unfold session_ok. cbn [manager next_oid].
  intros (_ & Hnd & Hlt) Hwf Hp. split; [exact Hwf|]. split.
  - eapply Permutation_NoDup; [|exact Hnd].
    apply Permutation_map. symmetry. exact Hp.
  - eapply Permutation_Forall; [symmetry; exact Hp | exact Hlt].
Qed.

(** A new task object, stored by [add_task], keeps the session in order. *)
Lemma session_ok_add_task (s : session) (task : Task) (m : TaskManager)
  (stdin' : list string) (reads' : nat) :
  session_ok s ->
  oid task = next_oid s ->
  add_task task (manager s) = Ok (tt, m) ->
  session_ok (mkSession m stdin' reads' (S (next_oid s))).
Proof.
  unfold session_ok. cbn [manager next_oid].
  intros (Hwf & Hnd & Hlt) Hoid Hadd.
  pose proof (store_wf_add_task _ _ _ Hwf Hadd) as Hwf'.
  destruct (add_task_Ok _ _ _ Hadd) as (Hp & _ & Hc).
  assert (Hall : Permutation (all_tasks m) (task :: all_tasks (manager s))).
  { unfold all_tasks. rewrite Hc, Hp. reflexivity. }
  split; [exact Hwf'|]. split.
  - eapply Permutation_NoDup; [apply Permutation_map; symmetry; exact Hall|].
    cbn [map]. constructor; [|exact Hnd].
    intro Hin. apply in_map_iff in Hin. destruct Hin as (t & Ht & Hin).
    rewrite Forall_forall in Hlt. specialize (Hlt t Hin). lia.
  - eapply Permutation_Forall; [symmetry; exact Hall|].
    constructor; [lia|].
    eapply Forall_impl; [|exact Hlt]. intros t Ht. cbv beta in Ht. lia.
Qed.

Section ShellFacts.
Variable lower strip : string -> string.
Variable strptime : string -> option datetime.
Variable int : string -> option Z.
Variable clock : nat -> datetime.

Lemma read_task_type_shorter (lines rest : list string) (ty : TaskType) :
  read_task_type lower strip lines = Returned (ty, rest) ->
  (length rest < length lines)%nat.
Proof.
  induction lines as [|line lines IH]; cbn [read_task_type]; [discriminate|].
  destruct (String.eqb _ "academic");
    [intro Heq; inversion Heq; subst; cbn; lia|].
  destruct (String.eqb _ "personal");
    [intro Heq; inversion Heq; subst; cbn; lia|].
  intro Hrest. apply IH in Hrest. cbn. lia.
Qed.

Lemma read_deadline_shorter (lines rest : list string) (d : datetime) :
  read_deadline strptime lines = Returned (d, rest) ->
  (length rest < length lines)%nat.
Proof.
  induction lines as [|line lines IH]; cbn [read_deadline]; [discriminate|].
  destruct (strptime line);
    [intro Heq; inversion Heq; subst; cbn; lia|].
  intro Hrest. apply IH in Hrest. cbn. lia.
Qed.

Lemma read_int_shorter (lines rest : list string) (z : Z) :
  read_int int lines = Returned (z, rest) ->
  (length rest < length lines)%nat.
Proof.
  destruct lines as [|line lines]; cbn [read_int]; [discriminate|].
  destruct (int line); [|discriminate].
  intro Heq. inversion Heq; subst. cbn. lia.
Qed.

(** With fuel for the lines that are left the input loop ends; when it
    returns it has read at least the "done" line, has stored new task
    objects and nothing else, and the session is in order if it was. *)
Lemma get_user_input_loop_spec (fuel : nat) :
  forall s : session,
    (length (stdin s) < fuel)%nat ->
    exists r,
      get_user_input_loop lower strip strptime int fuel s = Some r /\
      forall s', r = Returned s' ->
        (length (stdin s') < length (stdin s))%nat /\
        clock_reads s' = clock_reads s /\
        (exists added,
           Permutation (tasks (manager s'))
                       (map entry_of added ++ tasks (manager s)) /\
           next_oid s' = (next_oid s + length added)%nat /\
           Forall (fun t => (next_oid s <= oid t < next_oid s')%nat) added) /\
        schedule (manager s') = schedule (manager s) /\
        completed_tasks (manager s') = completed_tasks (manager s) /\
        (session_ok s -> session_ok s').
Proof.
  clear clock.
  induction fuel as [|fuel IH]; intros s Hfuel; [lia|].
  cbn [get_user_input_loop].
  destruct (stdin s) as [|name rest] eqn:Hstdin.
  { eexists. split; [reflexivity | discriminate]. }
  destruct (String.eqb (lower name) "done").
  { eexists. split; [reflexivity|].
    intros s' Hs'. inversion Hs'; subst s'. cbn.
    split; [lia|]. split; [reflexivity|].
    split; [exists []; split; [reflexivity|]; split; [cbn; lia | constructor]|].
    split; [reflexivity|]. split; [reflexivity|].
    unfold session_ok. cbn. tauto. }
  destruct (read_task_type lower strip rest) as [[ty rest1]|e] eqn:Hty;
    [|eexists; split; [reflexivity | discriminate]].
  destruct (read_deadline strptime rest1) as [[dl rest2]|e] eqn:Hdl;
    [|eexists; split; [reflexivity | discriminate]].
  destruct (read_int int rest2) as [[pr rest3]|e] eqn:Hpr;
    [|eexists; split; [reflexivity | discriminate]].
  destruct (read_int int rest3) as [[du rest4]|e] eqn:Hdu;
    [|eexists; split; [reflexivity | discriminate]].
  apply read_task_type_shorter in Hty. apply read_deadline_shorter in Hdl.
  apply read_int_shorter in Hpr. apply read_int_shorter in Hdu.
  set (task := mkTask (next_oid s) name ty dl pr du).
  destruct (add_task task (manager s)) as [[[] m]|e] eqn:Hadd;
    [|eexists; split; [reflexivity | discriminate]].
  cbn in Hfuel.
  destruct (IH (mkSession m rest4 (clock_reads s) (S (next_oid s))))
    as (r & Hr & Hspec); [cbn; lia|].
  exists r. split; [exact Hr|].
  intros s' Hs'. destruct (Hspec s' Hs')
    as (Hlen & Hreads & (added & Hp & Hnext & Hids) & Hsched & Hcomp & Hok).
  cbn in Hlen, Hreads, Hp, Hnext, Hids, Hsched, Hcomp.
  destruct (add_task_Ok _ _ _ Hadd) as (Hp1 & Hs1 & Hc1).
  split; [cbn; lia|]. split; [exact Hreads|].
  split; [|split; [congruence | split; [congruence|]]].
  - exists (added ++ [task]). split; [|split].
    + rewrite Hp, Hp1, map_app, <- app_assoc. reflexivity.
    + rewrite length_app. cbn. lia.
    + apply Forall_app. split.
      * eapply Forall_impl; [|exact Hids]. intros t Ht. cbv beta in Ht. lia.
      * constructor; [|constructor]. cbn. lia.
  - intro Hoks. apply Hok.
    apply (session_ok_add_task s task m); [exact Hoks | reflexivity | exact Hadd].
Qed.

(** What a method called from the menu leaves of the session. *)
Lemma call_keeps (A : Type) (c : M A) (s s' : session) (reads : nat) (a : A) :
  (forall m v m', c m = Ok (v, m') ->
                  store_wf (tasks m) ->
                  store_wf (tasks m') /\
                  Permutation (all_tasks m') (all_tasks m)) ->
  call c s reads = Returned (a, s') ->
  stdin s' = stdin s /\
  next_oid s' = next_oid s /\
  (session_ok s -> session_ok s').
Proof.
  intros Hkeeps. unfold call.
  destruct (c (manager s)) as [[v m]|e] eqn:Hc; [|discriminate].
  intro Heq. inversion Heq; subst a s'. cbn [stdin next_oid].
  split; [reflexivity|]. split; [reflexivity|].
  intro Hok. destruct s as [m0 stdin0 reads0 next0]. cbn [manager] in *.
  assert (Hwf0 : store_wf (tasks m0)) by apply Hok.
  destruct (Hkeeps _ _ _ Hc Hwf0) as [Hwf Hp].
  eapply session_ok_Permutation; eassumption.
Qed.

Lemma keeps_same_manager (A : Type) (c : M A) :
  (forall m v m', c m = Ok (v, m') -> m' = m) ->
  forall m v m', c m = Ok (v, m') ->
                 store_wf (tasks m) ->
                 store_wf (tasks m') /\
                 Permutation (all_tasks m') (all_tasks m).
Proof.
  intros Hsame m v m' Hc Hwf. apply Hsame in Hc. subst m'.
  split; [exact Hwf | reflexivity].
Qed.

Lemma get_upcoming_tasks_same (m : TaskManager) (v : list Task)
  (m' : TaskManager) :
  get_upcoming_tasks m = Ok (v, m') -> m' = m.
Proof.
  unfold get_upcoming_tasks, mbind, get_tasks, ret.
  intro Heq. inversion Heq. reflexivity.
Qed.

Lemma analyze_task_density_same (m : TaskManager)
  (v : option (list datetime * list Z)) (m' : TaskManager) :
  analyze_task_density m = Ok (v, m') -> m' = m.
Proof.
  unfold analyze_task_density, mbind, get_tasks, lift.
  destruct (density _); [|discriminate].
  intro Heq. inversion Heq. reflexivity.
Qed.

Lemma remind_tasks_same (now : datetime) (m : TaskManager)
  (v : list Task * list Task) (m' : TaskManager) :
  remind_tasks now m = Ok (v, m') -> m' = m.
Proof.
  unfold remind_tasks, mbind, get_tasks, ret.
  destruct (remind_loop now [] [] (tasks m)).
  intro Heq. inversion Heq. reflexivity.
Qed.

Lemma view_completed_tasks_same (m : TaskManager) (v : list Task)
  (m' : TaskManager) :
  view_completed_tasks m = Ok (v, m') -> m' = m.
Proof.
  unfold view_completed_tasks, get_completed_tasks.
  intro Heq. inversion Heq. reflexivity.
Qed.

Lemma schedule_tasks_keeps (now : datetime) (m : TaskManager)
  (v : list Task) (m' : TaskManager) :
  schedule_tasks now m = Ok (v, m') ->
  store_wf (tasks m) ->
  store_wf (tasks m') /\ Permutation (all_tasks m') (all_tasks m).
Proof.
  intros Hrun Hwf. apply schedule_tasks_Ok in Hrun.
  destruct Hrun as (_ & _ & _ & Hm). subst m'.
  split; [exact Hwf | reflexivity].
Qed.

Lemma mark_task_as_completed_keeps (task_name : string) (m : TaskManager)
  (v : completion_report) (m' : TaskManager) :
  mark_task_as_completed task_name m = Ok (v, m') ->
  store_wf (tasks m) ->
  store_wf (tasks m') /\ Permutation (all_tasks m') (all_tasks m).
Proof.
  intros Hrun Hwf. split.
  - eapply store_wf_mark_task_as_completed; eassumption.
  - apply (mark_task_as_completed_Permutation _ _ _ _ Hrun).
Qed.

(** One pass of the menu ends, reads no line back, and keeps the session
    in order. *)
Lemma menu_choice_spec (choice : string) (s : session) :
  exists r,
    menu_choice lower strip strptime int clock choice s = Some r /\
    forall s', r = Returned (Some s') ->
      (length (stdin s') <= length (stdin s))%nat /\
      (session_ok s -> session_ok s').
Proof.
  unfold menu_choice.
  destruct (String.eqb choice "1").
  { destruct (get_user_input_loop_spec (S (length (stdin s))) s (le_n _))
      as (r & Hr & Hspec).
    unfold get_user_input. rewrite Hr. destruct r as [s1|e].
    - eexists. split; [reflexivity|]. intros s' Hs'. inversion Hs'; subst s'.
      destruct (Hspec s1 eq_refl) as (Hlen & _ & _ & _ & _ & Hok).
      split; [lia | exact Hok].
    - eexists. split; [reflexivity | discriminate]. }
  destruct (String.eqb choice "2").
  { destruct (call get_upcoming_tasks s 0) as [[v s1]|e] eqn:Hcall;
      [|eexists; split; [reflexivity | discriminate]].
    eexists. split; [reflexivity|]. intros s' Hs'. inversion Hs'; subst s'.
    apply call_keeps in Hcall;
      [|apply keeps_same_manager; apply get_upcoming_tasks_same].
    destruct Hcall as (Hin & _ & Hok). split; [rewrite Hin; lia | exact Hok]. }
  destruct (String.eqb choice "3").
  { destruct (call (schedule_tasks (clock (clock_reads s))) s 1)
      as [[v s1]|e] eqn:Hcall;
      [|eexists; split; [reflexivity | discriminate]].
    apply call_keeps in Hcall; [|apply schedule_tasks_keeps].
    destruct Hcall as (Hin & _ & Hok).
    destruct v as [|t v].
    - eexists. split; [reflexivity|]. intros s' Hs'. inversion Hs'; subst s'.
      split; [rewrite Hin; lia | exact Hok].
    - destruct (plot_gantt_chart (t :: v)) as [c|e];
        [|eexists; split; [reflexivity | discriminate]].
      eexists. split; [reflexivity|]. intros s' Hs'. inversion Hs'; subst s'.
      split; [rewrite Hin; lia | exact Hok]. }
  destruct (String.eqb choice "4").
  { destruct (call analyze_task_density s 0) as [[v s1]|e] eqn:Hcall;
      [|eexists; split; [reflexivity | discriminate]].
    eexists. split; [reflexivity|]. intros s' Hs'. inversion Hs'; subst s'.
    apply call_keeps in Hcall;
      [|apply keeps_same_manager; apply analyze_task_density_same].
    destruct Hcall as (Hin & _ & Hok). split; [rewrite Hin; lia | exact Hok]. }
  destruct (String.eqb choice "5").
  { destruct (call (remind_tasks (clock (clock_reads s))) s 1)
      as [[v s1]|e] eqn:Hcall;
      [|eexists; split; [reflexivity | discriminate]].
    eexists. split; [reflexivity|]. intros s' Hs'. inversion Hs'; subst s'.
    apply call_keeps in Hcall;
      [|apply keeps_same_manager; apply remind_tasks_same].
    destruct Hcall as (Hin & _ & Hok). split; [rewrite Hin; lia | exact Hok]. }
  destruct (String.eqb choice "6").
  { destruct (stdin s) as [|task_name rest] eqn:Hstdin;
      [eexists; split; [reflexivity | discriminate]|].
    destruct (call (mark_task_as_completed task_name)
                (mkSession (manager s) rest (clock_reads s) (next_oid s)) 0)
      as [[v s1]|e] eqn:Hcall;
      [|eexists; split; [reflexivity | discriminate]].
    eexists. split; [reflexivity|]. intros s' Hs'. inversion Hs'; subst s'.
    apply call_keeps in Hcall; [|apply mark_task_as_completed_keeps].
    destruct Hcall as (Hin & _ & Hok). cbn [stdin] in Hin.
    split; [rewrite Hin; cbn; lia|].
    intro Hoks. apply Hok. unfold session_ok in *. cbn. exact Hoks. }
  destruct (String.eqb choice "7").
  { destruct (call view_completed_tasks s 0) as [[v s1]|e] eqn:Hcall;
      [|eexists; split; [reflexivity | discriminate]].
    eexists. split; [reflexivity|]. intros s' Hs'. inversion Hs'; subst s'.
    apply call_keeps in Hcall;
      [|apply keeps_same_manager; apply view_completed_tasks_same].
    destruct Hcall as (Hin & _ & Hok). split; [rewrite Hin; lia | exact Hok]. }
  destruct (String.eqb choice "8").
  { eexists. split; [reflexivity | discriminate]. }
  eexists. split; [reflexivity|]. intros s' Hs'. inversion Hs'; subst s'.
  split; [lia | tauto].
Qed.

(** With fuel for the lines that are left the menu loop ends, and when it
    returns the session is in order if it was. *)
Lemma menu_loop_spec (fuel : nat) :
  forall s : session,
    (length (stdin s) < fuel)%nat ->
    exists r,
      menu_loop lower strip strptime int clock fuel s = Some r /\
      forall s', r = Returned s' -> session_ok s -> session_ok s'.
Proof.
  induction fuel as [|fuel IH]; intros s Hfuel; [lia|].
  cbn [menu_loop].
  destruct (stdin s) as [|choice rest] eqn:Hstdin;
    [eexists; split; [reflexivity | discriminate]|].
  set (s0 := mkSession (manager s) rest (clock_reads s) (next_oid s)).
  assert (Hok0 : session_ok s -> session_ok s0)
    by (unfold session_ok, s0; cbn; tauto).
  destruct (menu_choice_spec choice s0) as (r & Hr & Hspec).
  rewrite Hr. destruct r as [[s1|]|e].
  - destruct (Hspec s1 eq_refl) as [Hlen Hok1].
    destruct (IH s1) as (r' & Hr' & Hspec');
      [unfold s0 in Hlen; cbn in Hlen, Hfuel; lia|].
    exists r'. split; [exact Hr'|].
    intros s' Hs' Hoks. apply (Hspec' s' Hs'). tauto.
  - eexists. split; [reflexivity|]. intros s' Hs'. inversion Hs'; subst s'.
    exact Hok0.
  - eexists. split; [reflexivity | discriminate].
Qed.

Lemma add_seed_spec (name : string) (task_type : TaskType)
  (hours priority duration : Z) (s s' : session) :
  add_seed clock name task_type hours priority duration s = Returned s' ->
  stdin s' = stdin s /\ (session_ok s -> session_ok s').
Proof.
  unfold add_seed.
  destruct (timedelta_hours hours) as [d|e]; [|discriminate]. cbn [bind].
  destruct (datetime_add (clock (clock_reads s)) d) as [deadline|e];
    [|discriminate].
  cbn [bind].
  destruct (add_task _ (manager s)) as [[[] m]|e] eqn:Hadd; [|discriminate].
  intro Heq. inversion Heq; subst s'. split; [reflexivity|].
  intro Hok. eapply session_ok_add_task; [exact Hok | | exact Hadd].
  reflexivity.
Qed.

Lemma session_ok_start (input : list string) :
  session_ok (mkSession init input 0 0).
Proof.
  unfold session_ok. cbn. repeat split; constructor.
Qed.

Lemma display_menu_spec (s : session) :
  exists r,
    display_menu lower strip strptime int clock s = Some r /\
    forall s', r = Returned s' -> session_ok s -> session_ok s'.
Proof.
  unfold display_menu.
  destruct (add_seed clock "Calculus Assignment" academic 5 1 120 s)
    as [s1|e] eqn:H1; [|eexists; split; [reflexivity | discriminate]].
  destruct (add_seed clock "Project Report" academic 12 2 180 s1)
    as [s2|e] eqn:H2; [|eexists; split; [reflexivity | discriminate]].
  destruct (add_seed clock "Self-Care" personal 8 3 60 s2)
    as [s3|e] eqn:H3; [|eexists; split; [reflexivity | discriminate]].
  apply add_seed_spec in H1, H2, H3.
  destruct (menu_loop_spec (S (length (stdin s3))) s3 (le_n _))
    as (r & Hr & Hspec).
  exists r. split; [exact Hr|].
  intros s' Hs' Hok. apply (Hspec s' Hs'). tauto.
Qed.

End ShellFacts.

Section ShellProperties.
Variable lower strip : string -> string.
Variable strptime : string -> option datetime.
Variable int : string -> option Z.
Variable clock : nat -> datetime.

(** X20. Whatever is typed and whatever the clock shows, when the program
    ends through the menu the manager is in order: every tuple of the store
    carries the priority and the deadline of its task, no task object is
    held twice, and no completed task is still in the store. *)
Theorem main_keeps_the_manager_in_order (input : list string)
  (s' : session) :
  main lower strip strptime int clock input = Some (Returned s') ->
  store_wf (tasks (manager s')) /\
  NoDup (all_tasks (manager s')) /\
  forall t, In t (completed_tasks (manager s')) ->
            ~ In t (map entry_task (tasks (manager s'))).
Proof.
  intro Hrun. unfold main in Hrun.
  destruct (display_menu_spec lower strip strptime int clock
              (mkSession init input 0 0)) as (r & Hr & Hspec).
  rewrite Hr in Hrun. inversion Hrun; subst r.
  destruct (Hspec s' eq_refl (session_ok_start input)) as (Hwf & Hnd & _).
  apply NoDup_map_inv in Hnd.
  split; [exact Hwf|]. split; [exact Hnd|].
  intros t Hc Hs. unfold all_tasks in Hnd.
  apply NoDup_app_remove_l in Hnd as Hc'.
  destruct (in_split _ _ Hs) as (l1 & l2 & Hl).
  rewrite Hl in Hnd. rewrite <- app_assoc in Hnd. cbn [app] in Hnd.
  apply NoDup_remove_2 in Hnd. apply Hnd.
  rewrite app_assoc. apply in_or_app. right. exact Hc.
Qed.

(** X21. On every finite input the program comes to an end, through
    choice 8 or with an exception (EOFError at the latest, when a prompt
    finds the input used up): no menu round and no prompt loop goes on
    without reading a line. *)
Theorem main_ends (input : list string) :
  exists r, main lower strip strptime int clock input = Some r.
Proof.
  destruct (display_menu_spec lower strip strptime int clock
              (mkSession init input 0 0)) as (r & Hr & _).
  exists r. exact Hr.
Qed.

(** X22. [get_user_input], when it returns, has read at least one line,
    has added new task objects to the store and removed none, and has left
    the schedule and the completed tasks alone. *)
Theorem get_user_input_only_adds (s s' : session) :
  get_user_input lower strip strptime int s = Some (Returned s') ->
  (length (stdin s') < length (stdin s))%nat /\
  (exists added,
     Permutation (tasks (manager s'))
                 (map entry_of added ++ tasks (manager s)) /\
     next_oid s' = (next_oid s + length added)%nat /\
     Forall (fun t => (next_oid s <= oid t < next_oid s')%nat) added) /\
  schedule (manager s') = schedule (manager s) /\
  completed_tasks (manager s') = completed_tasks (manager s).
Proof.
  intro Hrun. unfold get_user_input in Hrun.
  destruct (get_user_input_loop_spec lower strip strptime int
              (S (length (stdin s))) s (le_n _)) as (r & Hr & Hspec).
  rewrite Hr in Hrun. inversion Hrun; subst r.
  destruct (Hspec s' eq_refl) as (Hlen & _ & Hadded & Hsched & Hcomp & _).
  repeat split; assumption.
Qed.

Lemma read_task_type_retries (bad : list string) (line : string)
  (rest : list string) (ty : TaskType) :
  Forall (fun l => lower (strip l) <> "academic"%string /\
                   lower (strip l) <> "personal"%string) bad ->
  lower (strip line) =
    match ty with academic => "academic" | personal => "personal" end%string ->
  read_task_type lower strip (bad ++ line :: rest) = Returned (ty, rest).
Proof.
  intros Hbad Hline. induction Hbad as [|l bad [Ha Hp] Hbad IH];
    cbn [app read_task_type].
  - rewrite Hline. destruct ty; reflexivity.
  - apply String.eqb_neq in Ha, Hp. rewrite Ha, Hp. exact IH.
Qed.

Lemma read_deadline_retries (bad : list string) (line : string)
  (rest : list string) (d : datetime) :
  Forall (fun l => strptime l = None) bad ->
  strptime line = Some d ->
  read_deadline strptime (bad ++ line :: rest) = Returned (d, rest).
Proof.
  intros Hbad Hline. induction Hbad as [|l bad Hl Hbad IH];
    cbn [app read_deadline].
  - rewrite Hline. reflexivity.
  - rewrite Hl. exact IH.
Qed.

(** X23. In [get_user_input] a task type that is neither "academic" nor
    "personal" and a deadline that does not parse are asked for again, any
    number of times; a priority or a duration that is not a number is not:
    the ValueError of [int] ends the program. *)
Theorem get_user_input_bad_number (s : session) (name ty_line dl_line : string)
  (bad_types bad_deadlines numbers : list string) (ty : TaskType)
  (d : datetime) :
  lower name <> "done"%string ->
  Forall (fun l => lower (strip l) <> "academic"%string /\
                   lower (strip l) <> "personal"%string) bad_types ->
  lower (strip ty_line) =
    match ty with academic => "academic" | personal => "personal" end%string ->
  Forall (fun l => strptime l = None) bad_deadlines ->
  strptime dl_line = Some d ->
  stdin s = name :: bad_types ++ ty_line :: bad_deadlines ++ dl_line :: numbers ->
  (exists pr_line rest,
     numbers = pr_line :: rest /\
     (int pr_line = None \/
      exists p du_line rest',
        int pr_line = Some p /\ rest = du_line :: rest' /\
        int du_line = None)) ->
  get_user_input lower strip strptime int s = Some (Raised ValueError).
Proof.
  intros Hname Hbt Hty Hbd Hdl Hstdin (pr_line & rest & Hnum & Hbad).
  unfold get_user_input. cbn [get_user_input_loop]. rewrite Hstdin.
  apply String.eqb_neq in Hname. rewrite Hname.
  rewrite (read_task_type_retries bad_types ty_line _ ty Hbt Hty).
  rewrite (read_deadline_retries bad_deadlines dl_line _ d Hbd Hdl).
  subst numbers. cbn [read_int].
  destruct Hbad as [Hpr|(p & du_line & rest' & Hpr & Hrest & Hdu)];
    rewrite Hpr; [reflexivity|].
  subst rest. cbn [read_int]. rewrite Hdu. reflexivity.
Qed.

Lemma add_seed_Ok (name : string) (task_type : TaskType)
  (hours priority duration : Z) (s : session) (m : TaskManager) :
  timedelta_hours hours = Ok (hours * US_PER_HOUR) ->
  valid_datetime (clock (clock_reads s) + hours * US_PER_HOUR) ->
  add_task (mkTask (next_oid s) name task_type
                   (clock (clock_reads s) + hours * US_PER_HOUR)
                   priority duration) (manager s) = Ok (tt, m) ->
  add_seed clock name task_type hours priority duration s =
  Returned (mkSession m (stdin s) (S (clock_reads s)) (S (next_oid s))).
Proof.
  intros Htd Hvalid Hadd. unfold add_seed. rewrite Htd. cbn [bind].
  unfold datetime_add, valid_datetimeb. unfold valid_datetime in Hvalid.
  replace (0 <=? clock (clock_reads s) + hours * US_PER_HOUR) with true
    by (symmetry; apply Z.leb_le; lia).
  replace (clock (clock_reads s) + hours * US_PER_HOUR <=? DATETIME_MAX)
    with true by (symmetry; apply Z.leb_le; lia).
  cbn [andb bind]. rewrite Hadd. reflexivity.
Qed.

(** X24. Start-up cannot fail on the empty manager unless the clock is
    within twelve hours of [datetime.max]: the three seed tasks have the
    priorities 1, 2 and 3, so no comparison reaches the task objects, and
    the store then holds them in the order they were added. *)
Theorem display_menu_seeds (input : list string) :
  valid_datetime (clock 0 + 5 * US_PER_HOUR) ->
  valid_datetime (clock 1 + 12 * US_PER_HOUR) ->
  valid_datetime (clock 2 + 8 * US_PER_HOUR) ->
  main lower strip strptime int clock input =
  menu_loop lower strip strptime int clock (S (length input))
    (mkSession
       (mkTaskManager
          [entry_of (mkTask 0 "Calculus Assignment" academic
                            (clock 0 + 5 * US_PER_HOUR) 1 120);
           entry_of (mkTask 1 "Project Report" academic
                            (clock 1 + 12 * US_PER_HOUR) 2 180);
           entry_of (mkTask 2 "Self-Care" personal
                            (clock 2 + 8 * US_PER_HOUR) 3 60)]
          [] [])
       input 3 3).
Proof.
  intros H0 H1 H2. unfold main, display_menu.
  rewrite (add_seed_Ok "Calculus Assignment" academic 5 1 120
             (mkSession init input 0 0)
             (mkTaskManager
                [entry_of (mkTask 0 "Calculus Assignment" academic
                                  (clock 0 + 5 * US_PER_HOUR) 1 120)] [] []));
    [|reflexivity | exact H0 | reflexivity].
  rewrite (add_seed_Ok "Project Report" academic 12 2 180 _
             (mkTaskManager
                [entry_of (mkTask 0 "Calculus Assignment" academic
                                  (clock 0 + 5 * US_PER_HOUR) 1 120);
                 entry_of (mkTask 1 "Project Report" academic
                                  (clock 1 + 12 * US_PER_HOUR) 2 180)] [] []));
    [|reflexivity | exact H1 | reflexivity].
  rewrite (add_seed_Ok "Self-Care" personal 8 3 60 _
             (mkTaskManager
                [entry_of (mkTask 0 "Calculus Assignment" academic
                                  (clock 0 + 5 * US_PER_HOUR) 1 120);
                 entry_of (mkTask 1 "Project Report" academic
                                  (clock 1 + 12 * US_PER_HOUR) 2 180);
                 entry_of (mkTask 2 "Self-Care" personal
                                  (clock 2 + 8 * US_PER_HOUR) 3 60)] [] []));
    [|reflexivity | exact H2 | reflexivity].
  reflexivity.
Qed.

End ShellProperties.

(** ** The shell on the examples *)

Lemma example_main :
  main example_lower example_strip example_strptime example_int example_clock
       example_input
  = Some (Returned example_final).
Proof. vm_compute. reflexivity. Qed.

Lemma main_keeps_the_manager_in_order_witness :
  store_wf (tasks (manager example_final)) /\
  NoDup (all_tasks (manager example_final)) /\
  forall t, In t (completed_tasks (manager example_final)) ->
            ~ In t (map entry_task (tasks (manager example_final))).
Proof.
  exact (main_keeps_the_manager_in_order example_lower example_strip
           example_strptime example_int example_clock example_input
           example_final example_main).
Defined.

Lemma example_get_user_input :
  get_user_input example_lower example_strip example_strptime example_int
                 example_typing
  = Some (Returned example_typed).
Proof. vm_compute. reflexivity. Qed.

Lemma get_user_input_only_adds_witness :
  (length (stdin example_typed) < length (stdin example_typing))%nat /\
  (exists added,
     Permutation (tasks (manager example_typed))
                 (map entry_of added ++ tasks (manager example_typing)) /\
     next_oid example_typed = (next_oid example_typing + length added)%nat /\
     Forall (fun t => (next_oid example_typing <= oid t
                       < next_oid example_typed)%nat) added) /\
  schedule (manager example_typed) = schedule (manager example_typing) /\
  completed_tasks (manager example_typed)
  = completed_tasks (manager example_typing).
Proof.
  exact (get_user_input_only_adds example_lower example_strip
           example_strptime example_int example_typing example_typed
           example_get_user_input).
Defined.

Lemma get_user_input_bad_number_witness :
  get_user_input example_lower example_strip example_strptime example_int
    (mkSession seeded
       ["Essay"; "poetry"; "Academic"; "tomorrow"; "2026-11-04 09:00";
        "two"]%string 3 4)
  = Some (Raised ValueError).
Proof.
  apply (get_user_input_bad_number example_lower example_strip
           example_strptime example_int _ "Essay" "Academic"
           "2026-11-04 09:00" ["poetry"%string] ["tomorrow"%string]
           ["two"%string] academic (example_now + 21 * US_PER_HOUR)).
  - vm_compute. discriminate.
  - repeat constructor; vm_compute; discriminate.
  - reflexivity.
  - repeat constructor.
  - reflexivity.
  - reflexivity.
  - exists "two"%string, []. split; [reflexivity|]. left. reflexivity.
Defined.

Lemma display_menu_seeds_witness :
  main example_lower example_strip example_strptime example_int example_clock
       example_input =
  menu_loop example_lower example_strip example_strptime example_int
    example_clock (S (length example_input))
    (mkSession
       (mkTaskManager
          [entry_of (mkTask 0 "Calculus Assignment" academic
                            (example_clock 0 + 5 * US_PER_HOUR) 1 120);
           entry_of (mkTask 1 "Project Report" academic
                            (example_clock 1 + 12 * US_PER_HOUR) 2 180);
           entry_of (mkTask 2 "Self-Care" personal
                            (example_clock 2 + 8 * US_PER_HOUR) 3 60)]
          [] [])
       example_input 3 3).
Proof.
  apply display_menu_seeds; vm_compute; split; discriminate.
Defined.

(** ** The heap order of the store *)

Lemma parent_lt (i : nat) : (0 < i)%nat -> (parent i < i)%nat.
Proof.
  intro Hi. unfold parent.
  assert (Nat.div (i - 1) 2 <= i - 1)%nat
    by (apply Nat.Div0.div_le_upper_bound; lia).
  lia.
Qed.

Lemma parent_child (i : nat) : (0 < i)%nat -> (2 * parent i + 1 <= i)%nat.
Proof.
  intro Hi. unfold parent.
  pose proof (Nat.Div0.mul_div_le (i - 1) 2). lia.
Qed.

Lemma parent_S (p : nat) : parent (S p) = Nat.div p 2.
Proof. unfold parent. f_equal. lia. Qed.

Lemma nth_error_list_set_eq {A : Type} (l : list A) (i : nat) (x : A) :
  (i < length l)%nat -> nth_error (list_set l i x) i = Some x.
Proof.
  revert i. induction l as [|y l IH]; intros i Hi; [cbn in Hi; lia|].
  destruct i; cbn [list_set nth_error]; [reflexivity|].
  apply IH. cbn in Hi. lia.
Qed.

Lemma nth_error_list_set_neq {A : Type} (l : list A) (i j : nat) (x : A) :
  i <> j -> nth_error (list_set l i x) j = nth_error l j.
Proof.
  revert i j. induction l as [|y l IH]; intros i j Hij; [reflexivity|].
  destruct i, j; cbn [list_set nth_error]; try reflexivity; [lia|].
  apply IH. lia.
Qed.

Lemma entry_le_refl (a : entry) : entry_le a a.
Proof. unfold entry_le. lia. Qed.

(** The sift with the new item in hand and a hole at [pos]: when the
    tuples away from the hole are in heap order and the children of the
    hole are not below the new item nor below the parent of the hole, the
    result is in heap order. *)
Lemma siftdown_heap_ordered (newitem : entry) (pos : nat) :
  forall heap heap' : list entry,
    (pos < length heap)%nat ->
    (forall i c p,
        (0 < i)%nat -> i <> pos -> parent i <> pos ->
        nth_error heap i = Some c -> nth_error heap (parent i) = Some p ->
        entry_le p c) ->
    (forall i c,
        (0 < i)%nat -> parent i = pos -> nth_error heap i = Some c ->
        entry_le newitem c /\
        ((0 < pos)%nat -> forall g, nth_error heap (parent pos) = Some g ->
                                    entry_le g c)) ->
    siftdown heap newitem pos = Ok heap' ->
    heap_ordered heap'.
Proof.
  induction pos as [pos IH] using lt_wf_ind.
  intros heap heap' Hpos Haway Hchildren Hrun.
  assert (Hplace : forall parent_ok : (0 < pos)%nat ->
                     forall g, nth_error heap (parent pos) = Some g ->
                               entry_le g newitem,
            heap_ordered (list_set heap pos newitem)).
  { intros Hparent i c p Hi Hc Hp.
    pose proof (parent_lt i Hi) as Hlt.
    destruct (Nat.eq_dec i pos) as [Heq|Hne].
    - subst i. rewrite nth_error_list_set_eq in Hc by exact Hpos.
      inversion Hc; subst c.
      rewrite nth_error_list_set_neq in Hp by lia.
      apply (Hparent Hi p Hp).
    - rewrite nth_error_list_set_neq in Hc by lia.
      destruct (Nat.eq_dec (parent i) pos) as [Heqp|Hnep].
      + rewrite Heqp in Hp.
        rewrite nth_error_list_set_eq in Hp by exact Hpos.
        inversion Hp; subst p.
        exact (proj1 (Hchildren i c Hi Heqp Hc)).
      + rewrite nth_error_list_set_neq in Hp by lia.
        apply (Haway i c p Hi Hne Hnep Hc Hp). }
  destruct pos as [|p].
  { rewrite siftdown_equation_1 in Hrun. inversion Hrun; subst heap'.
    apply Hplace. intro H0. lia. }
  rewrite siftdown_equation_2 in Hrun.
  assert (Hq : (Nat.div p 2 < S p)%nat)
    by (rewrite <- parent_S; apply parent_lt; lia).
  destruct (nth_error heap (Nat.div p 2)) as [par|] eqn:Hnth; [|discriminate].
  cbn in Hrun.
  destruct (tuple_lt newitem par) as [[|]|e] eqn:Hlt; cbn in Hrun;
    [| |discriminate].
  - change (fst (Nat.divmod p 1 0 1)) with (Nat.div p 2) in Hrun.
    apply tuple_lt_true in Hlt.
    set (q := Nat.div p 2) in *.
    assert (Hqp : parent (S p) = q) by apply parent_S.
    apply (IH q Hq (list_set heap (S p) par) heap');
      [rewrite list_set_length; lia | | | exact Hrun].
    + (* the pairs away from the new hole *)
      intros i c g Hi Hiq Hpq Hc Hg.
      pose proof (parent_lt i Hi) as Hpi.
      destruct (Nat.eq_dec i (S p)) as [Heq|Hne];
        [subst i; rewrite Hqp in Hpq; contradiction|].
      rewrite nth_error_list_set_neq in Hc by lia.
      destruct (Nat.eq_dec (parent i) (S p)) as [Heqp|Hnep].
      * rewrite Heqp in Hg.
        rewrite nth_error_list_set_eq in Hg by exact Hpos.
        inversion Hg; subst g.
        destruct (Hchildren i c Hi Heqp Hc) as [_ Hgrand].
        apply (Hgrand ltac:(lia) par). rewrite Hqp. exact Hnth.
      * rewrite nth_error_list_set_neq in Hg by lia.
        apply (Haway i c g Hi Hne Hnep Hc Hg).
    + (* the children of the new hole *)
      intros i c Hi Hpi Hc.
      assert (Hpar_c : entry_le par c).
      { destruct (Nat.eq_dec i (S p)) as [Heq|Hne].
        - subst i. rewrite nth_error_list_set_eq in Hc by exact Hpos.
          inversion Hc; subst c. apply entry_le_refl.
        - rewrite nth_error_list_set_neq in Hc by lia.
          apply (Haway i c par Hi Hne); [lia | exact Hc|].
          rewrite Hpi. exact Hnth. }
      split; [eapply entry_le_trans; eassumption|].
      intros Hq0 g Hg.
      pose proof (parent_lt q Hq0) as Hpq.
      rewrite nth_error_list_set_neq in Hg by lia.
      eapply entry_le_trans; [|exact Hpar_c].
      apply (Haway q par g Hq0); [lia | lia | exact Hnth | exact Hg].
  - inversion Hrun; subst heap'. apply tuple_lt_false in Hlt.
    apply Hplace. intros _ g Hg. rewrite parent_S, Hnth in Hg.
    inversion Hg; subst g. exact Hlt.
Qed.

Lemma heappush_heap_ordered (heap heap' : list entry) (item : entry) :
  heap_ordered heap ->
  heappush heap item = Ok heap' ->
  heap_ordered heap'.
Proof.
  intros Hheap Hrun. unfold heappush in Hrun.
  apply (siftdown_heap_ordered item (length heap) (heap ++ [item]));
    [rewrite length_app; cbn; lia | | | exact Hrun].
  - intros i c p Hi Hne Hpne Hc Hp.
    pose proof (parent_lt i Hi) as Hlt.
    assert (Hin : (i < length (heap ++ [item]))%nat)
      by (apply nth_error_Some; congruence).
    rewrite length_app in Hin. cbn in Hin.
    rewrite nth_error_app1 in Hc by lia.
    rewrite nth_error_app1 in Hp by lia.
    apply (Hheap i c p Hi Hc Hp).
  - intros i c Hi Hpi Hc. exfalso.
    pose proof (parent_child i Hi) as Hch.
    assert (Hin : (i < length (heap ++ [item]))%nat)
      by (apply nth_error_Some; congruence).
    rewrite length_app in Hin. cbn in Hin. lia.
Qed.

(** In a heap-ordered list nothing is below the first tuple. *)
Lemma heap_ordered_first (l : list entry) (first : entry) :
  heap_ordered l ->
  nth_error l 0 = Some first ->
  forall (i : nat) (e : entry), nth_error l i = Some e -> entry_le first e.
Proof.
  intros Hheap Hfirst i.
  induction i as [i IH] using lt_wf_ind. intros e He.
  destruct i as [|i]; [rewrite Hfirst in He; inversion He;
                       apply entry_le_refl|].
  pose proof (parent_lt (S i) ltac:(lia)) as Hlt.
  destruct (nth_error l (parent (S i))) as [p|] eqn:Hp.
  - eapply entry_le_trans; [apply (IH _ Hlt p Hp)|].
    apply (Hheap (S i) e p); [lia | exact He | exact Hp].
  - apply nth_error_None in Hp.
    assert (S i < length l)%nat by (apply nth_error_Some; congruence). lia.
Qed.

(** X25. [add_task] keeps the heap order of the store: if no tuple was
    below its parent in the (priority, deadline) order, none is after the
    call, and the first tuple of the store is then one of least priority
    number and, among those, earliest deadline.  (Only [add_task] keeps
    this order; the [del] of [mark_task_as_completed] does not restore
    it.) *)
Theorem add_task_keeps_heap_order (task : Task) (m m' : TaskManager) :
  heap_ordered (tasks m) ->
  add_task task m = Ok (tt, m') ->
  heap_ordered (tasks m') /\
  forall first rest,
    tasks m' = first :: rest -> Forall (entry_le first) rest.
Proof.
  intros Hheap Hrun.
  assert (Hheap' : heap_ordered (tasks m')).
  { unfold add_task, mbind, get_tasks, lift, put_tasks in Hrun.
    destruct (heappush (tasks m) (priority task, deadline task, task))
      as [heap|e] eqn:Hpush; [|discriminate].
    inversion Hrun; subst m'. cbn [tasks].
    eapply heappush_heap_ordered; eassumption. }
  split; [exact Hheap'|].
  intros first rest Hl. apply Forall_forall. intros e He.
  apply In_nth_error in He. destruct He as [i Hi].
  apply (heap_ordered_first (tasks m') first Hheap') with (i := S i);
    rewrite Hl; [reflexivity | exact Hi].
Qed.

Lemma heap_ordered_two :
  heap_ordered [entry_of project_report; entry_of self_care].
Proof.
  intros i c p Hi Hc Hp.
  destruct i as [|[|i]]; [lia | |destruct i; discriminate].
  cbn in Hc, Hp. inversion Hc; inversion Hp; subst.
  left. vm_compute. reflexivity.
Qed.

Lemma add_task_keeps_heap_order_witness :
  let m' := mkTaskManager
              [entry_of calculus_assignment; entry_of self_care;
               entry_of project_report] [] [] in
  heap_ordered (tasks m') /\
  forall first rest,
    tasks m' = first :: rest -> Forall (entry_le first) rest.
Proof.
  intro m'.
  apply (add_task_keeps_heap_order calculus_assignment
           (mkTaskManager [entry_of project_report; entry_of self_care] [] [])
           m').
  - exact heap_ordered_two.
  - reflexivity.
Defined.

(** The [del] of a completion can leave a list that is no heap: after the
    first seed task is completed, the new first tuple has priority 3 and its
    child priority 2. *)
Lemma mark_task_as_completed_can_break_heap_order :
  let m := mkTaskManager
             [entry_of calculus_assignment; entry_of self_care;
              entry_of project_report] [] [] in
  heap_ordered (tasks m) /\
  exists m',
    mark_task_as_completed "Calculus Assignment" m
    = Ok (marked_as_completed, m') /\
    ~ heap_ordered (tasks m').
Proof.
  split.
  - intros i c p Hi Hc Hp.
    destruct i as [|[|[|i]]]; [lia | | |destruct i; discriminate];
      cbn in Hc, Hp; inversion Hc; inversion Hp; subst;
      left; vm_compute; reflexivity.
  - eexists. split; [reflexivity|]. cbn [tasks list_del].
    intro Hheap.
    specialize (Hheap 1%nat (entry_of project_report) (entry_of self_care)
                  ltac:(lia) eq_refl eq_refl).
    destruct Hheap as [Hlt|[Heq _]]; vm_compute in *; discriminate.
Qed.

(** ** merge on its own *)

(** X26. [merge] returns all the elements of its two lists and nothing
    else, whatever their order.  When the left list is ascending, the
    elements of each key come out with those of the left list first, each
    side in its own order; when both lists are ascending, so is the
    result. *)
Theorem merge_merges {A K : Type} `{TotalPreorder K} (key : A -> K)
  (left right : list A) :
  Permutation (left ++ right) (merge key left right) /\
  (ascending key left ->
   forall k, with_key key k (merge key left right)
             = with_key key k left ++ with_key key k right) /\
  (ascending key left -> ascending key right ->
   ascending key (merge key left right)).
Proof.
  split; [apply merge_Permutation|]. split.
  - intros Hl k. apply merge_with_key. exact Hl.
  - apply merge_ascending.
Qed.

Lemma merge_merges_witness :
  let key := fun p : Z * string => fst p in
  let left := [(1, "a"); (3, "b")]%string in
  let right := [(1, "c"); (2, "d"); (3, "e")]%string in
  Permutation (left ++ right) (merge key left right) /\
  (ascending key left ->
   forall k, with_key key k (merge key left right)
             = with_key key k left ++ with_key key k right) /\
  (ascending key left -> ascending key right ->
   ascending key (merge key left right)).
Proof.
  intros key left right.
  exact (@merge_merges (Z * string) Z Z_Le Z_TotalPreorder key left right).
Defined.
